(** * minecraft-cache-warmer: the cache-warm core of [minecraft_gui.py]

    A shallow embedding of the file enumerator ([iter_files]), the reader
    ([warm_file]), the instance lister ([list_instances]) and the session
    worker ([worker], with its [weight] ranking), and the properties the
    specification states about them.  The embedding goes on to the functions
    around that core: the discovery of the roots ([probable_instance_dirs]),
    the list of instances in the window ([_refresh_instances] and the lookups
    of [_warm_selected]), the launch after a session ([_maybe_launch] with the
    template of [_detect_prism], and the thread of [worker] with its
    [finally] clause) and the sizes shown in the log ([human]).

    The operating system is a parameter of the model.  A value of type [FS]
    is one snapshot of the answers the file system gives to the [pathlib]
    and [open] calls of the source; an [Env] is a timeline of such snapshots
    together with the timeline of the shared [_stop_flag], so that files may
    disappear and the user may press Stop while the worker runs. *)

From Equations Require Import Equations.
From Stdlib Require Import ZArith Lia Ascii String DecimalString.
From stdpp Require Import base decidable option list sorting gmap strings.

#[local] Set Warnings "-clear-no-such-hyp".

(** ** Exceptions and results *)

(** The exceptions the OS calls of the source raise, and those of [f.read]
    and [int]: [OverflowError] for an integer that does not fit a C
    [ssize_t] and for [int] of an infinity, [MemoryError] for a buffer that
    cannot be allocated, [ValueError] for [int] of a NaN.  Every one of them is
    an instance of Python's [Exception], so [except Exception] catches them
    all. *)
Inductive exn : Type :=
| FileNotFoundError
| PermissionError
| OSError (errno : Z)
| MemoryError
| OverflowError
| ValueError.

Inductive result (A : Type) : Type :=
| Ok (a : A)
| Raise (e : exn).
Arguments Ok {A} a.
Arguments Raise {A} e.

#[global] Instance result_ret : MRet result := fun A a => Ok a.

#[global] Instance result_bind : MBind result := fun A B k r =>
  match r with
  | Ok a => k a
  | Raise e => Raise e
  end.

#[global] Instance exn_eq_dec : EqDecision exn.
Proof. solve_decision. Defined.

#[global] Instance result_eq_dec {A} `{EqDecision A} : EqDecision (result A).
Proof. solve_decision. Defined.

(** ** Paths and the file-system interface *)

(** A [pathlib.Path], represented by its [parts]. *)
Definition Path : Type := list string.

(** [p.name] of a path that has a final component: its last part.  It is
    used where the source ranks the files found under a target ([weight]);
    [name_of] below is [p.name] for every path, also one that is only an
    anchor, whose name is the empty string. *)
Definition name (p : Path) : string := List.last p EmptyString.

(** What depends on the flavour of the paths, [PosixPath] or [WindowsPath]:
    - [casefold part]: the form in which a part is compared, the part itself
      for a POSIX path and its lower case for a Windows path;
    - [is_anchor part]: whether a first part is the anchor of its path, that
      is its drive and root: the root of a POSIX path, the drive and the
      root of a Windows path;
    - [str p]: [str(p)]. *)
Record Flavour : Type := {
  casefold : string → string;
  is_anchor : string → bool;
  str : Path → string
}.

(** [p.name] for every path: the final component, which a path that is
    empty or only an anchor does not have; [name] is this for the paths that
    have a final component. *)
Definition name_of (fl : Flavour) (p : Path) : string :=
  match p with
  | [] => EmptyString
  | [a] => if is_anchor fl a then EmptyString else a
  | _ :: _ :: _ => name p
  end.

(** What [open(path, "rb", buffering=0)] hands back: the bytes a sequential
    read will see, the offset of a byte the device cannot deliver, if there is
    one, and the size of the largest buffer the process can allocate for a
    read while the file is open. *)
Record FileIO : Type := {
  data : list Byte.byte;
  fault : option nat;
  buffer_max : Z
}.

(** One state of the file system, as the calls of the source see it:
    - [rglob root pattern]: the matches [root.rglob(pattern)] produces, in
      order (an error of the directory walk itself is not modelled);
    - [is_file p], [is_dir p], [path_exists p]: [p.is_file()], [p.is_dir()],
      [p.exists()], which answer or re-raise the error of [stat]
      ([PermissionError], for one);
    - [resolve p]: [p.resolve()];
    - [st_size p]: [p.stat().st_size];
    - [open_rb p]: [open(p, "rb", buffering=0)];
    - [iterdir p]: the entries of [p.iterdir()].
    Nothing relates the answers to each other: the properties below hold for
    every file system, consistent or not. *)
Record FS : Type := {
  rglob : Path → string → list Path;
  is_file : Path → result bool;
  path_exists : Path → result bool;
  resolve : Path → result Path;
  st_size : Path → result Z;
  open_rb : Path → result FileIO;
  iterdir : Path → result (list Path);
  is_dir : Path → result bool
}.

(** ** The file enumerator *)

Definition DEFAULT_PATTERNS : list string :=
  [ "*.jar"; "*.zip"; "*.json"; "*.cfg"; "*.toml"; "*.ini";
    "*.mixins.json"; "*.mcmeta"; "*.png"; "*.jpg"; "*.ogg"; "*.wav"; "*.txt" ]%string.

Definition SKIP_DIRNAMES : gset string :=
  list_to_set
    [ ".git"; ".gradle"; ".idea"; "logs"; "crash-reports"; "screenshots";
      "shaderpacks" ]%string.

(** [any(part in SKIP_DIRNAMES for part in p.parts)] *)
Definition has_skip_part (p : Path) : bool :=
  existsb (fun part => bool_decide (part ∈ SKIP_DIRNAMES)) p.

(** [key = (p.resolve() if p.exists() else p)] *)
Definition key_of (fs : FS) (p : Path) : result Path :=
  ex ← path_exists fs p;
  if ex : bool then resolve fs p else Ok p.

(** What one pass through the [try] block of [iter_files] does with a match. *)
Inductive visit_outcome : Type :=
| Continue
| Seen (key : Path)
| Yield (key : Path).

Definition try_body (fs : FS) (seen : gset Path) (p : Path) : result visit_outcome :=
  f ← is_file fs p;
  if negb f then Ok Continue else
  key ← key_of fs p;
  if bool_decide (key ∈ seen) then Ok Continue else
  if has_skip_part p then Ok (Seen key) else Ok (Yield key).

(** The inner loop [for p in root.rglob(pattern)], over the matches [ms];
    it returns the paths yielded and the [seen] set it leaves behind. *)
Fixpoint iter_matches (fs : FS) (ms : list Path) (seen : gset Path)
  : list Path * gset Path :=
  match ms with
  | [] => ([], seen)
  | p :: ms' =>
    match try_body fs seen p with
    | Raise _ => iter_matches fs ms' seen
    | Ok Continue => iter_matches fs ms' seen
    | Ok (Seen key) => iter_matches fs ms' ({[key]} ∪ seen)
    | Ok (Yield key) =>
      let '(out, seen') := iter_matches fs ms' ({[key]} ∪ seen) in
      (p :: out, seen')
    end
  end.

(** The outer loop [for pattern in patterns]. *)
Fixpoint iter_patterns (fs : FS) (root : Path) (patterns : list string)
    (seen : gset Path) : list Path * gset Path :=
  match patterns with
  | [] => ([], seen)
  | pattern :: rest =>
    let '(out1, seen1) := iter_matches fs (rglob fs root pattern) seen in
    let '(out2, seen2) := iter_patterns fs root rest seen1 in
    (out1 ++ out2, seen2)
  end.

(** [list(iter_files(root, patterns))]: [seen = set()], then the two loops. *)
Definition iter_files (fs : FS) (root : Path) (patterns : list string) : list Path :=
  fst (iter_patterns fs root patterns ∅).

(** Every match the two loops look at, in the order they look at them. *)
Definition all_matches (fs : FS) (root : Path) (patterns : list string) : list Path :=
  concat (map (rglob fs root) patterns).

(** A match registers the identity [k] when it reaches [seen.add(key)] with
    [key = k], provided [k] is not in [seen] yet. *)
Definition registers (fs : FS) (p : Path) (k : Path) : Prop :=
  is_file fs p = Ok true ∧ key_of fs p = Ok k.

(** ** The reader *)

(** [sys.maxsize], the largest C [ssize_t], on a 64-bit build *)
Definition PY_SSIZE_T_MAX : Z := 2 ^ 63 - 1.

(** [f.read(size)] on the raw file object [f] positioned at [pos].  [size]
    is a Python integer: the call raises [OverflowError] when it does not fit
    a C [ssize_t], and [MemoryError] when the buffer of [size] bytes cannot be
    allocated, both before anything is read.  Otherwise it delivers the next
    [size] bytes, fewer at the end of the file, all that is left when [size]
    is negative; [OSError] (EIO) when the range holds the faulty byte. *)
Definition read (f : FileIO) (pos : nat) (size : Z) : result (list Byte.byte) :=
  if (PY_SSIZE_T_MAX <? size)%Z then Raise OverflowError
  else if (buffer_max f <? size)%Z then Raise MemoryError
  else
    let avail := drop pos (data f) in
    let got := if (size <? 0)%Z then avail else take (Z.to_nat size) avail in
    match fault f with
    | Some k =>
      if bool_decide (pos ≤ k < pos + length got) then Raise (OSError 5) else Ok got
    | None => Ok got
    end.

(** Keeps the equation [e = v] in reach when a definition matches on [e]. *)
Definition inspect {A} (a : A) : {b : A | a = b} := exist _ a eq_refl.

(** The loop of [warm_file]:
    [while True: data = f.read(chunk); if not data: break; total += len(data)]. *)
Equations? read_loop (f : FileIO) (chunk : Z) (pos : nat) (total : Z) : result Z
  by wf (length (data f) - pos) lt :=
  read_loop f chunk pos total with inspect (read f pos chunk) => {
    | exist _ (Raise e) _ => Raise e
    | exist _ (Ok []) _ => Ok total
    | exist _ (Ok (b :: got)) Hr =>
        read_loop f chunk (pos + length (b :: got)) (total + Z.of_nat (length (b :: got)))
  }.
Proof.
  assert (Hl : length (b :: got) ≤ length (data f) - pos).
  { clear read_loop. unfold read in Hr.
    assert (Hg : ∀ n, length (if (chunk <? 0)%Z then drop pos (data f)
                              else take n (drop pos (data f)))
                      ≤ length (data f) - pos).
    { intros n. destruct (chunk <? 0)%Z; rewrite ?length_take, length_drop; lia. }
    specialize (Hg (Z.to_nat chunk)).
    destruct (PY_SSIZE_T_MAX <? chunk)%Z; [discriminate Hr|].
    destruct (buffer_max f <? chunk)%Z; [discriminate Hr|].
    destruct (fault f); [case_bool_decide|]; inversion Hr as [Heq];
      first [exact Hg | rewrite <- Heq; exact Hg]. }
  simpl in Hl. simpl. lia.
Qed.

(** The Python numbers that can be given for [chunk_mb]: an [int], or a
    [float], which is a NaN, an infinity or a binary fraction [m * 2 ^ e]
    (with [|m| < 2 ^ 53] and [-1074 <= e <= 971] for a double).  An integer
    is read as the [int] of that value. *)
Inductive number : Type :=
| PyInt (z : Z)
| PyFloat (m e : Z)
| PyNaN
| PyInf (negative : bool).

Coercion PyInt : Z >-> number.

(** [int(x)] for the binary fraction [x = m * 2 ^ k]: its integer part,
    rounded towards zero. *)
Definition truncate (m k : Z) : Z :=
  if (0 <=? k)%Z then (m * 2 ^ k)%Z else Z.quot m (2 ^ (- k)).

(** [int(chunk_mb * 1024 * 1024)].  The products of an [int] are exact.
    Those of a float are exact as well, as 1024 is a power of two, unless the
    result leaves the range of a double, from [2 ^ 1024] on, and becomes an
    infinity; [int] raises [OverflowError] for an infinity and [ValueError]
    for a NaN. *)
Definition scaled_int (chunk_mb : number) : result Z :=
  match chunk_mb with
  | PyInt z => Ok (z * 1024 * 1024)%Z
  | PyFloat m e =>
    if (2 ^ 1024 <=? Z.abs (truncate m (e + 20)))%Z then Raise OverflowError
    else Ok (truncate m (e + 20))
  | PyNaN => Raise ValueError
  | PyInf _ => Raise OverflowError
  end.

(** [chunk = max(1, int(chunk_mb * 1024 * 1024))] *)
Definition chunk_size (chunk_mb : number) : result Z :=
  n ← scaled_int chunk_mb;
  mret (Z.max 1 n).

(** [warm_file(path, chunk_mb)]: the [stat], the [open], the chunk size,
    then the loop; an exception of any of them leaves the function. *)
Definition warm_file (fs : FS) (path : Path) (chunk_mb : number) : result Z :=
  size ← st_size fs path;
  f ← open_rb fs path;
  chunk ← chunk_size chunk_mb;
  read_loop f chunk 0 0.
Arguments warm_file fs path chunk_mb%_Z.

(** [warm_file] returns the number of bytes of the file at [path], when it
    is given [chunk_mb] and the file reads without error. *)
Definition returns_bytes_read (fs : FS) (path : Path) (chunk_mb : number) : Prop :=
  ∀ size f,
    st_size fs path = Ok size →
    open_rb fs path = Ok f →
    (∀ k, fault f = Some k → length (data f) ≤ k) →
    warm_file fs path chunk_mb = Ok (Z.of_nat (length (data f))).

(** ** Python's stable sort *)

(** [list.sort] and [sorted] compare with [<] only and are stable.  A stable
    sort has one possible result, so inserting each element in front of the
    first one it is not greater than gives the list Python computes. *)
Section python_sort.
Context {A : Type} (lt : A → A → bool).

Fixpoint insert_sorted (x : A) (l : list A) : list A :=
  match l with
  | [] => [x]
  | y :: l' => if lt y x then y :: insert_sorted x l' else x :: l
  end.

Definition sorted (l : list A) : list A := foldr insert_sorted [] l.

(** [a] is not greater than [b]. *)
Definition not_after (a b : A) : Prop := lt b a = false.
End python_sort.

(** ** The priority sorter *)

(** [str.lower] on one character: the ASCII capitals become small letters.
    The other characters are kept, which leaves unchanged whether a name ends
    in one of the ASCII suffixes [weight] looks for. *)
Definition lower_ascii (c : ascii) : ascii :=
  let n := nat_of_ascii c in
  if (65 <=? n) && (n <=? 90) then ascii_of_nat (n + 32) else c.

(** [str.lower] *)
Fixpoint lower (s : string) : string :=
  match s with
  | EmptyString => EmptyString
  | String c s' => String (lower_ascii c) (lower s')
  end.

(** [str.endswith] *)
Definition endswith (s suffix : string) : bool :=
  bool_decide (list_ascii_of_string suffix `suffix_of` list_ascii_of_string s).

(** The function [weight] of [worker]. *)
Definition weight (p : Path) : Z :=
  let name := lower (name p) in
  if endswith name ".jar" then 0
  else if endswith name ".zip" then 1
  else if endswith name ".json" || endswith name ".toml"
          || endswith name ".cfg" || endswith name ".ini" then 2
  else if endswith name ".png" || endswith name ".ogg" || endswith name ".wav" then 3
  else 4.

(** [<] on the pairs the sort key is made of. *)
Definition tuple_lt (a b : Z * Z) : bool :=
  (a.1 <? b.1)%Z || ((a.1 =? b.1)%Z && (a.2 <? b.2)%Z).

(** [files.sort(key=lambda p: (weight(p), -p.stat().st_size))]: the key of
    every file is computed first, and an exception of [stat] leaves the sort. *)
Definition sort_key (fs : FS) (p : Path) : result (Z * Z) :=
  size ← st_size fs p;
  mret (weight p, - size)%Z.

Fixpoint sort_keys (fs : FS) (files : list Path) : result (list ((Z * Z) * Path)) :=
  match files with
  | [] => mret []
  | p :: rest =>
    k ← sort_key fs p;
    ks ← sort_keys fs rest;
    mret ((k, p) :: ks)
  end.

(** The sort: the pairs of key and file are sorted by key. *)
Definition files_sort (fs : FS) (files : list Path) : result (list Path) :=
  keyed ← sort_keys fs files;
  mret (map snd (sorted (fun a b => tuple_lt a.1 b.1) keyed)).

(** The name of [p] ends in [suffix] when case is ignored. *)
Definition has_suffix (p : Path) (suffix : string) : Prop :=
  endswith (lower (name p)) suffix = true.

(** The suffixes [weight] tells apart. *)
Definition SUFFIXES : list string :=
  [ ".jar"; ".zip"; ".json"; ".toml"; ".cfg"; ".ini"; ".png"; ".ogg"; ".wav" ]%string.

(** The order of the composite key, for files of sizes [sz]: a smaller class
    first, and within a class a larger file first. *)
Definition rank_before (sz : Path → Z) (p q : Path) : Prop :=
  (weight p < weight q)%Z ∨ (weight p = weight q ∧ (sz q ≤ sz p)%Z).

(** What [files.sort] leaves in [files] when the files have the sizes [sz]. *)
Definition rank (sz : Path → Z) (files : list Path) : list Path :=
  sorted (fun p q => tuple_lt (weight p, - sz p)%Z (weight q, - sz q)%Z) files.

(** [p] has the composite key [(w, s)]. *)
Definition has_key (sz : Path → Z) (w s : Z) (p : Path) : Prop :=
  weight p = w ∧ sz p = s.

#[global] Instance has_key_dec sz w s p : Decision (has_key sz w s p).
Proof. unfold has_key. apply _. Defined.

(** ** The instance lister *)

(** [<] on lists of strings, as Python compares them: by the first
    element that differs, and a proper prefix is smaller. *)
Fixpoint parts_lt (p q : list string) : bool :=
  match p, q with
  | _, [] => false
  | [], _ :: _ => true
  | a :: p', b :: q' =>
    if String.ltb a b then true
    else if String.eqb a b then parts_lt p' q' else false
  end.

(** [<] on paths: [pathlib] compares the lists of the case-folded parts. *)
Definition path_lt (fl : Flavour) (p q : Path) : bool :=
  parts_lt (casefold fl <$> p) (casefold fl <$> q).

Definition MARKERS : list string :=
  [ "mods"; "config"; "resourcepacks"; ".minecraft" ]%string.

(** [any((child / sub).exists() for sub in subs)] *)
Fixpoint any_exists (fs : FS) (child : Path) (subs : list string) : result bool :=
  match subs with
  | [] => mret false
  | sub :: rest =>
    e ← path_exists fs (child ++ [sub]);
    if e : bool then mret true else any_exists fs child rest
  end.

(** The two tests the loop body of [list_instances] makes on a child. *)
Definition looks_like_instance (fs : FS) (child : Path) : result bool :=
  d ← is_dir fs child;
  if d : bool then any_exists fs child MARKERS else mret false.

(** The loop of [list_instances]; the [try] is around the whole loop, so an
    exception leaves it with the instances appended so far. *)
Fixpoint instances_loop (fs : FS) (children : list Path) (instances : list Path)
  : list Path :=
  match children with
  | [] => instances
  | child :: rest =>
    match looks_like_instance fs child with
    | Raise _ => instances
    | Ok true => instances_loop fs rest (instances ++ [child])
    | Ok false => instances_loop fs rest instances
    end
  end.

(** [list_instances(root_dir)]: an exception of [root_dir.iterdir()] is
    raised inside [sorted(...)], before the loop. *)
Definition list_instances (fl : Flavour) (fs : FS) (root_dir : Path) : list Path :=
  match iterdir fs root_dir with
  | Raise _ => []
  | Ok children => instances_loop fs (sorted (path_lt fl) children) []
  end.

(** [child] is a directory that directly contains a marker sub-entry. *)
Definition is_instance_dir (fs : FS) (child : Path) : Prop :=
  is_dir fs child = Ok true
  ∧ Exists (fun sub => path_exists fs (child ++ [sub]) = Ok true) MARKERS.

#[global] Instance is_instance_dir_dec fs child : Decision (is_instance_dir fs child).
Proof. unfold is_instance_dir. apply _. Defined.

(** None of the tests [list_instances] can make on [child] raises. *)
Definition tests_answer (fs : FS) (child : Path) : Prop :=
  (∃ d, is_dir fs child = Ok d)
  ∧ Forall (fun sub => ∃ e, path_exists fs (child ++ [sub]) = Ok e) MARKERS.

(** [list_instances] returns exactly the instance directories among the
    entries of [root_dir]. *)
Definition returns_exactly_instances (fl : Flavour) (fs : FS) (root_dir : Path) : Prop :=
  ∀ children, iterdir fs root_dir = Ok children →
  ∀ c, c ∈ list_instances fl fs root_dir ↔ c ∈ children ∧ is_instance_dir fs c.

(** ** The environment of a warm session *)

(** The lines [_append_log] receives, with the numbers they are formatted
    from ([human] only renders them). *)
Inductive log_line : Type :=
| LStart (t : Path)
| LPlan (i n : nat) (fpath : Path) (size : Z)
| LHitLimit
| LWarmed (i : nat) (fpath : Path) (rb : Z) (total : Z)
| LError (i : nat) (fpath : Path) (e : exn)
| LDone (t : Path) (warmed : Z)
| LAllDone (total : Z).

(** What the worker thread does, one event per action: a read of
    [self._stop_flag], an enumeration of a target and its result, a sort of a
    list and its result, a size query and its result, a call of [warm_file],
    a log line. *)
Inductive event : Type :=
| EvFlag (b : bool)
| EvEnumerate (t : Path) (files : list Path)
| EvSort (files : list Path) (r : result (list Path))
| EvStat (fpath : Path) (r : result Z)
| EvWarmFile (fpath : Path)
| EvLog (l : log_line).

#[global] Instance log_line_eq_dec : EqDecision log_line.
Proof. solve_decision. Defined.

#[global] Instance event_eq_dec : EqDecision event.
Proof. solve_decision. Defined.

(** Time is counted in events of the worker.  [stop_flag E c] is the value of
    [self._stop_flag] and [fs_at E c] the state of the file system once the
    worker has performed [c] events; the GUI thread and other processes decide
    both. *)
Record Env : Type := {
  stop_flag : nat → bool;
  fs_at : nat → FS
}.

(** A computation of the worker: started at time [c] in the environment [E],
    it returns or raises, and performs the listed events in order. *)
Definition M (A : Type) : Type := Env → nat → result A * list event.

#[global] Instance M_ret : MRet M := fun A a E c => (Ok a, []).

#[global] Instance M_bind : MBind M := fun A B k m E c =>
  match m E c with
  | (Ok a, evs) => let '(r, evs') := k a E (c + length evs) in (r, evs ++ evs')
  | (Raise e, evs) => (Raise e, evs)
  end.

(** [try: m / except Exception as e: handler e] *)
Definition try_except {A} (m : M A) (handler : exn → M A) : M A := fun E c =>
  match m E c with
  | (Ok a, evs) => (Ok a, evs)
  | (Raise e, evs) =>
    let '(r, evs') := handler e E (c + length evs) in (r, evs ++ evs')
  end.

(** [if self._stop_flag] *)
Definition read_stop_flag : M bool := fun E c =>
  let b := stop_flag E c in (Ok b, [EvFlag b]).

(** [self._append_log(line)] *)
Definition _append_log (l : log_line) : M unit := fun E c => (Ok (), [EvLog l]).

(** [list(iter_files(t, patterns))] *)
Definition enumerate (t : Path) (patterns : list string) : M (list Path) := fun E c =>
  let files := iter_files (fs_at E c) t patterns in (Ok files, [EvEnumerate t files]).

(** [files.sort(key=...)] *)
Definition sort_files (files : list Path) : M (list Path) := fun E c =>
  let r := files_sort (fs_at E c) files in (r, [EvSort files r]).

(** [fpath.stat().st_size] *)
Definition stat_size (fpath : Path) : M Z := fun E c =>
  let r := st_size (fs_at E c) fpath in (r, [EvStat fpath r]).

(** [warm_file(fpath)], with the default [chunk_mb=16] *)
Definition call_warm_file (fpath : Path) : M Z := fun E c =>
  (warm_file (fs_at E c) fpath 16, [EvWarmFile fpath]).

(** ** The session worker *)

(** The local variables of [worker] that its loops update. *)
Record locals : Type := {
  warmed_total : Z;
  warmed : Z;
  progressed : Z
}.

Definition add_warmed (rb : Z) (st : locals) : locals :=
  {| warmed_total := warmed_total st + rb;
     warmed := warmed st + rb;
     progressed := progressed st |}.

Definition add_progressed (st : locals) : locals :=
  {| warmed_total := warmed_total st;
     warmed := warmed st;
     progressed := progressed st + 1 |}.

Definition reset_warmed (st : locals) : locals :=
  {| warmed_total := warmed_total st;
     warmed := 0;
     progressed := progressed st |}.

(** The function [worker] of [_warm_selected], for the [targets] selected in
    the window, [budget = int(limit_gb * 1024 * 1024 * 1024)] and
    [dry = self.dry_run_var.get()].  The statements that only touch the
    window (the progress bar, the buttons, [_maybe_launch]) are left out. *)
Section session.
Context (budget : Z) (dry : bool).

(** The [try] / [except] / [finally] statement around [warm_file]. *)
Definition try_warm (i : nat) (fpath : Path) (st : locals) : M locals :=
  st' ← try_except
    (rb ← call_warm_file fpath;
     let st1 := add_warmed rb st in
     _ ← _append_log (LWarmed i fpath rb (warmed_total st1));
     mret (add_progressed st1))
    (fun e =>
     _ ← _append_log (LError i fpath e);
     mret st);
  mret (add_progressed st').

(** [for i, fpath in enumerate(files, 1)], with [n = len(files)] *)
Fixpoint file_loop (i n : nat) (files : list Path) (st : locals) : M locals :=
  match files with
  | [] => mret st
  | fpath :: rest =>
    stop ← read_stop_flag;
    if stop : bool then mret st else
    size ← stat_size fpath;
    if dry then
      _ ← _append_log (LPlan i n fpath size);
      file_loop (S i) n rest st
    else if (budget <=? warmed_total st)%Z then
      _ ← _append_log LHitLimit;
      mret st
    else
      st' ← try_warm i fpath st;
      file_loop (S i) n rest st'
  end.

(** One pass of [for t in targets] that was not stopped. *)
Definition warm_target (t : Path) (st : locals) : M locals :=
  _ ← _append_log (LStart t);
  files ← enumerate t DEFAULT_PATTERNS;
  files ← sort_files files;
  st' ← file_loop 1 (length files) files (reset_warmed st);
  _ ← _append_log (LDone t (warmed st'));
  mret st'.

(** The second loop [for t in targets]. *)
Fixpoint target_loop (targets : list Path) (st : locals) : M locals :=
  match targets with
  | [] => mret st
  | t :: rest =>
    stop ← read_stop_flag;
    if stop : bool then mret st else
    st' ← warm_target t st;
    target_loop rest st'
  end.

(** The first loop of [worker], which only counts the files. *)
Fixpoint count_files (targets : list Path) (total_files : nat) : M nat :=
  match targets with
  | [] => mret total_files
  | t :: rest =>
    files ← enumerate t DEFAULT_PATTERNS;
    count_files rest (total_files + length files)
  end.

(** The body of the outer [try] of [worker], up to the summary line. *)
Definition worker (targets : list Path) : M unit :=
  total_files ← count_files targets 0;
  st ← target_loop targets {| warmed_total := 0; warmed := 0; progressed := 0 |};
  _append_log (LAllDone (warmed_total st)).
End session.

(** ** Reading a trace *)

(** The bytes added to [warmed_total] so far: the sum of the [rb] of the
    files whose warm completed. *)
Fixpoint bytes_warmed (tr : list event) : Z :=
  match tr with
  | [] => 0
  | EvLog (LWarmed _ _ rb _) :: tr' => rb + bytes_warmed tr'
  | _ :: tr' => bytes_warmed tr'
  end.


(** The files [warm_file] was called on, in order. *)
Fixpoint opened (tr : list event) : list Path :=
  match tr with
  | [] => []
  | EvWarmFile fpath :: tr' => fpath :: opened tr'
  | _ :: tr' => opened tr'
  end.

(** Whether an event ends the work on a file: it was warmed, its warm
    failed, or it was planned. *)
Definition completes (e : event) : bool :=
  match e with
  | EvLog (LWarmed _ _ _ _) | EvLog (LError _ _ _) | EvLog (LPlan _ _ _ _) => true
  | _ => false
  end.

Definition completed (tr : list event) : nat := length (filter completes tr).

(** The [(index, count, path, size)] of the "plan" lines, in order. *)
Fixpoint planned (tr : list event) : list (nat * nat * Path * Z) :=
  match tr with
  | [] => []
  | EvLog (LPlan i n fpath size) :: tr' => (i, n, fpath, size) :: planned tr'
  | _ :: tr' => planned tr'
  end.

(** The discipline of the budget, read off a trace that starts when
    [warmed_total = w]: [warm_file] is only called while [warmed_total] is
    below the budget, and a "warmed" line adds a count [rb >= 0] and shows the
    new value of [warmed_total]. *)
Fixpoint budget_kept (budget w : Z) (tr : list event) : Prop :=
  match tr with
  | [] => True
  | EvWarmFile _ :: tr' => (w < budget)%Z ∧ budget_kept budget w tr'
  | EvLog (LWarmed _ _ rb total) :: tr' =>
    (0 ≤ rb)%Z ∧ total = (w + rb)%Z ∧ budget_kept budget (w + rb) tr'
  | _ :: tr' => budget_kept budget w tr'
  end.

(** Either nothing was added to [warmed_total], or the last file that added
    to it was started while [warmed_total] was below the budget. *)
Definition last_started_below (budget w : Z) (tr : list event) : Prop :=
  bytes_warmed tr = 0%Z
  ∨ ∃ tr1 i fpath rb total tr2,
      tr = tr1 ++ EvWarmFile fpath :: EvLog (LWarmed i fpath rb total) :: tr2
      ∧ (w + bytes_warmed tr1 < budget)%Z
      ∧ bytes_warmed tr2 = 0%Z.

(** Events that neither call [warm_file] nor add to [warmed_total]. *)
Definition quiet (e : event) : Prop :=
  match e with
  | EvWarmFile _ | EvLog (LWarmed _ _ _ _) => False
  | _ => True
  end.

(** What a run that starts when [warmed_total = w] keeps: the discipline of
    the budget in its trace, and a final [warmed_total] that is [w] plus the
    bytes its trace added. *)
Definition tracks (budget w : Z) (run : result locals * list event) : Prop :=
  budget_kept budget w run.2
  ∧ last_started_below budget w run.2
  ∧ ∀ st', run.1 = Ok st' → warmed_total st' = (w + bytes_warmed run.2)%Z.




(** The events of a dry run: reads of the flag, enumerations, sorts, size
    queries, and the "Start", "plan", "Done" and "All done" lines. *)
Definition dry_event (e : event) : Prop :=
  match e with
  | EvFlag _ | EvEnumerate _ _ | EvSort _ _ | EvStat _ _ => True
  | EvLog (LStart _) | EvLog (LPlan _ _ _ _) | EvLog (LDone _ _)
  | EvLog (LAllDone _) => True
  | _ => False
  end.

(** The events of the file loop of a dry run. *)
Definition dry_loop_event (e : event) : Prop :=
  match e with
  | EvFlag _ | EvStat _ _ | EvLog (LPlan _ _ _ _) => True
  | _ => False
  end.


(** What a run that starts at time [c] keeps when the flag reads [True] from
    time [T] on: each call of [warm_file] is completed; none is made once the
    flag is set; and the calls are at most one more than the files completed
    before [T]. *)
Definition stop_respected (T c : nat) (evs : list event) : Prop :=
  length (opened evs) ≤ completed evs
  ∧ (T ≤ c → opened evs = [])
  ∧ length (opened evs) ≤ completed (take (T - c) evs) + 1.

(** The trace ends with the size query that raised [e]: the [stat] of the
    sort key or the [stat] at the head of the loop body. *)
Definition ends_in_failed_stat (e : exn) (evs : list event) : Prop :=
  ∃ tr, (∃ files, evs = tr ++ [EvSort files (Raise e)])
        ∨ ∃ fpath, evs = tr ++ [EvStat fpath (Raise e)].

(** ** Example file systems *)

Section examples.
Local Open Scope string_scope.

(** The flavour of POSIX paths: the parts are compared as they are, the
    anchor is the root, and [str] joins the parts with a slash. *)
Definition posix_str (p : Path) : string :=
  match p with
  | [] => "."
  | root :: parts =>
    if String.prefix "/" root then root ++ String.concat "/" parts
    else String.concat "/" p
  end.

Definition posix : Flavour := {|
  casefold := fun part => part;
  is_anchor := fun part => String.prefix "/" part;
  str := posix_str
|}.

(** The flavour of Windows paths, for names in ASCII: the parts are
    compared in lower case, the anchor is a drive, a root or both, and [str]
    joins the parts with a backslash. *)
Definition backslash : string := String "092"%char EmptyString.

Definition windows_anchor (part : string) : bool :=
  endswith part backslash || ((String.length part =? 2)%nat && endswith part ":").

Definition windows_str (p : Path) : string :=
  match p with
  | [] => "."
  | root :: parts =>
    if windows_anchor root then root ++ String.concat backslash parts
    else String.concat backslash p
  end.

Definition windows : Flavour := {|
  casefold := lower;
  is_anchor := windows_anchor;
  str := windows_str
|}.

(** An instance [r] with [logs/a.jar], [mods/b.jar] and the symbolic link
    [mods/a.jar] to [logs/a.jar]. *)
Definition alias_fs : FS := {|
  rglob := fun _ pattern =>
    if decide (pattern = "*.jar")
    then [ ["r"; "logs"; "a.jar"]; ["r"; "mods"; "a.jar"]; ["r"; "mods"; "b.jar"] ]
    else [];
  is_file := fun _ => Ok true;
  path_exists := fun _ => Ok true;
  resolve := fun p =>
    if decide (p = ["r"; "mods"; "a.jar"]) then Ok ["r"; "logs"; "a.jar"] else Ok p;
  st_size := fun _ => Ok 1%Z;
  open_rb := fun _ => Ok {| data := [Byte.x00]; fault := None; buffer_max := 2 ^ 40 |};
  iterdir := fun _ => Ok [];
  is_dir := fun _ => Ok false
|}.

(** One file whose [stat] reports 0 bytes while a read delivers 3, as for a
    file that grew after the [stat] call. *)
Definition grown_fs : FS := {|
  rglob := fun _ _ => [];
  is_file := fun _ => Ok true;
  path_exists := fun _ => Ok true;
  resolve := fun p => Ok p;
  st_size := fun _ => Ok 0%Z;
  open_rb := fun _ => Ok {| data := [Byte.x4a; Byte.x41; Byte.x52]; fault := None; buffer_max := 2 ^ 40 |};
  iterdir := fun _ => Ok [];
  is_dir := fun _ => Ok false
|}.

(** An instance [r] with [mods/A.jar] (3 bytes), [mods/big.JAR] (5 bytes),
    [config/b.toml] (2 bytes), [art/c.png] (7 bytes) and
    [logs/ignored.txt]; every file is as long as [stat] says. *)
Definition scenario_size (p : Path) : Z :=
  if decide (p = ["r"; "mods"; "A.jar"]) then 3
  else if decide (p = ["r"; "mods"; "big.JAR"]) then 5
  else if decide (p = ["r"; "config"; "b.toml"]) then 2
  else if decide (p = ["r"; "art"; "c.png"]) then 7
  else 4.

Definition scenario_fs : FS := {|
  rglob := fun _ pattern =>
    if decide (pattern = "*.jar") then [ ["r"; "mods"; "A.jar"]; ["r"; "mods"; "big.JAR"] ]
    else if decide (pattern = "*.toml") then [ ["r"; "config"; "b.toml"] ]
    else if decide (pattern = "*.png") then [ ["r"; "art"; "c.png"] ]
    else if decide (pattern = "*.txt") then [ ["r"; "logs"; "ignored.txt"] ]
    else [];
  is_file := fun _ => Ok true;
  path_exists := fun _ => Ok true;
  resolve := fun p => Ok p;
  st_size := fun p => Ok (scenario_size p);
  open_rb := fun p =>
    Ok {| data := replicate (Z.to_nat (scenario_size p)) Byte.x00; fault := None; buffer_max := 2 ^ 40 |};
  iterdir := fun _ => Ok [];
  is_dir := fun _ => Ok false
|}.

Definition scenario_files : list Path :=
  [ ["r"; "config"; "b.toml"]; ["r"; "art"; "c.png"];
    ["r"; "mods"; "A.jar"]; ["r"; "mods"; "big.JAR"] ].

(** A launcher root [root] with the instances [a] (it has [mods]) and [c]
    (it has [config]) and the plain folder [n]. *)
Definition launcher_fs : FS := {|
  rglob := fun _ _ => [];
  is_file := fun _ => Ok false;
  path_exists := fun p =>
    Ok (bool_decide (p = ["root"; "a"; "mods"] ∨ p = ["root"; "c"; "config"]));
  resolve := fun p => Ok p;
  st_size := fun _ => Ok 0%Z;
  open_rb := fun _ => Raise PermissionError;
  iterdir := fun p =>
    if decide (p = ["root"]) then Ok [ ["root"; "n"]; ["root"; "c"]; ["root"; "a"] ]
    else Raise FileNotFoundError;
  is_dir := fun _ => Ok true
|}.

(** The same root, where the instance [c] comes after a folder [b] that
    the user may not search: [stat] on [b/mods] is refused. *)
Definition denied_fs : FS := {|
  rglob := fun _ _ => [];
  is_file := fun _ => Ok false;
  path_exists := fun p =>
    if decide (take 2 p = ["root"; "b"]) then Raise PermissionError
    else Ok (bool_decide (p = ["root"; "a"; "mods"] ∨ p = ["root"; "c"; "config"]));
  resolve := fun p => Ok p;
  st_size := fun _ => Ok 0%Z;
  open_rb := fun _ => Raise PermissionError;
  iterdir := fun p =>
    if decide (p = ["root"]) then Ok [ ["root"; "c"]; ["root"; "b"]; ["root"; "a"] ]
    else Raise FileNotFoundError;
  is_dir := fun _ => Ok true
|}.

(** A launcher root with the instances [Beta] and [alpha]. *)
Definition mixed_case_fs : FS := {|
  rglob := fun _ _ => [];
  is_file := fun _ => Ok false;
  path_exists := fun p =>
    Ok (bool_decide (p = ["root"; "Beta"; "mods"] ∨ p = ["root"; "alpha"; "mods"]));
  resolve := fun p => Ok p;
  st_size := fun _ => Ok 0%Z;
  open_rb := fun _ => Raise PermissionError;
  iterdir := fun p =>
    if decide (p = ["root"]) then Ok [ ["root"; "Beta"]; ["root"; "alpha"] ]
    else Raise FileNotFoundError;
  is_dir := fun _ => Ok true
|}.

(** The instance of [scenario_fs], unchanged during the session, and a user
    who never presses Stop. *)
Definition scenario_env : Env := {|
  stop_flag := fun _ => false;
  fs_at := fun _ => scenario_fs
|}.

(** The same instance, and a user who presses Stop when the worker has
    performed eight events: in a dry run the first file has just been
    planned, otherwise the first file is being read. *)
Definition stopped_env : Env := {|
  stop_flag := fun c => bool_decide (8 ≤ c)%nat;
  fs_at := fun _ => scenario_fs
|}.

(** [scenario_fs] once [mods/big.JAR] has been deleted. *)
Definition vanished_fs : FS := {|
  rglob := fun _ pattern =>
    if decide (pattern = "*.jar") then [ ["r"; "mods"; "A.jar"] ]
    else rglob scenario_fs ["r"] pattern;
  is_file := fun p => Ok (bool_decide (p ≠ ["r"; "mods"; "big.JAR"]));
  path_exists := fun p => Ok (bool_decide (p ≠ ["r"; "mods"; "big.JAR"]));
  resolve := fun p => Ok p;
  st_size := fun p =>
    if decide (p = ["r"; "mods"; "big.JAR"]) then Raise FileNotFoundError
    else st_size scenario_fs p;
  open_rb := fun p =>
    if decide (p = ["r"; "mods"; "big.JAR"]) then Raise FileNotFoundError
    else open_rb scenario_fs p;
  iterdir := fun _ => Ok [];
  is_dir := fun _ => Ok false
|}.

(** Another process deletes [mods/big.JAR] when the worker has performed six
    events: it has enumerated and ranked the files of [r] and entered the
    file loop. *)
Definition vanishing_env : Env := {|
  stop_flag := fun _ => false;
  fs_at := fun c => if bool_decide (c < 6)%nat then scenario_fs else vanished_fs
|}.

End examples.

(** ** Further readers of a trace *)

(** The sum of the totals that the "Done" lines show. *)
Fixpoint done_sum (tr : list event) : Z :=
  match tr with
  | [] => 0
  | EvLog (LDone _ w) :: tr' => w + done_sum tr'
  | _ :: tr' => done_sum tr'
  end.

(** The number of "warmed" lines and of "error" lines. *)
Fixpoint warmed_lines (tr : list event) : Z :=
  match tr with
  | [] => 0
  | EvLog (LWarmed _ _ _ _) :: tr' => 1 + warmed_lines tr'
  | _ :: tr' => warmed_lines tr'
  end.

Fixpoint error_lines (tr : list event) : Z :=
  match tr with
  | [] => 0
  | EvLog (LError _ _ _) :: tr' => 1 + error_lines tr'
  | _ :: tr' => error_lines tr'
  end.

(** The number of calls of [iter_files] and of "Start" lines. *)
Fixpoint enumerations (tr : list event) : nat :=
  match tr with
  | [] => 0
  | EvEnumerate _ _ :: tr' => S (enumerations tr')
  | _ :: tr' => enumerations tr'
  end.

Fixpoint started (tr : list event) : nat :=
  match tr with
  | [] => 0
  | EvLog (LStart _) :: tr' => S (started tr')
  | _ :: tr' => started tr'
  end.

(** A size query that raised, and the summary line. *)
Definition failed_stat (e : event) : Prop :=
  match e with
  | EvSort _ (Raise _) | EvStat _ (Raise _) => True
  | _ => False
  end.

Definition is_summary (e : event) : Prop :=
  match e with
  | EvLog (LAllDone _) => True
  | _ => False
  end.

(** The limit line is only logged once the total has reached the budget,
    read off a trace that starts when [warmed_total = w]. *)
Fixpoint limit_reached (budget w : Z) (tr : list event) : Prop :=
  match tr with
  | [] => True
  | EvLog LHitLimit :: tr' => (budget ≤ w)%Z ∧ limit_reached budget w tr'
  | EvLog (LWarmed _ _ rb _) :: tr' => limit_reached budget (w + rb) tr'
  | _ :: tr' => limit_reached budget w tr'
  end.

(** The index and the path of the "warmed", "error" and "plan" lines, in
    order. *)
Fixpoint indexed_lines (tr : list event) : list (nat * Path) :=
  match tr with
  | [] => []
  | EvLog (LWarmed i fpath _ _) :: tr' => (i, fpath) :: indexed_lines tr'
  | EvLog (LError i fpath _) :: tr' => (i, fpath) :: indexed_lines tr'
  | EvLog (LPlan i _ fpath _) :: tr' => (i, fpath) :: indexed_lines tr'
  | _ :: tr' => indexed_lines tr'
  end.

(** The events of the file loop. *)
Definition loop_event (e : event) : Prop :=
  match e with
  | EvFlag _ | EvStat _ _ | EvWarmFile _ => True
  | EvLog (LPlan _ _ _ _) | EvLog LHitLimit
  | EvLog (LWarmed _ _ _ _) | EvLog (LError _ _ _) => True
  | _ => False
  end.

(** The event of a size query that raised [e]. *)
Definition failed_with (e : exn) (ev : event) : Prop :=
  (∃ files, ev = EvSort files (Raise e)) ∨ (∃ fpath, ev = EvStat fpath (Raise e)).

(** A run that returns had no failed size query; a run that raises [e] ends
    with the first failed size query, which raised [e]. *)
Definition stops_at_failed_stat {A} (run : result A * list event) : Prop :=
  match run.1 with
  | Ok _ => Forall (fun ev => ¬ failed_stat ev) run.2
  | Raise e =>
    ∃ tr ev, run.2 = tr ++ [ev]
             ∧ Forall (fun ev' => ¬ failed_stat ev') tr ∧ failed_with e ev
  end.




(** ** Further example file systems *)

Section more_examples.
Local Open Scope string_scope.

(** A file of three bytes on a medium that fails at the second byte. *)
Definition faulty_fs : FS := {|
  rglob := fun _ pattern => if decide (pattern = "*.zip") then [ ["r"; "w.zip"] ] else [];
  is_file := fun _ => Ok true;
  path_exists := fun _ => Ok true;
  resolve := fun p => Ok p;
  st_size := fun _ => Ok 3%Z;
  open_rb := fun _ =>
    Ok {| data := [Byte.x50; Byte.x4b; Byte.x03]; fault := Some 1%nat; buffer_max := 2 ^ 40 |};
  iterdir := fun _ => Ok [];
  is_dir := fun _ => Ok false
|}.

Definition faulty_env : Env := {|
  stop_flag := fun _ => false;
  fs_at := fun _ => faulty_fs
|}.

End more_examples.

(** ** The discovery of the roots *)

(** What [probable_instance_dirs] asks of the host: [sys.platform],
    [Path.home()], for a variable [k] that is set the path
    [Path(os.environ[k])], and [Path.expanduser], which raises when the home
    of a user cannot be determined. *)
Record Host : Type := {
  platform : string;
  home : Path;
  environ : string → option Path;
  expanduser : Path → result Path
}.

(** [Path(os.environ.get(k, str(fallback)))] *)
Definition environ_get (h : Host) (k : string) (fallback : Path) : Path :=
  default fallback (environ h k).

(** [s.startswith(prefix)] *)
Definition startswith (s prefix : string) : bool := String.prefix prefix s.

Section discovery.
Local Open Scope string_scope.

(** The paths that the platform branches add to the set [candidates], in
    the order of the calls of [add]; [p / a / b] is [p ++ [a; b]] on the parts. *)
Definition candidates (h : Host) : list Path :=
  if startswith (platform h) "win" then
    let userprofile := environ_get h "USERPROFILE" (home h) in
    let appdata := environ_get h "APPDATA" (home h ++ ["AppData"; "Roaming"])%list in
    [ userprofile ++ ["Documents"; "CurseForge"; "Minecraft"; "Instances"];
      userprofile ++ ["CurseForge"; "Minecraft"; "Instances"];
      userprofile ++ ["Twitch"; "Minecraft"; "Instances"];
      appdata ++ ["PrismLauncher"; "instances"];
      appdata ++ ["MultiMC"; "instances"];
      appdata ++ [".minecraft"] ]%list
  else if String.eqb (platform h) "darwin" then
    let lib := (home h ++ ["Library"; "Application Support"])%list in
    [ lib ++ ["CurseForge"; "Minecraft"; "Instances"];
      lib ++ ["minecraft"];
      lib ++ ["PrismLauncher"; "instances"];
      lib ++ ["MultiMC"; "instances"];
      home h ++ ["Documents"; "CurseForge"; "Minecraft"; "Instances"] ]%list
  else
    let home_cfg := (home h ++ [".local"; "share"])%list in
    [ home h ++ [".minecraft"];
      home_cfg ++ ["PrismLauncher"; "instances"];
      home_cfg ++ ["MultiMC"; "instances"];
      home h ++ ["PrismLauncher"; "instances"];
      home h ++ ["MultiMC"; "instances"] ]%list.
End discovery.

(** The parts of a path with the letters in lower case: Windows paths are
    compared without regard to case. *)
Definition fold_case (p : Path) : Path := lower <$> p.

(** The body of the [try] of the first loop: [c = c.expanduser()] and
    [c.exists() and c.is_dir()]; the path to append, if any. *)
Definition existing_dir (h : Host) (fs : FS) (c : Path) : result (option Path) :=
  c' ← expanduser h c;
  e ← path_exists fs c';
  if e : bool then
    d ← is_dir fs c';
    mret (if d : bool then Some c' else None)
  else mret None.

(** The first loop, [for c in candidates], over the elements of the set in
    the order [cs] in which the set hands them out; [except Exception:
    continue] skips a candidate whose tests raise. *)
Fixpoint expand_loop (h : Host) (fs : FS) (cs : list Path) : list Path :=
  match cs with
  | [] => []
  | c :: rest =>
    match existing_dir h fs c with
    | Ok (Some c') => c' :: expand_loop h fs rest
    | Ok None | Raise _ => expand_loop h fs rest
    end
  end.

(** The second loop, [for p in out], which is not inside a [try]. *)
Fixpoint uniq_loop (fs : FS) (out : list Path) (seen : gset Path) : result (list Path) :=
  match out with
  | [] => mret []
  | p :: rest =>
    rp ← resolve fs p;
    if bool_decide (rp ∈ seen) then uniq_loop fs rest seen
    else
      uniq ← uniq_loop fs rest ({[rp]} ∪ seen);
      mret (rp :: uniq)
  end.

(** [probable_instance_dirs()], for the order [cs] in which the set
    [candidates] is iterated. *)
Definition probable_instance_dirs (h : Host) (fs : FS) (cs : list Path)
    : result (list Path) :=
  uniq_loop fs (expand_loop h fs cs) ∅.

(** [c] passes the tests of the first loop as [c']. *)
Definition passes (h : Host) (fs : FS) (c c' : Path) : Prop :=
  expanduser h c = Ok c' ∧ path_exists fs c' = Ok true ∧ is_dir fs c' = Ok true.

Section discovery_examples.
Local Open Scope string_scope.

(** A Linux host whose home holds [.minecraft] and the Prism folder
    [.local/share/PrismLauncher/instances]; [~/PrismLauncher] is a symbolic
    link to [.local/share/PrismLauncher], and [~/MultiMC] may not be
    searched. *)
Definition linux_host : Host := {|
  platform := "linux";
  home := ["/"; "home"; "u"];
  environ := fun _ => None;
  expanduser := fun p => Ok p
|}.

Definition linux_fs : FS := {|
  rglob := fun _ _ => [];
  is_file := fun _ => Ok false;
  path_exists := fun p =>
    if decide (take 4 p = ["/"; "home"; "u"; "MultiMC"]) then Raise PermissionError
    else Ok (bool_decide (p = ["/"; "home"; "u"; ".minecraft"]
                          ∨ p = ["/"; "home"; "u"; ".local"; "share"; "PrismLauncher"; "instances"]
                          ∨ p = ["/"; "home"; "u"; "PrismLauncher"; "instances"]));
  resolve := fun p =>
    if decide (p = ["/"; "home"; "u"; "PrismLauncher"; "instances"])
    then Ok ["/"; "home"; "u"; ".local"; "share"; "PrismLauncher"; "instances"]
    else Ok p;
  st_size := fun _ => Ok 0%Z;
  open_rb := fun _ => Raise PermissionError;
  iterdir := fun _ => Ok [];
  is_dir := fun _ => Ok true
|}.
End discovery_examples.

(** ** The list of instances in the window *)

(** The part of the window that [_refresh_instances] fills and that
    [_warm_selected] and [_reveal_selected] read: the rows of the list box
    [instances_list] and the dict [_instance_map].  The attribute does not
    exist before the first complete refresh; it is modelled by the empty
    dict, for which every lookup raises as well. *)
Record window : Type := {
  instances_list : list string;
  _instance_map : gmap nat Path
}.

(** The line [_refresh_instances] logs. *)
Inductive refresh_line : Type :=
| LFound (n : nat) (root : Path).

Section window.
Context (fl : Flavour).

(** The text of the row of [c]: its name, and for a folder called
    [.minecraft] or [minecraft], in any case, the name, two spaces and the
    path.  Nothing in the body of this [try] raises for a path. *)
Definition row_name (c : Path) : string :=
  let n := name_of fl c in
  if bool_decide (lower n ∈ [".minecraft"; "minecraft"]%string)
  then (n ++ "  " ++ str fl c)%string
  else n.

(** The list [candidates] of [_refresh_instances]: the root when it looks
    like an instance, then the instances [list_instances] finds.  The test on
    the root is not inside a [try]. *)
Definition shown_candidates (fs : FS) (root : Path) : result (list Path) :=
  has ← any_exists fs root MARKERS;
  mret ((if has : bool then [root] else []) ++ list_instances fl fs root).

(** [for i, (name, path) in enumerate(names)], from the index [i] on *)
Fixpoint fill_loop (i : nat) (names : list (string * Path)) (w : window) : window :=
  match names with
  | [] => w
  | (n, path) :: rest =>
    fill_loop (S i) rest
      {| instances_list := instances_list w ++ [n];
         _instance_map := <[i := path]> (_instance_map w) |}
  end.

(** [_refresh_instances()], where [sel] is [None] when the text of the
    combo box is empty and [Some (Path(sel))] otherwise.  The list box is
    emptied first; the dict is replaced only after the candidates are
    computed.  The window and the outcome are returned. *)
Definition _refresh_instances (fs : FS) (sel : option Path) (w : window)
    : window * result (list refresh_line) :=
  let w0 := {| instances_list := []; _instance_map := _instance_map w |} in
  match sel with
  | None => (w0, Ok [])
  | Some root =>
    match shown_candidates fs root with
    | Raise e => (w0, Raise e)
    | Ok candidates =>
      let names := (fun c => (row_name c, c)) <$> candidates in
      (fill_loop 0 names {| instances_list := []; _instance_map := ∅ |},
       Ok [LFound (length names) root])
    end
  end.
End window.

(** [targets = [self._instance_map[i] for i in sel_indices]] of
    [_warm_selected]; [None] when a lookup raises [KeyError]. *)
Definition selected_targets (w : window) (sel_indices : list nat) : option (list Path) :=
  mapM (fun i => _instance_map w !! i) sel_indices.

(** ** The launch after a session *)

(** [s[n:]] *)
Fixpoint string_drop (n : nat) (s : string) : string :=
  match n, s with
  | O, _ => s
  | S _, EmptyString => EmptyString
  | S n', String _ s' => string_drop n' s'
  end.

(** [s.replace("{instance}", new)]: the occurrences of the placeholder are
    replaced from left to right, and the search goes on behind a replaced
    occurrence.  The placeholder is ASCII, so the bytes of a UTF-8 string are
    as good as its characters. *)
Equations? replace_instance (new s : string) : string by wf (String.length s) lt :=
  replace_instance new EmptyString := EmptyString;
  replace_instance new (String ch s')
    with inspect (String.prefix "{instance}" (String ch s')) => {
    | exist _ true _ =>
      (new ++ replace_instance new (string_drop 10 (String ch s')))%string
    | exist _ false _ => String ch (replace_instance new s')
  }.
Proof.
  - clear. assert (H : ∀ n s, String.length (string_drop n s) ≤ String.length s).
    { induction n as [|n IH]; intros [|c s]; simpl; try lia.
      specialize (IH s). lia. }
    change (string_drop 10 (String ch s')) with (string_drop 9 s').
    specialize (H 9 s'). cbn [String.length]. lia.
  - cbn [String.length]. lia.
Qed.

(** The lines [_maybe_launch] logs, and its events: a log line, or the call
    [subprocess.Popen(cmd, shell=True)] with the creation flag it passes on
    Windows and the outcome of the call. *)
Inductive launch_line : Type :=
| LNoTemplate
| LLaunching (cmd : string)
| LLaunchFailed (e : exn).

Inductive launch_event : Type :=
| EvLaunchLog (l : launch_line)
| EvPopen (cmd : string) (no_window : bool) (r : result unit).

(** What [_maybe_launch] reads: the check box [launch_after_var], the text
    [self.launch_cmd_var.get().strip()], [sys.platform], and the answer of
    [subprocess.Popen] to a command. *)
Record Launcher : Type := {
  launch_after : bool;
  cmd_tpl : string;
  launch_platform : string;
  popen : string → result unit
}.

(** The end of [_maybe_launch] for the command [cmd]: the line that shows
    the command, then [Popen], whose exception is logged and not raised. *)
Definition launch_events (l : Launcher) (cmd : string) : list launch_event :=
  let r := popen l cmd in
  [EvLaunchLog (LLaunching cmd);
   EvPopen cmd (startswith (launch_platform l) "win") r]
  ++ match r with
     | Ok _ => []
     | Raise e => [EvLaunchLog (LLaunchFailed e)]
     end.

(** [_maybe_launch(instance_paths)]; [None] when [instance_paths[0]] raises
    [IndexError], which happens before anything is logged. *)
Definition _maybe_launch (fl : Flavour) (l : Launcher) (instance_paths : list Path)
    : option (list launch_event) :=
  if negb (launch_after l) then Some []
  else if String.eqb (cmd_tpl l) EmptyString then Some [EvLaunchLog LNoTemplate]
  else
    instance_name ←
      (if bool_decide (length instance_paths = 1)
       then name_of fl <$> head instance_paths
       else name_of fl <$> head instance_paths);
    let cmd := replace_instance instance_name (cmd_tpl l) in
    Some (launch_events l cmd).

(** The double quote. *)
Definition dquote : string := String "034"%char EmptyString.

(** The template [_detect_prism] sets for the executable [exe]:
    [f'"{exe}" --launch "{{instance}}"']. *)
Definition prism_template (exe : string) : string :=
  (dquote ++ exe ++ dquote ++ " --launch " ++ dquote ++ "{instance}" ++ dquote)%string.

(** The command that launches the instance called [instance_name] with the
    executable [exe]. *)
Definition prism_command (exe instance_name : string) : string :=
  (dquote ++ exe ++ dquote ++ " --launch " ++ dquote ++ instance_name ++ dquote)%string.

(** ** The worker thread *)

(** The events of the thread of [_warm_selected]: those of the session,
    the progress bar set to its maximum, those of [_maybe_launch], and the
    two buttons put back by the [finally] clause. *)
Inductive thread_event : Type :=
| ThSession (e : event)
| ThProgressFull
| ThLaunch (e : launch_event)
| ThButtons.

(** The exception the thread dies of: one of the session, or the
    [IndexError] of [_maybe_launch]. *)
Inductive thread_exn : Type :=
| SessionError (e : exn)
| IndexError.

(** The function [worker] with its outer [try] / [finally]: the session,
    then the progress bar and [_maybe_launch(targets)], and in every case the
    buttons. *)
Definition worker_thread (budget : Z) (dry : bool) (fl : Flavour) (l : Launcher)
    (targets : list Path) (E : Env) (c : nat) : option thread_exn * list thread_event :=
  match worker budget dry targets E c with
  | (Raise e, evs) => (Some (SessionError e), (ThSession <$> evs) ++ [ThButtons])
  | (Ok _, evs) =>
    match _maybe_launch fl l targets with
    | None => (Some IndexError, (ThSession <$> evs) ++ [ThProgressFull; ThButtons])
    | Some levs =>
      (None, (ThSession <$> evs) ++ [ThProgressFull] ++ (ThLaunch <$> levs) ++ [ThButtons])
    end
  end.



Section launch_examples.
Local Open Scope string_scope.

(** The check box is set and the template is the one of [_detect_prism]
    for [/usr/bin/prismlauncher]; the launcher starts. *)
Definition prism_launcher : Launcher := {|
  launch_after := true;
  cmd_tpl := prism_template "/usr/bin/prismlauncher";
  launch_platform := "linux";
  popen := fun _ => Ok ()
|}.
End launch_examples.

(** ** The size shown in the log *)

Definition UNITS : list string := [ "B"; "KB"; "MB"; "GB"; "TB"; "PB" ]%string.

(** The loop of [human] for an integer [n0].  After [i] divisions by
    [1024.0] the variable [n] holds the fraction [n0 / 1024 ^ i], which a
    float holds exactly when [n0] is below [2 ^ 53] in size; the test
    [n >= 1024] is then [1024 * 1024 ^ i <= n0].  The result is the final
    [i]. *)
Equations? human_loop (n0 : Z) (i : nat) : nat by wf (length UNITS - 1 - i) lt :=
  human_loop n0 i
    with inspect ((1024 * 1024 ^ Z.of_nat i <=? n0)%Z && (i <? length UNITS - 1)) => {
    | exist _ true _ => human_loop n0 (S i)
    | exist _ false _ => i
  }.
Proof.
  apply andb_prop in e as [_ Hi]. apply Nat.ltb_lt in Hi. simpl in *. lia.
Qed.

(** The fraction [a / b], for [0 <= a] and [0 < b], rounded to the nearest
    integer, and to the even one of two that are equally near. *)
Definition round_half_even (a b : Z) : Z :=
  let q := (a / b)%Z in
  let r := (a mod b)%Z in
  if (2 * r <? b)%Z then q
  else if (b <? 2 * r)%Z then (q + 1)%Z
  else if Z.even q then q else (q + 1)%Z.

(** The decimal digits of a natural number. *)
Definition decimal (z : Z) : string := NilZero.string_of_uint (N.to_uint (Z.to_N z)).

(** [f"{n:.1f}"] for the fraction [n = a / b] with [0 < b]: the sign, the
    digits of the integer part, the point and one digit, from the number of
    tenths nearest to [n]. *)
Definition format_1f (a b : Z) : string :=
  let tenths := round_half_even (10 * Z.abs a) b in
  ((if (a <? 0)%Z then "-" else EmptyString)
   ++ decimal (tenths / 10) ++ "." ++ decimal (tenths mod 10))%string.

(** [human(n)] for an integer [n] *)
Definition human (n : Z) : string :=
  let i := human_loop n 0 in
  (format_1f n (1024 ^ Z.of_nat i) ++ " " ++ nth i UNITS EmptyString)%string.

(** * Properties *)
(** ** The file enumerator *)

Section enumerator.
Context (fs : FS).

Lemma try_body_yield seen p key :
  try_body fs seen p = Ok (Yield key) →
  registers fs p key ∧ (key ∉ seen) ∧ has_skip_part p = false.
Proof.
  unfold try_body, registers.
  destruct (is_file fs p) as [[|]|] eqn:Hf; simpl; try discriminate.
  destruct (key_of fs p) as [k|] eqn:Hk; simpl; try discriminate.
  case_bool_decide; try discriminate.
  destruct (has_skip_part p); intros [= <-]; auto.
Qed.

(** A match that registers [k] leaves [k] in [seen], whatever becomes of it. *)
Lemma try_body_registers seen p k :
  registers fs p k →
  (k ∈ seen ∧ try_body fs seen p = Ok Continue)
  ∨ ((k ∉ seen) ∧ try_body fs seen p = Ok (if has_skip_part p then Seen k else Yield k)).
Proof.
  intros [Hf Hk]. unfold try_body. rewrite Hf; simpl. rewrite Hk; simpl.
  case_bool_decide; [left|right]; split; auto.
  destruct (has_skip_part p); reflexivity.
Qed.

(** The invariant of the inner loop. *)
Lemma iter_matches_inv ms seen out seen' :
  iter_matches fs ms seen = (out, seen') →
  seen ⊆ seen'
  ∧ Forall (fun p => has_skip_part p = false
                     ∧ ∃ k, registers fs p k ∧ (k ∉ seen) ∧ (k ∈ seen')) out
  ∧ NoDup (key_of fs <$> out).
Proof.
  revert seen out seen'.
  induction ms as [|p ms IH]; intros seen out seen' H; simpl in H.
  { simplify_eq. split; [done|]. split; constructor. }
  destruct (try_body fs seen p) as [[|key|key]|e] eqn:Hb.
  - by apply IH.
  - apply IH in H as (Hsub & Hall & Hnd).
    split; [set_solver|]. split; [|done].
    eapply Forall_impl; [exact Hall|].
    intros q (Hs & k & Hr & Hk & Hk'). split; [done|]. exists k. set_solver.
  - destruct (iter_matches fs ms ({[key]} ∪ seen)) as [out1 seen1] eqn:Hrec.
    simplify_eq. apply IH in Hrec as (Hsub & Hall & Hnd).
    apply try_body_yield in Hb as (Hr & Hk & Hs).
    split; [set_solver|]. split.
    + constructor.
      * split; [done|]. exists key. set_solver.
      * eapply Forall_impl; [exact Hall|].
        intros q (Hs' & k & Hr' & Hk1 & Hk'). split; [done|]. exists k. set_solver.
    + rewrite fmap_cons. constructor; [|done].
      intros Hin. apply list_elem_of_fmap in Hin as (q & Hq & Hin).
      rewrite Forall_forall in Hall.
      destruct (Hall q Hin) as (_ & k & [_ Hr'] & Hk1 & _).
      destruct Hr as [_ Hr]. rewrite Hr in Hq. rewrite Hr' in Hq.
      simplify_eq. set_solver.
  - by apply IH.
Qed.

Lemma iter_matches_app ms1 ms2 seen :
  iter_matches fs (ms1 ++ ms2) seen =
  let '(out1, seen1) := iter_matches fs ms1 seen in
  let '(out2, seen2) := iter_matches fs ms2 seen1 in
  (out1 ++ out2, seen2).
Proof.
  revert seen. induction ms1 as [|p ms1 IH]; intros seen; simpl.
  { by destruct (iter_matches fs ms2 seen). }
  destruct (try_body fs seen p) as [[|key|key]|e]; try apply IH.
  rewrite IH.
  destruct (iter_matches fs ms1 ({[key]} ∪ seen)) as [out1 seen1].
  by destruct (iter_matches fs ms2 seen1).
Qed.

(** The two nested loops are one loop over all matches. *)
Lemma iter_patterns_flat root patterns seen :
  iter_patterns fs root patterns seen =
  iter_matches fs (all_matches fs root patterns) seen.
Proof.
  revert seen. induction patterns as [|pat rest IH]; intros seen; [done|].
  unfold all_matches in *. simpl. rewrite iter_matches_app.
  destruct (iter_matches fs (rglob fs root pat) seen) as [out1 seen1].
  by rewrite IH.
Qed.
End enumerator.

Lemma has_skip_part_false p :
  has_skip_part p = false ↔ ∀ part, part ∈ p → part ∉ SKIP_DIRNAMES.
Proof.
  unfold has_skip_part. induction p as [|a p IH]; simpl.
  { split; [|done]. intros _ part Hin. inversion Hin. }
  rewrite orb_false_iff, IH, bool_decide_eq_false. split.
  - intros [Ha Hp] part Hin. apply elem_of_cons in Hin as [->|Hin]; auto.
  - intros H. split; [apply H; left|intros part Hin; apply H; by right].
Qed.

(** C3: [iter_files] yields no path with a segment in [SKIP_DIRNAMES], every
    path it yields has an identity [p.resolve() if p.exists() else p] (the
    resolved path whenever the path exists), and no two of the paths yielded
    in one call have the same identity. *)
Theorem iter_files_skips_and_deduplicates (fs : FS) (root : Path) (patterns : list string) :
  (∀ p part, p ∈ iter_files fs root patterns → part ∈ p → part ∉ SKIP_DIRNAMES)
  ∧ (∀ p, p ∈ iter_files fs root patterns →
       ∃ k, key_of fs p = Ok k ∧ (path_exists fs p = Ok true → resolve fs p = Ok k))
  ∧ NoDup (key_of fs <$> iter_files fs root patterns)
  ∧ (∀ i j p q, iter_files fs root patterns !! i = Some p →
       iter_files fs root patterns !! j = Some q →
       key_of fs p = key_of fs q → i = j).
Proof.
  unfold iter_files.
  destruct (iter_patterns fs root patterns ∅) as [out seen'] eqn:H; simpl.
  rewrite iter_patterns_flat in H.
  apply iter_matches_inv in H as (_ & Hall & Hnd).
  rewrite Forall_forall in Hall.
  split; [|split; [|split]].
  - intros p part Hp. destruct (Hall p Hp) as [Hs _].
    by apply has_skip_part_false.
  - intros p Hp. destruct (Hall p Hp) as (_ & k & [_ Hk] & _).
    exists k. split; [done|]. intros Hex. unfold key_of in Hk.
    by rewrite Hex in Hk.
  - done.
  - intros i j p q Hi Hj Heq.
    eapply NoDup_lookup; [exact Hnd| |].
    + rewrite list_lookup_fmap, Hi. reflexivity.
    + rewrite list_lookup_fmap, Hj. simpl. by rewrite Heq.
Qed.

Lemma iter_matches_yields_matches fs ms seen :
  (iter_matches fs ms seen).1 ⊆ ms.
Proof.
  revert seen. induction ms as [|p ms IH]; intros seen; simpl; [done|].
  destruct (try_body fs seen p) as [[|key|key]|e].
  1,2,4: by (etrans; [apply IH|set_solver]).
  specialize (IH ({[key]} ∪ seen)).
  destruct (iter_matches fs ms ({[key]} ∪ seen)) as [out seen']. simpl in *.
  set_solver.
Qed.

(** C10: the identity of a match enters [seen] before the skip-directory
    test.  So when the first match that registers the identity [k] lies
    under a skip directory, no path with identity [k] is yielded in that
    call, whichever pattern matches it later. *)
Theorem iter_files_alias_of_skipped_suppressed
    (fs : FS) (root : Path) (patterns : list string)
    (pre post : list Path) (m k : Path) :
  all_matches fs root patterns = pre ++ m :: post →
  registers fs m k →
  Forall (fun m' => ¬ registers fs m' k) pre →
  has_skip_part m = true →
  Forall (fun p => key_of fs p ≠ Ok k) (iter_files fs root patterns).
Proof.
  intros Hms Hm Hpre Hskip. unfold iter_files.
  rewrite iter_patterns_flat, Hms, iter_matches_app.
  pose proof (iter_matches_yields_matches fs pre ∅) as Hsub.
  destruct (iter_matches fs pre ∅) as [out1 seen1] eqn:H1. simpl in Hsub.
  assert (Hadd : ∃ seen2, k ∈ seen2 ∧
            iter_matches fs (m :: post) seen1 = iter_matches fs post seen2).
  { simpl. destruct (try_body_registers fs seen1 m k Hm) as [[Hin ->]|[Hin ->]].
    - by exists seen1.
    - rewrite Hskip. exists ({[k]} ∪ seen1). split; [set_solver|done]. }
  destruct Hadd as (seen2 & Hk & ->).
  destruct (iter_matches fs post seen2) as [out2 seen3] eqn:H2. simpl.
  apply iter_matches_inv in H1 as (_ & Hall1 & _).
  apply iter_matches_inv in H2 as (_ & Hall2 & _).
  apply Forall_app. split.
  - rewrite Forall_forall in Hall1, Hpre |- *. intros p Hp Hkey.
    destruct (Hall1 p Hp) as (_ & k' & Hr & _).
    assert (k' = k) as -> by (destruct Hr as [_ Hr]; congruence).
    exact (Hpre p (Hsub p Hp) Hr).
  - rewrite Forall_forall in Hall2 |- *. intros p Hp Hkey.
    destruct (Hall2 p Hp) as (_ & k' & [_ Hr] & Hnot & _).
    assert (k' = k) as -> by congruence. done.
Qed.

Example iter_files_alias_fs :
  iter_files alias_fs ["r"%string] DEFAULT_PATTERNS = [ ["r"; "mods"; "b.jar"] ]%string.
Proof. vm_compute. reflexivity. Qed.

Lemma iter_files_skips_and_deduplicates_witness : "mods"%string ∉ SKIP_DIRNAMES.
Proof.
  apply (proj1 (iter_files_skips_and_deduplicates alias_fs ["r"%string] DEFAULT_PATTERNS)
           ["r"; "mods"; "b.jar"]%string).
  - apply list_elem_of_In. vm_compute. tauto.
  - apply list_elem_of_In. vm_compute. tauto.
Defined.

Lemma iter_files_alias_of_skipped_suppressed_witness :
  Forall (fun p => key_of alias_fs p ≠ Ok ["r"; "logs"; "a.jar"]%string)
         (iter_files alias_fs ["r"%string] DEFAULT_PATTERNS).
Proof.
  apply (iter_files_alias_of_skipped_suppressed alias_fs ["r"%string] DEFAULT_PATTERNS
           [] [ ["r"; "mods"; "a.jar"]; ["r"; "mods"; "b.jar"] ]%string
           ["r"; "logs"; "a.jar"]%string ["r"; "logs"; "a.jar"]%string).
  - reflexivity.
  - split; reflexivity.
  - constructor.
  - reflexivity.
Defined.

(** ** The reader *)

Lemma chunk_size_pos chunk_mb chunk : chunk_size chunk_mb = Ok chunk → (1 ≤ chunk)%Z.
Proof.
  unfold chunk_size. destruct (scaled_int chunk_mb) as [n|e]; simpl; [|done].
  intros [= <-]. lia.
Qed.

Lemma chunk_size_int (z : Z) : chunk_size z = Ok (Z.max 1 (z * 1024 * 1024)).
Proof. reflexivity. Qed.

(** A request that fits raises nothing before the read. *)
Lemma read_fits f pos size :
  (size ≤ PY_SSIZE_T_MAX)%Z → (size ≤ buffer_max f)%Z →
  read f pos size =
  let avail := drop pos (data f) in
  let got := if (size <? 0)%Z then avail else take (Z.to_nat size) avail in
  match fault f with
  | Some k =>
    if bool_decide (pos ≤ k < pos + length got) then Raise (OSError 5) else Ok got
  | None => Ok got
  end.
Proof.
  intros Hmax Hbuf. unfold read.
  destruct (Z.ltb_spec PY_SSIZE_T_MAX size); [lia|].
  destruct (Z.ltb_spec (buffer_max f) size); [lia|]. done.
Qed.

(** A positive request that fits, on a file without faulty byte, delivers
    bytes as long as some are left. *)
Lemma read_ok f pos size :
  (1 ≤ size ≤ PY_SSIZE_T_MAX)%Z →
  (size ≤ buffer_max f)%Z →
  (∀ k, fault f = Some k → length (data f) ≤ k) →
  ∃ got, read f pos size = Ok got
         ∧ length got = Nat.min (Z.to_nat size) (length (data f) - pos).
Proof.
  intros Hsz Hbuf Hf. rewrite read_fits by lia. cbv zeta.
  destruct (Z.ltb_spec size 0); [lia|].
  set (got := take (Z.to_nat size) (drop pos (data f))).
  assert (Hlen : length got = Nat.min (Z.to_nat size) (length (data f) - pos)).
  { unfold got. by rewrite length_take, length_drop. }
  exists got. split; [|done].
  destruct (fault f) as [k|] eqn:Hk; [|done].
  specialize (Hf k eq_refl). case_bool_decide; [lia|done].
Qed.

Lemma read_loop_ok f chunk pos total :
  (1 ≤ chunk ≤ PY_SSIZE_T_MAX)%Z →
  (chunk ≤ buffer_max f)%Z →
  (∀ k, fault f = Some k → length (data f) ≤ k) →
  read_loop f chunk pos total = Ok (total + Z.of_nat (length (data f) - pos))%Z.
Proof.
  intros Hc Hb Hf. funelim (read_loop f chunk pos total).
  all: try match goal with H : {| pr1 := _; pr2 := _ |} = _ |- _ => clear H end.
  all: destruct (read_ok f pos chunk Hc Hb Hf) as (got' & Hgot & Hlen).
  all: match goal with e : read _ _ _ = ?r |- _ =>
         assert (Hres : Ok got' = r) by (rewrite <- Hgot; exact e) end.
  all: inversion Hres; subst got'.
  - f_equal. simpl in Hlen. lia.
  - match goal with IH : _ → _ → _ → read_loop _ _ _ _ = _ |- _ =>
      rewrite IH by done end.
    f_equal. simpl in *. lia.
Qed.

(** A request that does not fit raises at the first call of [read]. *)
Lemma read_loop_refused f chunk pos total :
  ((PY_SSIZE_T_MAX < chunk)%Z → read_loop f chunk pos total = Raise OverflowError)
  ∧ ((chunk ≤ PY_SSIZE_T_MAX)%Z → (buffer_max f < chunk)%Z →
     read_loop f chunk pos total = Raise MemoryError).
Proof.
  assert (Hr : ((PY_SSIZE_T_MAX < chunk)%Z → read f pos chunk = Raise OverflowError)
               ∧ ((chunk ≤ PY_SSIZE_T_MAX)%Z → (buffer_max f < chunk)%Z →
                  read f pos chunk = Raise MemoryError)).
  { unfold read. destruct (Z.ltb_spec PY_SSIZE_T_MAX chunk);
      destruct (Z.ltb_spec (buffer_max f) chunk); split; intros; (done || lia). }
  destruct Hr as [Ho Hm].
  split; [intros H; specialize (Ho H)|intros H1 H2; specialize (Hm H1 H2)].
  all: funelim (read_loop f chunk pos total).
  all: try match goal with H : {| pr1 := _; pr2 := _ |} = _ |- _ => clear H end.
  all: match goal with e : read _ _ _ = ?r |- _ =>
         assert (Hres : read f pos chunk = r) by exact e end.
  all: congruence.
Qed.

(** C9, as the code has it.  For an [int], zero and negative values
    included, and for every float that [int] accepts, the chunk size is at
    least 1; the read loop is a total function.  On a file that [stat] and
    [open] accept and that reads without I/O error, [warm_file] returns the
    number of bytes the file holds when it is read, whatever size [stat]
    reported, provided that the chunk fits a C [ssize_t] and that a buffer of
    that size can be allocated.  Otherwise it raises: the exception of [int]
    for a NaN or an infinity, [OverflowError] for a chunk beyond
    [sys.maxsize], [MemoryError] for a buffer that cannot be allocated. *)
Theorem warm_file_returns_bytes_read
    (fs : FS) (path : Path) (chunk_mb : number) (size : Z) (f : FileIO) :
  st_size fs path = Ok size →
  open_rb fs path = Ok f →
  (∀ k, fault f = Some k → length (data f) ≤ k) →
  (∀ z : Z, chunk_size z = Ok (Z.max 1 (z * 1024 * 1024)))
  ∧ (∀ e, chunk_size chunk_mb = Raise e → warm_file fs path chunk_mb = Raise e)
  ∧ (∀ chunk, chunk_size chunk_mb = Ok chunk →
       (1 ≤ chunk)%Z
       ∧ ((chunk ≤ PY_SSIZE_T_MAX)%Z → (chunk ≤ buffer_max f)%Z →
          warm_file fs path chunk_mb = Ok (Z.of_nat (length (data f))))
       ∧ ((PY_SSIZE_T_MAX < chunk)%Z →
          warm_file fs path chunk_mb = Raise OverflowError)
       ∧ ((chunk ≤ PY_SSIZE_T_MAX)%Z → (buffer_max f < chunk)%Z →
          warm_file fs path chunk_mb = Raise MemoryError)).
Proof.
  intros Hstat Hopen Hfault. split; [apply chunk_size_int|].
  unfold warm_file. rewrite Hstat, Hopen. simpl. split.
  - intros e He. by rewrite He.
  - intros chunk Hc. rewrite Hc. simpl.
    pose proof (chunk_size_pos chunk_mb chunk Hc) as Hpos.
    destruct (read_loop_refused f chunk 0 0) as [Ho Hm].
    split; [done|]. split; [|by split].
    intros Hmax Hbuf. rewrite read_loop_ok by (done || lia). f_equal. lia.
Qed.

Lemma warm_file_returns_bytes_read_witness :
  warm_file grown_fs ["r"; "mods"; "a.jar"]%string (-3) = Ok 3%Z.
Proof.
  apply (proj1 (proj2 (proj2 (proj2
    (warm_file_returns_bytes_read grown_fs ["r"; "mods"; "a.jar"]%string
       (PyInt (-3)) 0%Z
       {| data := [Byte.x4a; Byte.x41; Byte.x52]; fault := None; buffer_max := 2 ^ 40 |}
       eq_refl eq_refl ltac:(intros k Hk; discriminate Hk))) 1%Z eq_refl))).
  - unfold PY_SSIZE_T_MAX. lia.
  - simpl. lia.
Defined.

(** C9 as stated fails: the chunk is clamped from below only.  With
    [chunk_mb = 2 ** 43] the chunk is [2 ** 63] bytes and the first [read]
    raises [OverflowError]; with a NaN [int] raises [ValueError]; in both
    cases no count is returned, for a file that reads without error. *)
Lemma warm_file_huge_chunk_raises :
  warm_file grown_fs ["r"; "mods"; "a.jar"]%string (2 ^ 43) = Raise OverflowError
  ∧ warm_file grown_fs ["r"; "mods"; "a.jar"]%string PyNaN = Raise ValueError
  ∧ ¬ (∀ chunk_mb, returns_bytes_read grown_fs ["r"; "mods"; "a.jar"]%string chunk_mb).
Proof.
  split; [vm_compute; reflexivity|]. split; [vm_compute; reflexivity|].
  intros H.
  specialize (H (PyInt (2 ^ 43)) 0%Z
                {| data := [Byte.x4a; Byte.x41; Byte.x52]; fault := None;
                   buffer_max := 2 ^ 40 |}
                eq_refl eq_refl ltac:(intros k Hk; discriminate Hk)).
  vm_compute in H. discriminate H.
Qed.

(** ** Python's stable sort *)

Lemma sorted_cons {A} (lt : A → A → bool) x l :
  sorted lt (x :: l) = insert_sorted lt x (sorted lt l).
Proof. reflexivity. Qed.

Section python_sort_facts.
Context {A : Type} (lt : A → A → bool).

#[local] Abbreviation not_after := (not_after lt).

Hypothesis lt_asym : ∀ a b, lt a b = true → lt b a = false.
Hypothesis not_after_trans : ∀ a b c, not_after a b → not_after b c → not_after a c.

Lemma insert_sorted_perm x l : insert_sorted lt x l ≡ₚ x :: l.
Proof.
  induction l as [|y l IH]; simpl; [done|].
  destruct (lt y x); [|done]. rewrite IH. apply Permutation_swap.
Qed.

Lemma sorted_perm l : sorted lt l ≡ₚ l.
Proof.
  induction l as [|x l IH]; simpl; [done|].
  by rewrite insert_sorted_perm, IH.
Qed.

Lemma insert_sorted_sorted x l :
  StronglySorted not_after l → StronglySorted not_after (insert_sorted lt x l).
Proof.
  induction 1 as [|y l Hl IH Hy]; simpl.
  { repeat constructor. }
  destruct (lt y x) eqn:Hyx.
  - constructor; [done|].
    rewrite insert_sorted_perm. constructor; [|done].
    by apply lt_asym.
  - constructor; [by constructor|].
    constructor; [done|].
    eapply Forall_impl; [exact Hy|]. intros z Hz.
    by apply (not_after_trans x y z).
Qed.

Lemma sorted_sorted l : StronglySorted not_after (sorted lt l).
Proof.
  induction l as [|x l IH]; simpl; [constructor|].
  by apply insert_sorted_sorted.
Qed.

(** Sorting a sorted list changes nothing. *)
Lemma sorted_id l : StronglySorted not_after l → sorted lt l = l.
Proof using Type.
  induction 1 as [|x l Hl IH Hx]; simpl; [done|].
  rewrite IH. destruct l as [|y l]; [done|]. simpl.
  apply Forall_cons in Hx as [Hxy _]. unfold not_after in Hxy. by rewrite Hxy.
Qed.

Lemma sorted_idempotent l : sorted lt (sorted lt l) = sorted lt l.
Proof. apply sorted_id, sorted_sorted. Qed.

(** Stability: elements none of which is smaller than another keep the
    order they had. *)
Section stable.
Context (P : A → Prop) `{!∀ x, Decision (P x)}.
Hypothesis P_equal : ∀ x y, P x → P y → lt y x = false.

Lemma insert_sorted_filter x l :
  filter P (insert_sorted lt x l) = filter P (x :: l).
Proof using P_equal.
  induction l as [|y l IH]; simpl; [done|].
  destruct (lt y x) eqn:Hyx; [|done].
  rewrite filter_cons, IH, !filter_cons.
  destruct (decide (P y)) as [Hy|]; [|done].
  destruct (decide (P x)) as [Hx|]; [|done].
  rewrite P_equal in Hyx by done. done.
Qed.

Lemma sorted_filter l : filter P (sorted lt l) = filter P l.
Proof using P_equal.
  induction l as [|x l IH]; simpl; [done|].
  by rewrite insert_sorted_filter, !filter_cons, IH.
Qed.
End stable.
End python_sort_facts.

Lemma StronglySorted_lookup {A} (R : relation A) l i j a b :
  StronglySorted R l → i < j → l !! i = Some a → l !! j = Some b → R a b.
Proof.
  intros Hl. revert i j. induction Hl as [|x l Hl IH Hx]; intros i j Hij Hi Hj.
  { by rewrite lookup_nil in Hi. }
  destruct j as [|j]; [lia|]. simpl in Hj.
  destruct i as [|i]; simpl in Hi.
  - simplify_eq. rewrite Forall_forall in Hx. apply Hx.
    by eapply list_elem_of_lookup_2.
  - apply (IH i j); [lia|done..].
Qed.

(** Sorting by a key gives the list that decorating with the key, sorting
    the pairs and undecorating gives. *)
Lemma sorted_decorated {A K} (lt : K → K → bool) (key : A → K) (l : list A) :
  sorted (fun a b => lt a.1 b.1) ((fun x => (key x, x)) <$> l)
  = (fun x => (key x, x)) <$> sorted (fun x y => lt (key x) (key y)) l.
Proof.
  induction l as [|x l IH]; [done|].
  rewrite fmap_cons, !sorted_cons, IH. clear IH.
  induction (sorted (fun x y => lt (key x) (key y)) l) as [|y l' IH]; [done|].
  rewrite fmap_cons. simpl.
  destruct (lt (key y) (key x)); [|done]. by rewrite IH, fmap_cons.
Qed.

(** ** The priority sorter *)

Lemma tuple_lt_asym a b : tuple_lt a b = true → tuple_lt b a = false.
Proof. unfold tuple_lt. destruct a, b; simpl. lia. Qed.

Lemma tuple_not_after_trans a b c :
  not_after tuple_lt a b → not_after tuple_lt b c → not_after tuple_lt a c.
Proof. unfold not_after, tuple_lt. destruct a, b, c; simpl. lia. Qed.

Lemma tuple_not_after_rank sz p q :
  not_after tuple_lt (weight p, - sz p)%Z (weight q, - sz q)%Z ↔ rank_before sz p q.
Proof. unfold not_after, tuple_lt, rank_before. simpl. lia. Qed.

(** No name ends in two of the suffixes. *)
Lemma endswith_unique n a b :
  a ∈ SUFFIXES → b ∈ SUFFIXES → a ≠ b →
  endswith n a = true → endswith n b = false.
Proof.
  intros Ha Hb Hab Hna. apply bool_decide_eq_true in Hna.
  apply bool_decide_eq_false. intros Hnb.
  assert (Hex : Forall (fun a => Forall (fun b => a ≠ b →
            endswith a b = false ∧ endswith b a = false) SUFFIXES) SUFFIXES).
  { unfold SUFFIXES.
    repeat (apply Forall_cons; split); try (by constructor).
    all: intros Hne; first [by destruct Hne | split; vm_compute; reflexivity]. }
  rewrite Forall_forall in Hex. specialize (Hex a Ha).
  rewrite Forall_forall in Hex. destruct (Hex b Hb Hab) as [H1 H2].
  apply bool_decide_eq_false in H1, H2.
  destruct (suffix_weak_total _ _ _ Hna Hnb); done.
Qed.

Lemma StronglySorted_ext {A} (R1 R2 : relation A) l :
  (∀ a b, R1 a b → R2 a b) → StronglySorted R1 l → StronglySorted R2 l.
Proof.
  intros HR. induction 1 as [|x l Hl IH Hx]; constructor; [done|].
  eapply Forall_impl; [exact Hx|]. auto.
Qed.

Ltac only_suffix n s H :=
  repeat match goal with
  | |- context [endswith n ?b] =>
    rewrite (endswith_unique n s b) by
      first [ exact H | discriminate | unfold SUFFIXES; set_solver ]
  end.

(** The classes of [weight], suffix by suffix. *)
Lemma weight_table p :
  (weight p = 0%Z ↔ has_suffix p ".jar")
  ∧ (weight p = 1%Z ↔ has_suffix p ".zip")
  ∧ (weight p = 2%Z ↔ has_suffix p ".json" ∨ has_suffix p ".toml"
                      ∨ has_suffix p ".cfg" ∨ has_suffix p ".ini")
  ∧ (weight p = 3%Z ↔ has_suffix p ".png" ∨ has_suffix p ".ogg"
                      ∨ has_suffix p ".wav")
  ∧ (weight p = 4%Z ↔ Forall (fun s => ¬ has_suffix p s) SUFFIXES).
Proof.
  unfold weight, has_suffix, SUFFIXES. rewrite !Forall_cons, Forall_nil.
  generalize (lower (name p)). intros n.
  destruct (endswith n ".jar") eqn:H1; [only_suffix n ".jar"%string H1; naive_solver lia|].
  destruct (endswith n ".zip") eqn:H2; [only_suffix n ".zip"%string H2; naive_solver lia|].
  destruct (endswith n ".json") eqn:H3; [only_suffix n ".json"%string H3; naive_solver lia|].
  destruct (endswith n ".toml") eqn:H4; [only_suffix n ".toml"%string H4; naive_solver lia|].
  destruct (endswith n ".cfg") eqn:H5; [only_suffix n ".cfg"%string H5; naive_solver lia|].
  destruct (endswith n ".ini") eqn:H6; [only_suffix n ".ini"%string H6; naive_solver lia|].
  destruct (endswith n ".png") eqn:H7; [only_suffix n ".png"%string H7; naive_solver lia|].
  destruct (endswith n ".ogg") eqn:H8; [only_suffix n ".ogg"%string H8; naive_solver lia|].
  destruct (endswith n ".wav") eqn:H9; [only_suffix n ".wav"%string H9; naive_solver lia|].
  naive_solver lia.
Qed.

Lemma sort_keys_ok fs files sz :
  (∀ p, p ∈ files → st_size fs p = Ok (sz p)) →
  sort_keys fs files = Ok ((fun p => ((weight p, - sz p)%Z, p)) <$> files).
Proof.
  induction files as [|p files IH]; intros Hsz; [done|].
  simpl. unfold sort_key. rewrite (Hsz p) by left. simpl.
  rewrite IH; [done|]. intros q Hq. apply Hsz. by right.
Qed.

Lemma files_sort_ok fs files sz :
  (∀ p, p ∈ files → st_size fs p = Ok (sz p)) →
  files_sort fs files = Ok (rank sz files).
Proof.
  intros Hsz. unfold files_sort, rank. rewrite (sort_keys_ok fs files sz Hsz). simpl.
  rewrite (sorted_decorated tuple_lt (fun p => (weight p, - sz p)%Z)).
  f_equal. rewrite <- list_fmap_compose. apply list_fmap_id.
Qed.

(** C4: when [stat] gives the sizes [sz], [files.sort] returns [rank sz files],
    which is the stable sort by the composite key: a permutation of [files],
    ordered by class ascending and then size descending, with files of equal
    key in the order they had.  Every file of class 0 ([.jar]) is before
    every file of class 3 ([.png]) whatever their sizes, sorting the result
    again returns the same list, and the classes are those of the table, by
    the suffix of the lower-cased file name. *)
Theorem files_sort_is_stable_rank (fs : FS) (files : list Path) (sz : Path → Z) :
  (∀ p, p ∈ files → st_size fs p = Ok (sz p)) →
  files_sort fs files = Ok (rank sz files)
  ∧ rank sz files ≡ₚ files
  ∧ StronglySorted (rank_before sz) (rank sz files)
  ∧ (∀ w s, filter (has_key sz w s) (rank sz files) = filter (has_key sz w s) files)
  ∧ (∀ i j p q, rank sz files !! i = Some p → rank sz files !! j = Some q →
       weight p = 0%Z → weight q = 3%Z → i < j)
  ∧ files_sort fs (rank sz files) = Ok (rank sz files)
  ∧ (∀ p, (weight p = 0%Z ↔ has_suffix p ".jar")
        ∧ (weight p = 1%Z ↔ has_suffix p ".zip")
        ∧ (weight p = 2%Z ↔ has_suffix p ".json" ∨ has_suffix p ".toml"
                            ∨ has_suffix p ".cfg" ∨ has_suffix p ".ini")
        ∧ (weight p = 3%Z ↔ has_suffix p ".png" ∨ has_suffix p ".ogg"
                            ∨ has_suffix p ".wav")
        ∧ (weight p = 4%Z ↔ Forall (fun s => ¬ has_suffix p s) SUFFIXES)).
Proof.
  intros Hsz.
  set (lt := fun p q => tuple_lt (weight p, - sz p)%Z (weight q, - sz q)%Z).
  assert (Hasym : ∀ a b, lt a b = true → lt b a = false)
    by (intros a b; apply tuple_lt_asym).
  assert (Htrans : ∀ a b c, not_after lt a b → not_after lt b c → not_after lt a c)
    by (intros a b c; apply tuple_not_after_trans).
  assert (Hperm : rank sz files ≡ₚ files) by apply sorted_perm.
  assert (Hsorted : StronglySorted (rank_before sz) (rank sz files)).
  { eapply StronglySorted_ext; [|by apply (sorted_sorted lt)].
    intros a b. apply tuple_not_after_rank. }
  split; [by apply files_sort_ok|]. split; [done|]. split; [done|].
  split; [|split; [|split]].
  - intros w s. apply (sorted_filter lt).
    intros x y [Hx1 Hx2] [Hy1 Hy2]. unfold lt, tuple_lt. simpl. lia.
  - intros i j p q Hi Hj Hp Hq.
    destruct (decide (i < j)) as [|Hij]; [done|].
    destruct (decide (i = j)) as [->|Hne]; [simplify_eq; lia|].
    assert (rank_before sz q p) as [Hlt|[Heq _]]
      by (eapply (StronglySorted_lookup _ _ j i); [done|lia|done..]); lia.
  - rewrite (files_sort_ok fs _ sz).
    + f_equal. apply (sorted_idempotent lt); done.
    + intros p Hp. apply Hsz. by rewrite <- Hperm.
  - apply weight_table.
Qed.

Lemma files_sort_is_stable_rank_witness :
  files_sort scenario_fs scenario_files
  = Ok [ ["r"; "mods"; "big.JAR"]; ["r"; "mods"; "A.jar"];
         ["r"; "config"; "b.toml"]; ["r"; "art"; "c.png"] ]%string.
Proof.
  exact (proj1 (files_sort_is_stable_rank scenario_fs scenario_files scenario_size
                  (fun p _ => eq_refl))).
Defined.

(** ** The instance lister *)

(** [String.ltb] and [path_lt] are strict total orders. *)
Lemma ascii_compare_lt_trans a b c :
  Ascii.compare a b = Lt → Ascii.compare b c = Lt → Ascii.compare a c = Lt.
Proof. unfold Ascii.compare. rewrite !N.compare_lt_iff. lia. Qed.

Lemma string_compare_lt_trans a b c :
  String.compare a b = Lt → String.compare b c = Lt → String.compare a c = Lt.
Proof.
  revert b c. induction a as [|x a IH]; intros [|y b] [|z c]; simpl; try done.
  destruct (Ascii.compare x y) eqn:Hxy; try done;
    destruct (Ascii.compare y z) eqn:Hyz; try done; intros Hab Hbc.
  - apply Ascii.compare_eq_iff in Hxy, Hyz. subst.
    assert (Ascii.compare z z = Eq) as -> by (unfold Ascii.compare; apply N.compare_refl).
    by apply (IH b c).
  - apply Ascii.compare_eq_iff in Hxy. subst. by rewrite Hyz.
  - apply Ascii.compare_eq_iff in Hyz. subst. by rewrite Hxy.
  - by rewrite (ascii_compare_lt_trans x y z).
Qed.

Lemma string_ltb_trans a b c :
  String.ltb a b = true → String.ltb b c = true → String.ltb a c = true.
Proof.
  unfold String.ltb. intros Hab Hbc.
  destruct (String.compare a b) eqn:H1; try done.
  destruct (String.compare b c) eqn:H2; try done.
  by rewrite (string_compare_lt_trans a b c).
Qed.

Lemma string_compare_refl a : String.compare a a = Eq.
Proof.
  induction a as [|x a IH]; simpl; [done|].
  assert (Ascii.compare x x = Eq) as -> by (unfold Ascii.compare; apply N.compare_refl).
  done.
Qed.

Lemma string_ltb_irrefl a : String.ltb a a = false.
Proof. unfold String.ltb. by rewrite string_compare_refl. Qed.

Lemma string_ltb_trichotomy a b :
  String.ltb a b = true ∨ a = b ∨ String.ltb b a = true.
Proof.
  unfold String.ltb. rewrite (String.compare_antisym b a).
  destruct (String.compare a b) eqn:Hab; simpl; auto.
  right. left. by apply String.compare_eq_iff.
Qed.

Lemma parts_lt_irrefl p : parts_lt p p = false.
Proof.
  induction p as [|a p IH]; simpl; [done|].
  rewrite string_ltb_irrefl. by rewrite String.eqb_refl.
Qed.

Lemma parts_lt_cons a p b q :
  parts_lt (a :: p) (b :: q) = true ↔
  String.ltb a b = true ∨ (a = b ∧ parts_lt p q = true).
Proof.
  simpl. destruct (String.ltb a b) eqn:Hlt; [naive_solver|].
  destruct (String.eqb_spec a b); naive_solver.
Qed.

Lemma parts_lt_trans p q r :
  parts_lt p q = true → parts_lt q r = true → parts_lt p r = true.
Proof.
  revert q r. induction p as [|a p IH]; intros [|b q] [|c r]; try done.
  rewrite !parts_lt_cons. intros [Hab|[-> Hpq]] [Hbc|[-> Hqr]].
  - left. by apply (string_ltb_trans a b c).
  - by left.
  - by left.
  - right. split; [done|]. by apply (IH q r).
Qed.

Lemma parts_lt_trichotomy p q :
  parts_lt p q = true ∨ p = q ∨ parts_lt q p = true.
Proof.
  revert q. induction p as [|a p IH]; intros [|b q]; simpl; auto.
  destruct (string_ltb_trichotomy a b) as [Hab|[->|Hba]].
  - rewrite Hab. auto.
  - rewrite string_ltb_irrefl, String.eqb_refl.
    destruct (IH q) as [?|[->|?]]; auto.
  - rewrite Hba. auto.
Qed.

Lemma parts_lt_asym p q : parts_lt p q = true → parts_lt q p = false.
Proof.
  intros Hpq. destruct (parts_lt q p) eqn:Hqp; [|done].
  by rewrite <- (parts_lt_irrefl p), (parts_lt_trans p q p).
Qed.

Lemma parts_not_after_trans p q r :
  not_after parts_lt p q → not_after parts_lt q r → not_after parts_lt p r.
Proof.
  unfold not_after. intros Hqp Hrq.
  destruct (parts_lt r p) eqn:Hrp; [|done].
  destruct (parts_lt_trichotomy p q) as [Hpq|[->|Hqp']]; [|congruence..].
  by rewrite (parts_lt_trans r p q) in Hrq.
Qed.

Lemma parts_lt_siblings d a b : parts_lt (d ++ [a]) (d ++ [b]) = String.ltb a b.
Proof.
  induction d as [|x d IH]; simpl.
  - destruct (String.ltb a b); [done|]. by destruct (String.eqb a b).
  - by rewrite string_ltb_irrefl, String.eqb_refl.
Qed.

Section path_order.
Context (fl : Flavour).

Lemma path_lt_asym p q : path_lt fl p q = true → path_lt fl q p = false.
Proof. apply parts_lt_asym. Qed.

Lemma path_not_after_trans p q r :
  not_after (path_lt fl) p q → not_after (path_lt fl) q r → not_after (path_lt fl) p r.
Proof. apply parts_not_after_trans. Qed.

Lemma path_lt_siblings d a b :
  path_lt fl (d ++ [a]) (d ++ [b]) = String.ltb (casefold fl a) (casefold fl b).
Proof. unfold path_lt. rewrite !fmap_app. apply parts_lt_siblings. Qed.
End path_order.

Lemma any_exists_true fs child subs :
  any_exists fs child subs = Ok true →
  Exists (fun sub => path_exists fs (child ++ [sub]) = Ok true) subs.
Proof.
  induction subs as [|sub subs IH]; simpl; [done|].
  destruct (path_exists fs (child ++ [sub])) as [[|]|] eqn:He; simpl; try done.
  - intros _. by left.
  - intros H. right. by apply IH.
Qed.

Lemma any_exists_false fs child subs :
  any_exists fs child subs = Ok false →
  ¬ Exists (fun sub => path_exists fs (child ++ [sub]) = Ok true) subs.
Proof.
  induction subs as [|sub subs IH]; simpl; intros H Hex.
  { inversion Hex. }
  destruct (path_exists fs (child ++ [sub])) as [[|]|] eqn:He; simpl in H; try done.
  inversion Hex; subst; [congruence|]. by apply IH.
Qed.

Lemma any_exists_answers fs child subs :
  Forall (fun sub => ∃ e, path_exists fs (child ++ [sub]) = Ok e) subs →
  ∃ b, any_exists fs child subs = Ok b.
Proof.
  induction 1 as [|sub subs [e He] _ IH]; simpl; [by eexists|].
  rewrite He. simpl. destruct e; [by eexists|done].
Qed.

(** What the answer of the two tests means. *)
Lemma looks_like_instance_spec fs child b :
  looks_like_instance fs child = Ok b → (b = true ↔ is_instance_dir fs child).
Proof.
  unfold looks_like_instance, is_instance_dir.
  destruct (is_dir fs child) as [[|]|] eqn:Hd;
    cbn [mbind result_bind mret result_ret]; try done.
  - destruct b; intros H.
    + apply any_exists_true in H. naive_solver.
    + apply any_exists_false in H. naive_solver.
  - intros [= <-]. naive_solver.
Qed.

Lemma looks_like_instance_answers fs child :
  tests_answer fs child → ∃ b, looks_like_instance fs child = Ok b.
Proof.
  intros [[d Hd] He]. unfold looks_like_instance. rewrite Hd.
  cbn [mbind result_bind mret result_ret].
  destruct d; [by apply any_exists_answers|by eexists].
Qed.

(** The loop visits the children in order until a test raises, and keeps
    the instance directories among those it visited. *)
Lemma instances_loop_spec fs children instances :
  ∃ visited rest,
    children = visited ++ rest
    ∧ Forall (fun c => ∃ b, looks_like_instance fs c = Ok b) visited
    ∧ instances_loop fs children instances
      = instances ++ filter (is_instance_dir fs) visited
    ∧ (rest = [] ∨ ∃ c e, head rest = Some c ∧ looks_like_instance fs c = Raise e).
Proof.
  revert instances. induction children as [|c cs IH]; intros instances; simpl.
  { exists [], []. split; [done|]. split; [constructor|].
    split; [by rewrite app_nil_r|by left]. }
  destruct (looks_like_instance fs c) as [b|e] eqn:Hc.
  - pose proof (looks_like_instance_spec fs c b Hc) as Hb.
    destruct (IH (if b then instances ++ [c] else instances))
      as (visited & rest & -> & Hall & Hloop & Hrest).
    exists (c :: visited), rest. split; [done|]. split; [constructor; eauto|].
    split; [|done]. rewrite filter_cons.
    destruct b; rewrite Hloop.
    + rewrite decide_True by naive_solver. by rewrite <- app_assoc.
    + rewrite decide_False by naive_solver. done.
  - exists [], (c :: cs). split; [done|]. split; [constructor|].
    split; [by rewrite app_nil_r|]. right. eauto.
Qed.

Lemma StronglySorted_filter {A} (R : relation A) (P : A → Prop)
    `{!∀ x, Decision (P x)} l :
  StronglySorted R l → StronglySorted R (filter P l).
Proof.
  induction 1 as [|x l Hl IH Hx]; [constructor|].
  rewrite filter_cons. destruct (decide (P x)); [|done].
  constructor; [done|].
  rewrite Forall_forall in Hx |- *. intros y Hy.
  apply list_elem_of_filter in Hy as [_ Hy]. by apply Hx.
Qed.

(** C8, as the code has it: [list_instances] never raises.  When the root
    cannot be read it returns the empty list.  When the root is read and no
    test on a child raises, it returns exactly the immediate subdirectories
    that directly contain one of [mods], [config], [resourcepacks],
    [.minecraft].  When a test on a child raises, it returns the instance
    directories that sort before that child.  The order is that of
    [sorted]: the paths are compared part by part as [pathlib] does for their
    flavour, which for the children of one directory is the order of their
    names as strings, for a POSIX path as they are and for a Windows path in
    lower case. *)
Theorem list_instances_best_effort (fl : Flavour) (fs : FS) (root_dir : Path) :
  (∀ e, iterdir fs root_dir = Raise e → list_instances fl fs root_dir = [])
  ∧ (∀ children, iterdir fs root_dir = Ok children →
       Forall (tests_answer fs) children →
       list_instances fl fs root_dir
       = filter (is_instance_dir fs) (sorted (path_lt fl) children)
       ∧ returns_exactly_instances fl fs root_dir)
  ∧ (∀ children, iterdir fs root_dir = Ok children →
       ∃ visited rest,
         sorted (path_lt fl) children = visited ++ rest
         ∧ list_instances fl fs root_dir = filter (is_instance_dir fs) visited
         ∧ (rest = [] ∨ ∃ c e, head rest = Some c
                               ∧ looks_like_instance fs c = Raise e))
  ∧ StronglySorted (not_after (path_lt fl)) (list_instances fl fs root_dir)
  ∧ (∀ d a b, path_lt fl (d ++ [a]) (d ++ [b])
               = String.ltb (casefold fl a) (casefold fl b)).
Proof.
  assert (Hsorted : ∀ l, StronglySorted (not_after (path_lt fl)) (sorted (path_lt fl) l)).
  { intros l. apply sorted_sorted; [apply path_lt_asym|apply path_not_after_trans]. }
  assert (Hloop : ∀ children, iterdir fs root_dir = Ok children →
       ∃ visited rest,
         sorted (path_lt fl) children = visited ++ rest
         ∧ list_instances fl fs root_dir = filter (is_instance_dir fs) visited
         ∧ (rest = [] ∨ ∃ c e, head rest = Some c
                               ∧ looks_like_instance fs c = Raise e)).
  { intros children Hit. unfold list_instances. rewrite Hit.
    destruct (instances_loop_spec fs (sorted (path_lt fl) children) [])
      as (visited & rest & Hcs & _ & Hres & Hrest).
    exists visited, rest. auto. }
  assert (Hexact : ∀ children, iterdir fs root_dir = Ok children →
       Forall (tests_answer fs) children →
       list_instances fl fs root_dir
       = filter (is_instance_dir fs) (sorted (path_lt fl) children)).
  { intros children Hit Hans.
    destruct (Hloop children Hit) as (visited & rest & Hcs & Hres & Hrest).
    destruct Hrest as [->|(c & e & Hc & He)].
    { by rewrite Hcs, app_nil_r. }
    exfalso. destruct rest as [|c' rest]; simplify_eq/=.
    assert (Hin : c ∈ children).
    { rewrite <- (sorted_perm (path_lt fl) children), Hcs. set_solver. }
    rewrite Forall_forall in Hans.
    destruct (looks_like_instance_answers fs c (Hans c Hin)) as [b Hb]. congruence. }
  split; [|split; [|split; [|split]]].
  - intros e He. unfold list_instances. by rewrite He.
  - intros children Hit Hans. split; [by apply Hexact|].
    intros children' Hit' c. assert (children' = children) as -> by congruence.
    rewrite (Hexact children Hit Hans), list_elem_of_filter.
    rewrite (sorted_perm (path_lt fl) children). tauto.
  - done.
  - destruct (iterdir fs root_dir) as [children|e] eqn:Hit.
    2: { unfold list_instances. rewrite Hit. constructor. }
    destruct (Hloop children eq_refl) as (visited & rest & Hcs & Hres & _).
    rewrite Hres. apply StronglySorted_filter.
    specialize (Hsorted children). rewrite Hcs in Hsorted.
    by apply StronglySorted_app_1_l in Hsorted.
  - apply path_lt_siblings.
Qed.

Example list_instances_launcher_fs :
  list_instances posix launcher_fs ["root"%string] = [ ["root"; "a"]; ["root"; "c"] ]%string.
Proof. vm_compute. reflexivity. Qed.

(** The same listing in the two flavours: the names are compared as they
    are for POSIX paths and in lower case for Windows paths. *)
Example list_instances_mixed_case :
  list_instances posix mixed_case_fs ["root"%string]
  = [ ["root"; "Beta"]; ["root"; "alpha"] ]%string
  ∧ list_instances windows mixed_case_fs ["root"%string]
    = [ ["root"; "alpha"]; ["root"; "Beta"] ]%string.
Proof. split; vm_compute; reflexivity. Qed.

Lemma list_instances_best_effort_witness :
  list_instances posix launcher_fs ["root"%string]
  = filter (is_instance_dir launcher_fs)
      (sorted (path_lt posix) [ ["root"; "n"]; ["root"; "c"]; ["root"; "a"] ]%string)
  ∧ returns_exactly_instances posix launcher_fs ["root"%string].
Proof.
  apply (proj1 (proj2 (list_instances_best_effort posix launcher_fs ["root"%string]))).
  - reflexivity.
  - repeat constructor; by eexists.
Defined.

(** C8 as stated fails: in [denied_fs] the instance [c] is an immediate
    subdirectory with a marker, and is not returned. *)
Lemma list_instances_not_exact :
  list_instances posix denied_fs ["root"%string] = [ ["root"; "a"] ]%string
  ∧ ¬ returns_exactly_instances posix denied_fs ["root"%string].
Proof.
  split; [vm_compute; reflexivity|].
  intros H.
  specialize (H [ ["root"; "c"]; ["root"; "b"]; ["root"; "a"] ]%string eq_refl
                ["root"; "c"]%string).
  assert (Hc : ["root"; "c"]%string ∈ list_instances posix denied_fs ["root"%string]).
  { apply H. split; [set_solver|]. split; [reflexivity|].
    right. left. reflexivity. }
  revert Hc. assert (list_instances posix denied_fs ["root"%string]
                     = [ ["root"; "a"] ]%string) as -> by (vm_compute; reflexivity).
  set_solver.
Qed.

(** ** The session worker *)

(** *** One step of each loop *)

Ltac clock := rewrite <- ?Nat.add_assoc; cbn [Nat.add length].

Section session_steps.
Context (budget : Z) (dry : bool) (E : Env).

Lemma try_warm_unfold i fpath st c :
  try_warm i fpath st E c =
  match warm_file (fs_at E c) fpath 16 with
  | Ok rb =>
    (Ok (add_progressed (add_progressed (add_warmed rb st))),
     [EvWarmFile fpath; EvLog (LWarmed i fpath rb (warmed_total st + rb))])
  | Raise e =>
    (Ok (add_progressed st), [EvWarmFile fpath; EvLog (LError i fpath e)])
  end.
Proof.
  unfold try_warm, try_except, call_warm_file, _append_log, mbind, M_bind, mret, M_ret.
  destruct (warm_file (fs_at E c) fpath 16); reflexivity.
Qed.


Lemma file_loop_cons i n fpath rest st c :
  file_loop budget dry i n (fpath :: rest) st E c =
  if stop_flag E c then (Ok st, [EvFlag true]) else
  match st_size (fs_at E (c + 1)) fpath with
  | Raise e => (Raise e, [EvFlag false; EvStat fpath (Raise e)])
  | Ok size =>
    if dry then
      let '(r, evs) := file_loop budget dry (S i) n rest st E (c + 3) in
      (r, [EvFlag false; EvStat fpath (Ok size); EvLog (LPlan i n fpath size)] ++ evs)
    else if (budget <=? warmed_total st)%Z then
      (Ok st, [EvFlag false; EvStat fpath (Ok size); EvLog LHitLimit])
    else
      match warm_file (fs_at E (c + 2)) fpath 16 with
      | Ok rb =>
        let '(r, evs) :=
          file_loop budget dry (S i) n rest
            (add_progressed (add_progressed (add_warmed rb st))) E (c + 4) in
        (r, [EvFlag false; EvStat fpath (Ok size); EvWarmFile fpath;
             EvLog (LWarmed i fpath rb (warmed_total st + rb))] ++ evs)
      | Raise e =>
        let '(r, evs) :=
          file_loop budget dry (S i) n rest (add_progressed st) E (c + 4) in
        (r, [EvFlag false; EvStat fpath (Ok size); EvWarmFile fpath;
             EvLog (LError i fpath e)] ++ evs)
      end
  end.
Proof.
  cbn [file_loop]. unfold mbind at 1, M_bind at 1, read_stop_flag.
  destruct (stop_flag E c); [reflexivity|].
  unfold mbind at 1, M_bind at 1, stat_size. clock.
  destruct (st_size (fs_at E (c + 1)) fpath) as [size|e]; [|reflexivity].
  destruct dry.
  - unfold mbind, M_bind, _append_log. clock.
    destruct (file_loop budget true (S i) n rest st E (c + 3)); reflexivity.
  - destruct (budget <=? warmed_total st)%Z; [reflexivity|].
    unfold mbind at 1, M_bind at 1. rewrite try_warm_unfold.
    destruct (warm_file (fs_at E (c + 2)) fpath 16) as [rb|e]; clock;
      match goal with |- context [file_loop ?b ?d ?i ?n ?r ?s ?E ?c] =>
        destruct (file_loop b d i n r s E c) end; reflexivity.
Qed.

Lemma warm_target_unfold t st c :
  warm_target budget dry t st E c =
  let found := iter_files (fs_at E (c + 1)) t DEFAULT_PATTERNS in
  match files_sort (fs_at E (c + 2)) found with
  | Raise e =>
    (Raise e, [EvLog (LStart t); EvEnumerate t found; EvSort found (Raise e)])
  | Ok files =>
    match file_loop budget dry 1 (length files) files (reset_warmed st) E (c + 3) with
    | (Ok st', evs) =>
      (Ok st', [EvLog (LStart t); EvEnumerate t found; EvSort found (Ok files)]
               ++ evs ++ [EvLog (LDone t (warmed st'))])
    | (Raise e, evs) =>
      (Raise e, [EvLog (LStart t); EvEnumerate t found; EvSort found (Ok files)] ++ evs)
    end
  end.
Proof.
  unfold warm_target, mbind, M_bind, _append_log, enumerate, sort_files, mret, M_ret.
  clock.
  destruct (files_sort (fs_at E (c + 2)) _) as [files|e]; [|reflexivity].
  destruct (file_loop budget dry 1 (length files) files (reset_warmed st) E (c + 3))
    as [[st'|e] evs]; [|reflexivity].
  rewrite (app_nil_r [EvLog (LDone t (warmed st'))]). reflexivity.
Qed.

Lemma target_loop_cons t rest st c :
  target_loop budget dry (t :: rest) st E c =
  if stop_flag E c then (Ok st, [EvFlag true]) else
  match warm_target budget dry t st E (c + 1) with
  | (Ok st', evs) =>
    let '(r, evs') := target_loop budget dry rest st' E (c + 1 + length evs) in
    (r, EvFlag false :: evs ++ evs')
  | (Raise e, evs) => (Raise e, EvFlag false :: evs)
  end.
Proof.
  cbn [target_loop]. unfold mbind at 1, M_bind at 1, read_stop_flag.
  destruct (stop_flag E c); [reflexivity|].
  unfold mbind at 1, M_bind at 1. cbn [length].
  destruct (warm_target budget dry t st E (c + 1)) as [[st'|e] evs]; [|reflexivity].
  destruct (target_loop budget dry rest st' E (c + 1 + length evs)); reflexivity.
Qed.
End session_steps.

Section worker_unfold.
Context (budget : Z) (dry : bool) (E : Env).

Lemma count_files_trace targets total_files c :
  ∃ k evs, count_files targets total_files E c = (Ok k, evs)
           ∧ Forall (fun e => ∃ t files, e = EvEnumerate t files) evs.
Proof.
  revert total_files c. induction targets as [|t rest IH]; intros k c.
  { exists k, []. split; [done|constructor]. }
  cbn [count_files]. unfold mbind at 1, M_bind at 1, enumerate. cbn [length].
  destruct (IH (k + length (iter_files (fs_at E c) t DEFAULT_PATTERNS)) (c + 1))
    as (k' & evs & -> & Hall).
  eexists _, _. split; [reflexivity|]. constructor; eauto.
Qed.

Lemma worker_unfold targets c :
  ∃ k evs0,
    count_files targets 0 E c = (Ok k, evs0)
    ∧ Forall (fun e => ∃ t files, e = EvEnumerate t files) evs0
    ∧ worker budget dry targets E c =
      match target_loop budget dry targets
              {| warmed_total := 0; warmed := 0; progressed := 0 |}
              E (c + length evs0) with
      | (Ok st, evs) => (Ok (), evs0 ++ evs ++ [EvLog (LAllDone (warmed_total st))])
      | (Raise e, evs) => (Raise e, evs0 ++ evs)
      end.
Proof.
  destruct (count_files_trace targets 0 c) as (k & evs0 & Hc & Hall).
  exists k, evs0. split; [done|]. split; [done|].
  unfold worker, mbind, M_bind. rewrite Hc.
  destruct (target_loop _ _ _ _ _ _) as [[st|e] evs]; reflexivity.
Qed.
End worker_unfold.

Lemma count_files_length E targets total_files c :
  length (count_files targets total_files E c).2 = length targets.
Proof.
  revert total_files c. induction targets as [|t rest IH]; intros k c; [done|].
  cbn [count_files]. unfold mbind, M_bind, enumerate. cbn [length].
  specialize (IH (k + length (iter_files (fs_at E c) t DEFAULT_PATTERNS)) (c + 1)).
  destruct (count_files rest _ E (c + 1)) as [[k'|e] evs]; simpl in *; by rewrite IH.
Qed.

(** *** Reading a concatenated trace *)

Lemma bytes_warmed_app tr1 tr2 :
  bytes_warmed (tr1 ++ tr2) = (bytes_warmed tr1 + bytes_warmed tr2)%Z.
Proof.
  induction tr1 as [|[| | | | |[]] tr1 IH]; simpl; try done. rewrite IH. lia.
Qed.

Lemma opened_app tr1 tr2 : opened (tr1 ++ tr2) = opened tr1 ++ opened tr2.
Proof.
  induction tr1 as [|[] tr1 IH]; simpl; try done. by rewrite IH.
Qed.

Lemma planned_app tr1 tr2 : planned (tr1 ++ tr2) = planned tr1 ++ planned tr2.
Proof.
  induction tr1 as [|[| | | | |[]] tr1 IH]; simpl; try done. by rewrite IH.
Qed.

Lemma completed_app tr1 tr2 : completed (tr1 ++ tr2) = completed tr1 + completed tr2.
Proof. unfold completed. by rewrite filter_app, length_app. Qed.

Lemma quiet_bytes_warmed tr : Forall quiet tr → bytes_warmed tr = 0%Z.
Proof.
  induction 1 as [|[| | | | |[]] tr Hq _ IH]; simpl in *; done.
Qed.

Lemma quiet_opened tr : Forall quiet tr → opened tr = [].
Proof.
  induction 1 as [|[] tr Hq _ IH]; simpl in *; done.
Qed.

Lemma budget_kept_app budget w tr1 tr2 :
  budget_kept budget w (tr1 ++ tr2)
  ↔ budget_kept budget w tr1 ∧ budget_kept budget (w + bytes_warmed tr1) tr2.
Proof.
  revert w. induction tr1 as [|[| | | | |[]] tr1 IH]; intros w; simpl;
    rewrite ?Z.add_0_r, ?IH, ?Z.add_assoc; tauto.
Qed.

Lemma quiet_budget_kept budget w tr : Forall quiet tr → budget_kept budget w tr.
Proof.
  induction 1 as [|[| | | | |[]] tr Hq _ IH]; simpl in *; done.
Qed.

Lemma budget_kept_nonneg budget w tr :
  budget_kept budget w tr → (0 ≤ bytes_warmed tr)%Z.
Proof.
  revert w. induction tr as [|[| | | | |[]] tr IH]; intros w; simpl; try done;
    try apply IH.
  - intros [_ H]. by apply (IH w).
  - intros (Hrb & _ & H). apply IH in H. lia.
Qed.

Lemma last_started_below_app budget w tr1 tr2 :
  last_started_below budget w tr1 →
  last_started_below budget (w + bytes_warmed tr1) tr2 →
  last_started_below budget w (tr1 ++ tr2).
Proof.
  intros H1 [H2|(a & i & p & rb & tot & b & -> & Hlt & Hb)].
  - destruct H1 as [H1|(a & i & p & rb & tot & b & -> & Hlt & Hb)].
    + left. rewrite bytes_warmed_app. lia.
    + right. exists a, i, p, rb, tot, (b ++ tr2).
      split; [by rewrite <- app_assoc|]. split; [done|].
      rewrite bytes_warmed_app. lia.
  - right. exists (tr1 ++ a), i, p, rb, tot, b.
    split; [by rewrite <- app_assoc|]. split; [|done].
    rewrite bytes_warmed_app. lia.
Qed.

Lemma quiet_last_started_below budget w tr :
  Forall quiet tr → last_started_below budget w tr.
Proof. intros H. left. by apply quiet_bytes_warmed. Qed.

(** *** The byte budget *)

Lemma read_loop_ge f chunk pos total r :
  read_loop f chunk pos total = Ok r → (total ≤ r)%Z.
Proof.
  funelim (read_loop f chunk pos total); intros Hres.
  - simplify_eq. lia.
  - match goal with IH : ∀ r, read_loop _ _ _ _ = Ok r → _ |- _ =>
      apply IH in Hres end.
    simpl in Hres. lia.
  - done.
Qed.

Lemma warm_file_nonneg fs path chunk_mb rb :
  warm_file fs path chunk_mb = Ok rb → (0 ≤ rb)%Z.
Proof.
  unfold warm_file. destruct (st_size fs path); [|done].
  destruct (open_rb fs path); [|done]. simpl.
  destruct (chunk_size chunk_mb); [|done]. simpl. apply read_loop_ge.
Qed.

Section budget.
Context (budget : Z) (dry : bool) (E : Env).

Lemma tracks_quiet w st evs :
  Forall quiet evs → warmed_total st = w → tracks budget w (Ok st, evs).
Proof.
  intros Hq Hw. split; [by apply quiet_budget_kept|].
  split; [by apply quiet_last_started_below|].
  simpl. intros st' [= <-]. rewrite (quiet_bytes_warmed evs Hq). lia.
Qed.

Lemma tracks_quiet_raise w (e : exn) evs :
  Forall quiet evs → tracks budget w (Raise e, evs).
Proof.
  intros Hq. split; [by apply quiet_budget_kept|].
  split; [by apply quiet_last_started_below|done].
Qed.

(** A run continued by a run. *)
Lemma tracks_app w evs1 r evs2 :
  budget_kept budget w evs1 →
  last_started_below budget w evs1 →
  tracks budget (w + bytes_warmed evs1) (r, evs2) →
  tracks budget w (r, evs1 ++ evs2).
Proof.
  intros Hk Hl (Hk2 & Hl2 & Hst). split; [by apply budget_kept_app|].
  split; [by apply last_started_below_app|].
  simpl in *. intros st' Hr. rewrite (Hst st' Hr), bytes_warmed_app. lia.
Qed.

Lemma file_loop_tracks files i n st c :
  tracks budget (warmed_total st) (file_loop budget dry i n files st E c).
Proof.
  revert i st c. induction files as [|fpath rest IH]; intros i st c.
  { apply tracks_quiet; [constructor|done]. }
  rewrite file_loop_cons.
  destruct (stop_flag E c).
  { apply tracks_quiet; [repeat constructor|done]. }
  destruct (st_size (fs_at E (c + 1)) fpath) as [size|e].
  2: { apply tracks_quiet_raise. repeat constructor. }
  destruct dry.
  { specialize (IH (S i) st (c + 3)).
    destruct (file_loop budget true (S i) n rest st E (c + 3)) as [r evs].
    apply tracks_app.
    - apply quiet_budget_kept. repeat constructor.
    - apply quiet_last_started_below. repeat constructor.
    - simpl. by rewrite Z.add_0_r. }
  destruct (Z.leb_spec budget (warmed_total st)) as [Hge|Hlt].
  { apply tracks_quiet; [repeat constructor|done]. }
  destruct (warm_file (fs_at E (c + 2)) fpath 16) as [rb|e] eqn:Hw.
  - apply warm_file_nonneg in Hw.
    specialize (IH (S i) (add_progressed (add_progressed (add_warmed rb st))) (c + 4)).
    destruct (file_loop budget false (S i) n rest _ E (c + 4)) as [r evs].
    apply tracks_app.
    + simpl. auto.
    + right. exists [EvFlag false; EvStat fpath (Ok size)], i, fpath, rb,
        (warmed_total st + rb)%Z, []. simpl. split; [done|]. split; [lia|done].
    + simpl in *. by rewrite Z.add_0_r.
  - specialize (IH (S i) (add_progressed st) (c + 4)).
    destruct (file_loop budget false (S i) n rest _ E (c + 4)) as [r evs].
    apply tracks_app.
    + simpl. auto.
    + by left.
    + simpl in *. by rewrite Z.add_0_r.
Qed.

Lemma warm_target_tracks t st c :
  tracks budget (warmed_total st) (warm_target budget dry t st E c).
Proof.
  rewrite warm_target_unfold. cbv zeta.
  destruct (files_sort _ _) as [files|e].
  2: { apply tracks_quiet_raise. repeat constructor. }
  pose proof (file_loop_tracks files 1 (length files) (reset_warmed st) (c + 3)) as H.
  destruct (file_loop budget dry 1 (length files) files (reset_warmed st) E (c + 3))
    as [[st'|e] evs].
  - apply tracks_app.
    + apply quiet_budget_kept. repeat constructor.
    + apply quiet_last_started_below. repeat constructor.
    + simpl. rewrite Z.add_0_r.
      destruct H as (Hk & Hl & Hst). simpl in *.
      assert (Hq : Forall quiet [EvLog (LDone t (warmed st'))]) by repeat constructor.
      split; [|split].
      * apply budget_kept_app. split; [done|]. by apply quiet_budget_kept.
      * apply last_started_below_app; [done|]. by apply quiet_last_started_below.
      * simpl. intros ? [= <-]. rewrite bytes_warmed_app, (Hst st' eq_refl). simpl. lia.
  - apply tracks_app.
    + apply quiet_budget_kept. repeat constructor.
    + apply quiet_last_started_below. repeat constructor.
    + simpl. by rewrite Z.add_0_r.
Qed.

Lemma target_loop_tracks targets st c :
  tracks budget (warmed_total st) (target_loop budget dry targets st E c).
Proof.
  revert st c. induction targets as [|t rest IH]; intros st c.
  { apply tracks_quiet; [constructor|done]. }
  rewrite target_loop_cons.
  destruct (stop_flag E c).
  { apply tracks_quiet; [repeat constructor|done]. }
  pose proof (warm_target_tracks t st (c + 1)) as H.
  destruct (warm_target budget dry t st E (c + 1)) as [[st'|e] evs].
  - destruct H as (Hk & Hl & Hst). simpl in *.
    specialize (IH st' (c + 1 + length evs)).
    destruct (target_loop budget dry rest st' E (c + 1 + length evs)) as [r evs'].
    rewrite (Hst st' eq_refl) in IH.
    apply (tracks_app _ [EvFlag false]); [done|by left|].
    simpl. rewrite Z.add_0_r. by apply tracks_app.
  - apply (tracks_app _ [EvFlag false]); [done|by left|].
    simpl. by rewrite Z.add_0_r.
Qed.

Lemma worker_tracks targets c :
  budget_kept budget 0 (worker budget dry targets E c).2
  ∧ last_started_below budget 0 (worker budget dry targets E c).2
  ∧ (∀ u, (worker budget dry targets E c).1 = Ok u →
       ∃ tr, (worker budget dry targets E c).2
             = tr ++ [EvLog (LAllDone (bytes_warmed tr))]).
Proof.
  destruct (worker_unfold budget dry E targets c) as (k & evs0 & _ & Hen & ->).
  assert (Hq : Forall quiet evs0).
  { eapply Forall_impl; [exact Hen|]. by intros e (t & files & ->). }
  pose proof (target_loop_tracks targets
    {| warmed_total := 0; warmed := 0; progressed := 0 |} (c + length evs0)) as H.
  destruct (target_loop _ _ _ _ _ _) as [[st|e] evs]; destruct H as (Hk & Hl & Hst);
    simpl in *.
  - assert (Hq' : Forall quiet [EvLog (LAllDone (warmed_total st))])
      by repeat constructor.
    rewrite (Hst st eq_refl) in *.
    split; [|split].
    + apply budget_kept_app. split; [by apply quiet_budget_kept|].
      rewrite (quiet_bytes_warmed evs0 Hq). apply budget_kept_app.
      split; [done|]. by apply quiet_budget_kept.
    + apply last_started_below_app; [by apply quiet_last_started_below|].
      rewrite (quiet_bytes_warmed evs0 Hq).
      apply last_started_below_app; [done|]. by apply quiet_last_started_below.
    + intros _ _. exists (evs0 ++ evs). rewrite <- app_assoc.
      by rewrite bytes_warmed_app, (quiet_bytes_warmed evs0 Hq).
  - split; [|split; [|done]].
    + apply budget_kept_app. split; [by apply quiet_budget_kept|].
      by rewrite (quiet_bytes_warmed evs0 Hq).
    + apply last_started_below_app; [by apply quiet_last_started_below|].
      by rewrite (quiet_bytes_warmed evs0 Hq).
Qed.
End budget.

Lemma budget_kept_open budget w tr1 fpath tr2 :
  budget_kept budget w (tr1 ++ EvWarmFile fpath :: tr2) →
  (w + bytes_warmed tr1 < budget)%Z.
Proof. rewrite budget_kept_app. simpl. tauto. Qed.

Lemma budget_kept_warmed budget w tr1 i fpath rb total tr2 :
  budget_kept budget w (tr1 ++ EvLog (LWarmed i fpath rb total) :: tr2) →
  (0 ≤ rb)%Z ∧ total = (w + bytes_warmed tr1 + rb)%Z.
Proof. rewrite budget_kept_app. simpl. tauto. Qed.

(** C2: in a session that is not a dry run, with a budget [0 <= budget],
    the bytes warmed never decrease from one point of the run to a later
    one; every "warmed" line adds a count [rb >= 0] and shows the running
    total; [warm_file] is only called when the total is below the budget, so
    the comparison is made before a file is opened; and at the end the total
    is at most the budget plus the bytes of one file, a file whose warm was
    started while the total was below the budget.  When the worker returns,
    the summary line carries that total. *)
Theorem worker_keeps_budget (E : Env) (budget : Z) (targets : list Path) :
  (0 ≤ budget)%Z →
  (∀ tr1 tr2 tr3, (worker budget false targets E 0).2 = tr1 ++ tr2 ++ tr3 →
     (0 ≤ bytes_warmed tr1 ≤ bytes_warmed (tr1 ++ tr2))%Z)
  ∧ (∀ tr1 i fpath rb total tr2,
       (worker budget false targets E 0).2
       = tr1 ++ EvLog (LWarmed i fpath rb total) :: tr2 →
       (0 ≤ rb)%Z ∧ total = (bytes_warmed tr1 + rb)%Z)
  ∧ (∀ tr1 fpath tr2,
       (worker budget false targets E 0).2 = tr1 ++ EvWarmFile fpath :: tr2 →
       (bytes_warmed tr1 < budget)%Z)
  ∧ (∃ extra : Z,
       (bytes_warmed (worker budget false targets E 0%nat).2 ≤ budget + extra)%Z
       ∧ (extra = 0%Z
          ∨ ∃ tr1 i fpath total tr2,
              (worker budget false targets E 0).2
              = tr1 ++ EvWarmFile fpath :: EvLog (LWarmed i fpath extra total) :: tr2
              ∧ (bytes_warmed tr1 < budget)%Z))
  ∧ (∀ u, (worker budget false targets E 0).1 = Ok u →
       last (worker budget false targets E 0).2
       = Some (EvLog (LAllDone (bytes_warmed (worker budget false targets E 0).2)))).
Proof.
  intros Hb.
  destruct (worker_tracks budget false E targets 0) as (Hk & Hl & Hsum).
  split; [|split; [|split; [|split]]].
  - intros tr1 tr2 tr3 Htr. rewrite Htr in Hk.
    apply budget_kept_app in Hk as [Hk1 Hk23].
    apply budget_kept_app in Hk23 as [Hk2 _].
    apply budget_kept_nonneg in Hk1, Hk2. rewrite bytes_warmed_app. lia.
  - intros tr1 i fpath rb total tr2 Htr. rewrite Htr in Hk.
    apply budget_kept_warmed in Hk. by rewrite Z.add_0_l in Hk.
  - intros tr1 fpath tr2 Htr. rewrite Htr in Hk.
    apply budget_kept_open in Hk. by rewrite Z.add_0_l in Hk.
  - destruct Hl as [H0|(tr1 & i & fpath & rb & total & tr2 & Htr & Hlt & H2)].
    + exists 0%Z. split; [lia|by left].
    + exists rb. rewrite Z.add_0_l in Hlt. split.
      * rewrite Htr, bytes_warmed_app. simpl. lia.
      * right. by exists tr1, i, fpath, total, tr2.
  - intros u Hu. destruct (Hsum u Hu) as (tr & Htr). rewrite Htr.
    rewrite last_snoc, bytes_warmed_app. simpl. do 3 f_equal. lia.
Qed.

Example worker_scenario_budget_4 :
  worker 4 false [["r"%string]] scenario_env 0 =
  (Ok (),
   [ EvEnumerate ["r"]
       [["r"; "mods"; "A.jar"]; ["r"; "mods"; "big.JAR"];
        ["r"; "config"; "b.toml"]; ["r"; "art"; "c.png"]];
     EvFlag false; EvLog (LStart ["r"]);
     EvEnumerate ["r"]
       [["r"; "mods"; "A.jar"]; ["r"; "mods"; "big.JAR"];
        ["r"; "config"; "b.toml"]; ["r"; "art"; "c.png"]];
     EvSort [["r"; "mods"; "A.jar"]; ["r"; "mods"; "big.JAR"];
             ["r"; "config"; "b.toml"]; ["r"; "art"; "c.png"]]
            (Ok [["r"; "mods"; "big.JAR"]; ["r"; "mods"; "A.jar"];
                 ["r"; "config"; "b.toml"]; ["r"; "art"; "c.png"]]);
     EvFlag false; EvStat ["r"; "mods"; "big.JAR"] (Ok 5%Z);
     EvWarmFile ["r"; "mods"; "big.JAR"];
     EvLog (LWarmed 1 ["r"; "mods"; "big.JAR"] 5 5);
     EvFlag false; EvStat ["r"; "mods"; "A.jar"] (Ok 3%Z);
     EvLog LHitLimit; EvLog (LDone ["r"] 5); EvLog (LAllDone 5) ])%string.
Proof. vm_compute. reflexivity. Qed.

Lemma worker_keeps_budget_witness :
  (0 ≤ 4)%Z
  ∧ ∃ extra : Z,
      (bytes_warmed (worker 4 false [["r"%string]] scenario_env 0%nat).2 ≤ 4 + extra)%Z
      ∧ (extra = 0%Z
         ∨ ∃ tr1 i fpath total tr2,
             (worker 4 false [["r"%string]] scenario_env 0).2
             = tr1 ++ EvWarmFile fpath :: EvLog (LWarmed i fpath extra total) :: tr2
             ∧ (bytes_warmed tr1 < 4)%Z).
Proof.
  assert (H4 : (0 ≤ 4)%Z) by lia.
  split; [exact H4|].
  apply (worker_keeps_budget scenario_env 4 [["r"%string]] H4).
Defined.

(** *** What follows a size query *)





Section steps.
Context (budget : Z) (dry : bool) (E : Env).




End steps.

(** *** A budget of zero bytes *)

Lemma budget_kept_no_open budget w tr :
  budget_kept budget w tr → (budget ≤ w)%Z → opened tr = [].
Proof.
  revert w. induction tr as [|[| | | | |[]] tr IH]; intros w; simpl; try done;
    try apply IH.
  - intros [Hlt _] Hge. lia.
  - intros (Hrb & _ & H) Hge. apply (IH _ H). lia.
Qed.





Section zero_budget.
Context (E : Env).





End zero_budget.


Example worker_scenario_budget_0 :
  worker 0 false [["r"%string]] scenario_env 0 =
  (Ok (),
   [ EvEnumerate ["r"]
       [["r"; "mods"; "A.jar"]; ["r"; "mods"; "big.JAR"];
        ["r"; "config"; "b.toml"]; ["r"; "art"; "c.png"]];
     EvFlag false; EvLog (LStart ["r"]);
     EvEnumerate ["r"]
       [["r"; "mods"; "A.jar"]; ["r"; "mods"; "big.JAR"];
        ["r"; "config"; "b.toml"]; ["r"; "art"; "c.png"]];
     EvSort [["r"; "mods"; "A.jar"]; ["r"; "mods"; "big.JAR"];
             ["r"; "config"; "b.toml"]; ["r"; "art"; "c.png"]]
            (Ok [["r"; "mods"; "big.JAR"]; ["r"; "mods"; "A.jar"];
                 ["r"; "config"; "b.toml"]; ["r"; "art"; "c.png"]]);
     EvFlag false; EvStat ["r"; "mods"; "big.JAR"] (Ok 5%Z);
     EvLog LHitLimit; EvLog (LDone ["r"] 0); EvLog (LAllDone 0) ])%string.
Proof. vm_compute. reflexivity. Qed.


(** *** Dry runs *)

Lemma sort_keys_snd fs files keyed :
  sort_keys fs files = Ok keyed → keyed.*2 = files.
Proof.
  revert keyed. induction files as [|p rest IH]; intros keyed; simpl.
  { by intros [= <-]. }
  destruct (sort_key fs p) as [k|e]; simpl; [|done].
  destruct (sort_keys fs rest) as [ks|e]; simpl; [|done].
  intros [= <-]. by rewrite fmap_cons, (IH ks).
Qed.

Lemma files_sort_perm fs files ranked :
  files_sort fs files = Ok ranked → ranked ≡ₚ files.
Proof.
  unfold files_sort. destruct (sort_keys fs files) as [keyed|e] eqn:Hk; simpl; [|done].
  intros [= <-]. rewrite <- (sort_keys_snd fs files keyed Hk).
  apply fmap_Permutation, sorted_perm.
Qed.

Lemma dry_loop_event_dry e : dry_loop_event e → dry_event e.
Proof. by destruct e as [| | | | |[]]. Qed.





Section dry_run.
Context (budget : Z) (E : Env).

Lemma file_loop_dry_events files i n st c :
  Forall dry_loop_event (file_loop budget true i n files st E c).2.
Proof.
  revert i st c. induction files as [|fpath rest IH]; intros i st c; [constructor|].
  rewrite file_loop_cons.
  destruct (stop_flag E c); [by repeat constructor|].
  destruct (st_size (fs_at E (c + 1)) fpath) as [size|e]; [|by repeat constructor].
  specialize (IH (S i) st (c + 3)).
  destruct (file_loop budget true (S i) n rest st E (c + 3)) as [r evs].
  simpl in *. by repeat constructor.
Qed.

Lemma warm_target_dry_events t st c :
  Forall dry_event (warm_target budget true t st E c).2.
Proof.
  rewrite warm_target_unfold. cbv zeta.
  destruct (files_sort _ _) as [files|e]; [|by repeat constructor].
  pose proof (file_loop_dry_events files 1 (length files) (reset_warmed st) (c + 3))
    as H.
  apply (Forall_impl _ dry_event) in H; [|apply dry_loop_event_dry].
  destruct (file_loop budget true 1 (length files) files (reset_warmed st) E (c + 3))
    as [[st'|e] evs]; simpl in *.
  - repeat constructor. apply Forall_app. split; [done|by repeat constructor].
  - by repeat constructor.
Qed.

Lemma target_loop_dry_events targets st c :
  Forall dry_event (target_loop budget true targets st E c).2.
Proof.
  revert st c. induction targets as [|t rest IH]; intros st c; [constructor|].
  rewrite target_loop_cons.
  destruct (stop_flag E c); [by repeat constructor|].
  pose proof (warm_target_dry_events t st (c + 1)) as H.
  destruct (warm_target budget true t st E (c + 1)) as [[st'|e] evs]; simpl in *.
  - specialize (IH st' (c + 1 + length evs)).
    destruct (target_loop budget true rest st' E (c + 1 + length evs)) as [r evs'].
    simpl in *. constructor; [done|]. by apply Forall_app.
  - by constructor.
Qed.

Lemma worker_dry_events targets c :
  Forall dry_event (worker budget true targets E c).2.
Proof.
  destruct (worker_unfold budget true E targets c) as (k & evs0 & _ & Hen & ->).
  assert (H0 : Forall dry_event evs0).
  { eapply Forall_impl; [exact Hen|]. by intros e (t & files & ->). }
  pose proof (target_loop_dry_events targets
    {| warmed_total := 0; warmed := 0; progressed := 0 |} (c + length evs0)) as H.
  destruct (target_loop _ _ _ _ _ _) as [[st|e] evs]; simpl in *.
  - apply Forall_app. split; [done|]. apply Forall_app. split; [done|].
    by repeat constructor.
  - by apply Forall_app.
Qed.




End dry_run.




(** *** Cancellation *)

Lemma stop_respected_app T c evs1 evs2 :
  stop_respected T c evs1 →
  stop_respected T (c + length evs1) evs2 →
  stop_respected T c (evs1 ++ evs2).
Proof.
  intros (A1 & B1 & C1) (A2 & B2 & C2). unfold stop_respected.
  rewrite opened_app, length_app, completed_app, take_app, completed_app.
  replace (T - c - length evs1) with (T - (c + length evs1)) by lia.
  split; [lia|]. split.
  { intros Hc. rewrite B1, B2 by lia. done. }
  destruct (decide (T ≤ c + length evs1)) as [Hle|Hgt].
  - rewrite B2 by done. simpl. lia.
  - rewrite take_ge by lia. lia.
Qed.

Lemma stop_respected_no_open T c evs : opened evs = [] → stop_respected T c evs.
Proof. intros H. unfold stop_respected. rewrite H. simpl. split; [lia|]. split; [done|lia]. Qed.

Section cancellation.
Context (budget : Z) (dry : bool) (E : Env) (T : nat).
Hypothesis flag_stays_set : ∀ t, T ≤ t → stop_flag E t = true.

Lemma file_loop_stop_respected files i n st c :
  stop_respected T c (file_loop budget dry i n files st E c).2.
Proof using flag_stays_set.
  revert i st c. induction files as [|fpath rest IH]; intros i st c.
  { by apply stop_respected_no_open. }
  rewrite file_loop_cons.
  destruct (stop_flag E c) eqn:Hflag; [by apply stop_respected_no_open|].
  assert (Hc : c < T).
  { destruct (decide (c < T)); [done|]. rewrite flag_stays_set in Hflag by lia. done. }
  destruct (st_size (fs_at E (c + 1)) fpath) as [size|e];
    [|by apply stop_respected_no_open].
  destruct dry.
  { specialize (IH (S i) st (c + 3)).
    destruct (file_loop budget true (S i) n rest st E (c + 3)) as [r evs].
    apply stop_respected_app; [by apply stop_respected_no_open|done]. }
  destruct (budget <=? warmed_total st)%Z; [by apply stop_respected_no_open|].
  destruct (warm_file (fs_at E (c + 2)) fpath 16) as [rb|e].
  - specialize (IH (S i) (add_progressed (add_progressed (add_warmed rb st))) (c + 4)).
    destruct (file_loop budget false (S i) n rest _ E (c + 4)) as [r evs].
    apply stop_respected_app; [|done].
    unfold stop_respected, completed. simpl. split; [lia|]. split; lia.
  - specialize (IH (S i) (add_progressed st) (c + 4)).
    destruct (file_loop budget false (S i) n rest _ E (c + 4)) as [r evs].
    apply stop_respected_app; [|done].
    unfold stop_respected, completed. simpl. split; [lia|]. split; lia.
Qed.

Lemma warm_target_stop_respected t st c :
  stop_respected T c (warm_target budget dry t st E c).2.
Proof using flag_stays_set.
  rewrite warm_target_unfold. cbv zeta.
  destruct (files_sort _ _) as [files|e]; [|by apply stop_respected_no_open].
  pose proof (file_loop_stop_respected files 1 (length files) (reset_warmed st) (c + 3))
    as H.
  destruct (file_loop budget dry 1 (length files) files (reset_warmed st) E (c + 3))
    as [[st'|e] evs]; simpl in H.
  - apply (stop_respected_app _ _ [_; _; _]); [by apply stop_respected_no_open|].
    apply stop_respected_app; [done|by apply stop_respected_no_open].
  - apply (stop_respected_app _ _ [_; _; _]); [by apply stop_respected_no_open|done].
Qed.

Lemma target_loop_stop_respected targets st c :
  stop_respected T c (target_loop budget dry targets st E c).2.
Proof using flag_stays_set.
  revert st c. induction targets as [|t rest IH]; intros st c.
  { by apply stop_respected_no_open. }
  rewrite target_loop_cons.
  destruct (stop_flag E c); [by apply stop_respected_no_open|].
  pose proof (warm_target_stop_respected t st (c + 1)) as H.
  destruct (warm_target budget dry t st E (c + 1)) as [[st'|e] evs]; simpl in H.
  - specialize (IH st' (c + 1 + length evs)).
    destruct (target_loop budget dry rest st' E (c + 1 + length evs)) as [r evs'].
    apply (stop_respected_app _ _ [_]); [by apply stop_respected_no_open|].
    by apply stop_respected_app.
  - apply (stop_respected_app _ _ [_]); [by apply stop_respected_no_open|done].
Qed.

Lemma worker_stop_respected targets c :
  stop_respected T c (worker budget dry targets E c).2.
Proof using flag_stays_set.
  destruct (worker_unfold budget dry E targets c) as (k & evs0 & _ & Hen & ->).
  assert (H0 : opened evs0 = []).
  { apply quiet_opened. eapply Forall_impl; [exact Hen|].
    by intros e (t & files & ->). }
  pose proof (target_loop_stop_respected targets
    {| warmed_total := 0; warmed := 0; progressed := 0 |} (c + length evs0)) as H.
  destruct (target_loop _ _ _ _ _ _) as [[st|e] evs]; simpl in H.
  - apply stop_respected_app; [by apply stop_respected_no_open|].
    apply stop_respected_app; [done|by apply stop_respected_no_open].
  - apply stop_respected_app; [by apply stop_respected_no_open|done].
Qed.
End cancellation.

(** C5: let the cancellation flag read [True] from time [T] on.  In the file
    loop of a target, started at any time [c] in any state, the number of
    calls of [warm_file] is at most one more than the number of files of
    that target completed before [T]; and the same bound holds for the whole
    session, counted over all targets. *)
Theorem stop_opens_at_most_one_more (E : Env) (budget : Z) (dry : bool) (T : nat) :
  (∀ t, T ≤ t → stop_flag E t = true) →
  (∀ i n files st c,
     length (opened (file_loop budget dry i n files st E c).2)
     ≤ completed (take (T - c) (file_loop budget dry i n files st E c).2) + 1)
  ∧ (∀ targets,
       length (opened (worker budget dry targets E 0).2)
       ≤ completed (take T (worker budget dry targets E 0).2) + 1).
Proof.
  intros Hflag. split.
  - intros i n files st c.
    by destruct (file_loop_stop_respected budget dry E T Hflag files i n st c)
      as (_ & _ & H).
  - intros targets.
    destruct (worker_stop_respected budget dry E T Hflag targets 0) as (_ & _ & H).
    by rewrite Nat.sub_0_r in H.
Qed.

Example worker_stopped_env :
  opened (worker 100 false [["r"%string]] stopped_env 0).2
  = [ ["r"; "mods"; "big.JAR"]%string ]
  ∧ completed (take 8 (worker 100 false [["r"%string]] stopped_env 0).2) = 0.
Proof. split; vm_compute; reflexivity. Qed.

Lemma stop_opens_at_most_one_more_witness :
  length (opened (worker 100 false [["r"%string]] stopped_env 0).2)
  ≤ completed (take 8 (worker 100 false [["r"%string]] stopped_env 0).2) + 1.
Proof.
  apply (stop_opens_at_most_one_more stopped_env 100 false 8).
  intros t Ht. by apply bool_decide_eq_true.
Defined.

(** *** Errors of single files *)

(** An exception of [warm_file] is caught: the error line is logged, the
    loop goes on, and [warmed_total] is what it was. *)
Lemma try_warm_recovers i fpath st E c e :
  warm_file (fs_at E c) fpath 16 = Raise e →
  try_warm i fpath st E c
  = (Ok (add_progressed st), [EvWarmFile fpath; EvLog (LError i fpath e)])
  ∧ warmed_total (add_progressed st) = warmed_total st.
Proof. intros H. by rewrite try_warm_unfold, H. Qed.

Lemma try_warm_returns i fpath st E c :
  ∃ st' evs, try_warm i fpath st E c = (Ok st', evs).
Proof. rewrite try_warm_unfold. destruct (warm_file _ _ _); by eexists _, _. Qed.

Lemma ends_in_failed_stat_app e evs1 evs2 :
  ends_in_failed_stat e evs2 → ends_in_failed_stat e (evs1 ++ evs2).
Proof.
  intros [tr [[files ->]|[p ->]]]; exists (evs1 ++ tr); rewrite app_assoc;
    [left; by exists files|right; by exists p].
Qed.

(** The worker only dies of a size query made outside the [try]. *)
Section deaths.
Context (budget : Z) (dry : bool) (E : Env).

Lemma file_loop_raises files i n st c e :
  (file_loop budget dry i n files st E c).1 = Raise e →
  ends_in_failed_stat e (file_loop budget dry i n files st E c).2.
Proof.
  revert i st c. induction files as [|fpath rest IH]; intros i st c; [done|].
  rewrite file_loop_cons.
  destruct (stop_flag E c); [done|].
  destruct (st_size (fs_at E (c + 1)) fpath) as [size|e'].
  2: { intros [= ->]. exists [EvFlag false]. right. by exists fpath. }
  destruct dry.
  { specialize (IH (S i) st (c + 3)).
    destruct (file_loop budget true (S i) n rest st E (c + 3)) as [r evs].
    intros H. by apply ends_in_failed_stat_app, IH. }
  destruct (budget <=? warmed_total st)%Z; [done|].
  destruct (warm_file (fs_at E (c + 2)) fpath 16) as [rb|e'].
  - specialize (IH (S i) (add_progressed (add_progressed (add_warmed rb st))) (c + 4)).
    destruct (file_loop budget false (S i) n rest _ E (c + 4)) as [r evs].
    intros H. by apply ends_in_failed_stat_app, IH.
  - specialize (IH (S i) (add_progressed st) (c + 4)).
    destruct (file_loop budget false (S i) n rest _ E (c + 4)) as [r evs].
    intros H. by apply ends_in_failed_stat_app, IH.
Qed.

Lemma warm_target_raises t st c e :
  (warm_target budget dry t st E c).1 = Raise e →
  ends_in_failed_stat e (warm_target budget dry t st E c).2.
Proof.
  rewrite warm_target_unfold. cbv zeta.
  destruct (files_sort _ _) as [files|e'].
  2: { intros [= ->]. eexists [EvLog (LStart t); EvEnumerate t _]. left. by eexists. }
  pose proof (file_loop_raises files 1 (length files) (reset_warmed st) (c + 3) e) as H.
  destruct (file_loop budget dry 1 (length files) files (reset_warmed st) E (c + 3))
    as [[st'|e'] evs]; [done|].
  intros Hr. by apply ends_in_failed_stat_app, H.
Qed.

Lemma target_loop_raises targets st c e :
  (target_loop budget dry targets st E c).1 = Raise e →
  ends_in_failed_stat e (target_loop budget dry targets st E c).2.
Proof.
  revert st c. induction targets as [|t rest IH]; intros st c; [done|].
  rewrite target_loop_cons.
  destruct (stop_flag E c); [done|].
  pose proof (warm_target_raises t st (c + 1) e) as H.
  destruct (warm_target budget dry t st E (c + 1)) as [[st'|e'] evs].
  - specialize (IH st' (c + 1 + length evs)).
    destruct (target_loop budget dry rest st' E (c + 1 + length evs)) as [r evs'].
    intros Hr. apply (ends_in_failed_stat_app _ (_ :: _)), IH, Hr.
  - intros Hr. apply (ends_in_failed_stat_app _ [_]), H, Hr.
Qed.

Lemma worker_raises targets c e :
  (worker budget dry targets E c).1 = Raise e →
  ends_in_failed_stat e (worker budget dry targets E c).2.
Proof.
  destruct (worker_unfold budget dry E targets c) as (k & evs0 & _ & _ & ->).
  pose proof (target_loop_raises targets
    {| warmed_total := 0; warmed := 0; progressed := 0 |} (c + length evs0) e) as H.
  destruct (target_loop _ _ _ _ _ _) as [[st|e'] evs]; [done|].
  simpl in *. intros [= ->]. by apply ends_in_failed_stat_app, H.
Qed.
End deaths.

(** C1 fails on the code.  The [try] of the worker is around [warm_file]
    only; the size query [fpath.stat().st_size] at the head of the loop body
    is outside it.  In [vanishing_env] the file [mods/big.JAR] is deleted after
    it was ranked: the query raises [FileNotFoundError], the worker dies with
    it, no error line and no summary line are logged, and [mods/A.jar] is
    never warmed. *)
Theorem worker_dies_when_file_vanishes :
  worker 100 false [["r"%string]] vanishing_env 0 =
  (Raise FileNotFoundError,
   [ EvEnumerate ["r"]
       [["r"; "mods"; "A.jar"]; ["r"; "mods"; "big.JAR"];
        ["r"; "config"; "b.toml"]; ["r"; "art"; "c.png"]];
     EvFlag false; EvLog (LStart ["r"]);
     EvEnumerate ["r"]
       [["r"; "mods"; "A.jar"]; ["r"; "mods"; "big.JAR"];
        ["r"; "config"; "b.toml"]; ["r"; "art"; "c.png"]];
     EvSort [["r"; "mods"; "A.jar"]; ["r"; "mods"; "big.JAR"];
             ["r"; "config"; "b.toml"]; ["r"; "art"; "c.png"]]
            (Ok [["r"; "mods"; "big.JAR"]; ["r"; "mods"; "A.jar"];
                 ["r"; "config"; "b.toml"]; ["r"; "art"; "c.png"]]);
     EvFlag false;
     EvStat ["r"; "mods"; "big.JAR"] (Raise FileNotFoundError) ])%string
  ∧ warm_file (fs_at vanishing_env 7) ["r"; "mods"; "big.JAR"]%string 16
    = Raise FileNotFoundError
  ∧ try_warm 1 ["r"; "mods"; "big.JAR"]%string
      {| warmed_total := 0; warmed := 0; progressed := 0 |} vanishing_env 7
    = (Ok {| warmed_total := 0; warmed := 0; progressed := 1 |},
       [ EvWarmFile ["r"; "mods"; "big.JAR"]%string;
         EvLog (LError 1 ["r"; "mods"; "big.JAR"]%string FileNotFoundError) ]).
Proof. repeat split; vm_compute; reflexivity. Qed.

(** * Further properties *)

(** ** The file enumerator, further *)

Lemma try_body_seen fs seen p key :
  try_body fs seen p = Ok (Seen key) →
  registers fs p key ∧ (key ∉ seen) ∧ has_skip_part p = true.
Proof.
  unfold try_body, registers.
  destruct (is_file fs p) as [[|]|] eqn:Hf; simpl; try discriminate.
  destruct (key_of fs p) as [k|] eqn:Hk; simpl; try discriminate.
  case_bool_decide; try discriminate.
  destruct (has_skip_part p); intros [= <-]; auto.
Qed.

Lemma iter_matches_sublist fs ms seen :
  (iter_matches fs ms seen).1 `sublist_of` ms.
Proof.
  revert seen. induction ms as [|p ms IH]; intros seen; simpl; [done|].
  destruct (try_body fs seen p) as [[|key|key]|e].
  1,2,4: by apply sublist_cons.
  specialize (IH ({[key]} ∪ seen)).
  destruct (iter_matches fs ms ({[key]} ∪ seen)) as [out seen']. simpl in *.
  by apply sublist_skip.
Qed.

Lemma elem_of_all_matches fs root patterns p :
  p ∈ all_matches fs root patterns ↔
  ∃ pattern, pattern ∈ patterns ∧ p ∈ rglob fs root pattern.
Proof.
  unfold all_matches. induction patterns as [|pat rest IH]; simpl.
  { split; [intros H; inversion H|intros (? & H & _); inversion H]. }
  rewrite elem_of_app, IH. split.
  - intros [H|(pattern & Hin & H)]; [exists pat|exists pattern]; set_solver.
  - intros (pattern & Hin & H). apply elem_of_cons in Hin as [->|Hin]; eauto.
Qed.

(** X1: [iter_files] yields only paths that some pattern matched and that
    [is_file()] accepted, in the order the loops met them: the patterns in
    order, and for each pattern the matches in the order of [rglob]. *)
Theorem iter_files_yields_matched_files (fs : FS) (root : Path) (patterns : list string) :
  iter_files fs root patterns `sublist_of` all_matches fs root patterns
  ∧ Forall (fun p => is_file fs p = Ok true
                     ∧ ∃ pattern, pattern ∈ patterns ∧ p ∈ rglob fs root pattern)
      (iter_files fs root patterns).
Proof.
  unfold iter_files. rewrite iter_patterns_flat.
  pose proof (iter_matches_sublist fs (all_matches fs root patterns) ∅) as Hsub.
  destruct (iter_matches fs (all_matches fs root patterns) ∅) as [out seen'] eqn:H.
  simpl in *. split; [done|].
  apply iter_matches_inv in H as (_ & Hall & _).
  rewrite Forall_forall in Hall |- *. intros p Hp.
  destruct (Hall p Hp) as (_ & k & [Hf _] & _). split; [done|].
  apply elem_of_all_matches. by apply (elem_of_sublist _ _ _ Hp Hsub).
Qed.

(** What the inner loop does with an identity that one of its matches
    registers. *)
Lemma iter_matches_complete fs ms seen m k :
  m ∈ ms → registers fs m k →
  k ∈ seen
  ∨ (∃ p, p ∈ (iter_matches fs ms seen).1 ∧ key_of fs p = Ok k)
  ∨ (∃ m', m' ∈ ms ∧ registers fs m' k ∧ has_skip_part m' = true).
Proof.
  revert seen. induction ms as [|p ms IH]; intros seen Hm Hr; [inversion Hm|].
  assert (Hhead : ∀ key (out : list Path),
    registers fs p key → key = k →
    (has_skip_part p = true ∨ p ∈ out) →
    (∃ q, q ∈ out ∧ key_of fs q = Ok k)
    ∨ (∃ m', m' ∈ p :: ms ∧ registers fs m' k ∧ has_skip_part m' = true)).
  { intros key out Hp -> [Hs|Hin].
    - right. exists p. split; [left|done].
    - left. exists p. by destruct Hp. }
  assert (Htail : ∀ out : list Path,
    (∃ m', m' ∈ ms ∧ registers fs m' k ∧ has_skip_part m' = true) →
    (∃ q, q ∈ out ∧ key_of fs q = Ok k)
    ∨ (∃ m', m' ∈ p :: ms ∧ registers fs m' k ∧ has_skip_part m' = true)).
  { intros out (m' & Hin & H). right. exists m'. split; [by right|done]. }
  apply elem_of_cons in Hm as [->|Hm].
  - simpl. destruct (try_body_registers fs seen p k Hr) as [[Hin _]|[Hin Hb]];
      [by left|right].
    rewrite Hb. destruct (has_skip_part p) eqn:Hs.
    + apply (Hhead k); auto.
    + destruct (iter_matches fs ms ({[k]} ∪ seen)) as [out seen']. simpl.
      apply (Hhead k); auto. right. left.
  - simpl. destruct (try_body fs seen p) as [[|key|key]|e] eqn:Hb.
    + destruct (IH seen Hm Hr) as [?|[(q & Hq & Hk)|H]]; [by left|right..].
      * left. eauto.
      * by apply Htail.
    + apply try_body_seen in Hb as (Hp & _ & Hs).
      destruct (IH ({[key]} ∪ seen) Hm Hr) as [Hin|[(q & Hq & Hk)|H]].
      * apply elem_of_union in Hin as [Hin|Hin]; [right|by left].
        apply elem_of_singleton in Hin. apply (Hhead key); auto.
      * right. left. eauto.
      * right. by apply Htail.
    + apply try_body_yield in Hb as (Hp & _ & Hs).
      specialize (IH ({[key]} ∪ seen) Hm Hr).
      destruct (iter_matches fs ms ({[key]} ∪ seen)) as [out seen']. simpl in *.
      destruct IH as [Hin|[(q & Hq & Hk)|H]].
      * apply elem_of_union in Hin as [Hin|Hin]; [right|by left].
        apply elem_of_singleton in Hin. apply (Hhead key); auto. right. left.
      * right. left. exists q. split; [by right|done].
      * right. destruct (Htail out H) as [(q & Hq & Hk)|H']; [left|by right].
        exists q. split; [by right|done].
    + destruct (IH seen Hm Hr) as [?|[(q & Hq & Hk)|H]]; [by left|right..].
      * left. eauto.
      * by apply Htail.
Qed.

(** X2: no identity is lost without a reason.  When a match is a regular
    file with the identity [k], then a path with the identity [k] is yielded,
    or some match with that identity lies under a skip directory. *)
Theorem iter_files_complete
    (fs : FS) (root : Path) (patterns : list string) (m k : Path) :
  m ∈ all_matches fs root patterns →
  registers fs m k →
  (∃ p, p ∈ iter_files fs root patterns ∧ key_of fs p = Ok k)
  ∨ (∃ m', m' ∈ all_matches fs root patterns ∧ registers fs m' k
           ∧ has_skip_part m' = true).
Proof.
  intros Hm Hr. unfold iter_files. rewrite iter_patterns_flat.
  destruct (iter_matches_complete fs _ ∅ m k Hm Hr) as [Hin|H]; [|done].
  by apply not_elem_of_empty in Hin.
Qed.

Lemma iter_files_complete_witness :
  (∃ p, p ∈ iter_files alias_fs ["r"%string] DEFAULT_PATTERNS
        ∧ key_of alias_fs p = Ok ["r"; "mods"; "b.jar"]%string)
  ∨ (∃ m', m' ∈ all_matches alias_fs ["r"%string] DEFAULT_PATTERNS
           ∧ registers alias_fs m' ["r"; "mods"; "b.jar"]%string
           ∧ has_skip_part m' = true).
Proof.
  apply (iter_files_complete alias_fs ["r"%string] DEFAULT_PATTERNS
           ["r"; "mods"; "b.jar"]%string).
  - apply list_elem_of_In. vm_compute. tauto.
  - split; reflexivity.
Defined.

(** ** The file reader, further *)

Lemma read_fault f pos size k :
  (1 ≤ size ≤ PY_SSIZE_T_MAX)%Z → (size ≤ buffer_max f)%Z →
  fault f = Some k → pos ≤ k < length (data f) →
  read f pos size = Raise (OSError 5)
  ∨ ∃ b got, read f pos size = Ok (b :: got) ∧ pos + length (b :: got) ≤ k.
Proof.
  intros Hsz Hbuf Hf Hk. rewrite read_fits by lia. cbv zeta. rewrite Hf.
  destruct (Z.ltb_spec size 0); [lia|].
  set (got := take (Z.to_nat size) (drop pos (data f))).
  assert (Hlen : length got = Nat.min (Z.to_nat size) (length (data f) - pos)).
  { unfold got. by rewrite length_take, length_drop. }
  case_bool_decide as Hin; [by left|right].
  destruct got as [|b got]; simpl in *; [lia|].
  exists b, got. split; [done|]. lia.
Qed.

Lemma read_loop_fault f chunk pos total k :
  (1 ≤ chunk ≤ PY_SSIZE_T_MAX)%Z → (chunk ≤ buffer_max f)%Z →
  fault f = Some k → pos ≤ k < length (data f) →
  read_loop f chunk pos total = Raise (OSError 5).
Proof.
  intros Hc Hb Hf. funelim (read_loop f chunk pos total); intros Hk.
  all: try match goal with H : {| pr1 := _; pr2 := _ |} = _ |- _ => clear H end.
  all: match goal with e : read _ _ _ = ?r |- _ =>
         assert (Hres : read f pos chunk = r) by exact e end.
  all: destruct (read_fault f pos chunk k Hc Hb Hf Hk) as [Hrd|(b' & got' & Hrd & Hle)].
  all: rewrite Hrd in Hres; try discriminate Hres.
  - inversion Hres; subst.
    match goal with IH : ∀ k, _ → _ → _ → _ → read_loop _ _ _ _ = _ |- _ =>
      apply (IH k) end; [done..|].
    simpl in *. lia.
  - by inversion Hres.
Qed.

(** The exception of a read loop that raises at its first call. *)
Lemma read_loop_first_raise f chunk pos total e :
  read f pos chunk = Raise e → read_loop f chunk pos total = Raise e.
Proof.
  intros Hr. funelim (read_loop f chunk pos total).
  all: try match goal with H : {| pr1 := _; pr2 := _ |} = _ |- _ => clear H end.
  all: match goal with e : read _ _ _ = ?r |- _ =>
         assert (Hres : read f pos chunk = r) by exact e end.
  all: congruence.
Qed.

(** X3: a file with an unreadable byte.  For every [chunk_mb] whose chunk
    fits a C [ssize_t] and a buffer that can be allocated, [warm_file] raises
    the I/O error instead of returning the bytes it read before the fault.  In
    the worker, which uses the default chunk of 16 MB, the call raises: the
    I/O error when that buffer can be allocated, and the exception is caught
    and logged, nothing is added to the totals, and [progressed] advances by
    one. *)
Theorem warm_file_io_error_counts_nothing
    (i : nat) (fpath : Path) (st : locals) (E : Env) (c : nat)
    (size : Z) (f : FileIO) (k : nat) :
  st_size (fs_at E c) fpath = Ok size →
  open_rb (fs_at E c) fpath = Ok f →
  fault f = Some k →
  k < length (data f) →
  (∀ (chunk_mb : number) chunk,
     chunk_size chunk_mb = Ok chunk →
     (chunk ≤ PY_SSIZE_T_MAX)%Z → (chunk ≤ buffer_max f)%Z →
     warm_file (fs_at E c) fpath chunk_mb = Raise (OSError 5))
  ∧ ∃ e st',
      warm_file (fs_at E c) fpath 16 = Raise e
      ∧ ((16 * 1024 * 1024 ≤ buffer_max f)%Z → e = OSError 5)
      ∧ try_warm i fpath st E c
        = (Ok st', [EvWarmFile fpath; EvLog (LError i fpath e)])
      ∧ warmed_total st' = warmed_total st
      ∧ warmed st' = warmed st
      ∧ progressed st' = (progressed st + 1)%Z.
Proof.
  intros Hst Hop Hf Hk.
  assert (Hw : ∀ (chunk_mb : number) chunk,
     chunk_size chunk_mb = Ok chunk →
     (chunk ≤ PY_SSIZE_T_MAX)%Z → (chunk ≤ buffer_max f)%Z →
     warm_file (fs_at E c) fpath chunk_mb = Raise (OSError 5)).
  { intros chunk_mb chunk Hc Hmax Hbuf. unfold warm_file. rewrite Hst, Hop. simpl.
    rewrite Hc. simpl. pose proof (chunk_size_pos chunk_mb chunk Hc).
    apply (read_loop_fault f _ 0 0 k); [lia|done|done|lia]. }
  split; [done|].
  assert (He : ∃ e, warm_file (fs_at E c) fpath 16 = Raise e
                    ∧ ((16 * 1024 * 1024 ≤ buffer_max f)%Z → e = OSError 5)).
  { destruct (Z.le_gt_cases (16 * 1024 * 1024) (buffer_max f)) as [Hle|Hgt].
    - exists (OSError 5). split; [|done].
      apply (Hw (PyInt 16) (16 * 1024 * 1024)%Z); [reflexivity| |done].
      unfold PY_SSIZE_T_MAX. lia.
    - exists MemoryError. split; [|intros ?; lia].
      unfold warm_file. rewrite Hst, Hop. simpl.
      apply read_loop_first_raise. unfold read.
      destruct (Z.ltb_spec PY_SSIZE_T_MAX (Z.max 1 (16 * 1024 * 1024)));
        [unfold PY_SSIZE_T_MAX in *; lia|].
      destruct (Z.ltb_spec (buffer_max f) (Z.max 1 (16 * 1024 * 1024))); [done|lia]. }
  destruct He as (e & He & Heio). exists e. rewrite try_warm_unfold, He.
  eexists. by repeat split.
Qed.

Lemma warm_file_io_error_counts_nothing_witness :
  (∀ (chunk_mb : number) chunk,
     chunk_size chunk_mb = Ok chunk →
     (chunk ≤ PY_SSIZE_T_MAX)%Z → (chunk ≤ 2 ^ 40)%Z →
     warm_file (fs_at faulty_env 3) ["r"; "w.zip"]%string chunk_mb = Raise (OSError 5))
  ∧ ∃ e st',
      warm_file (fs_at faulty_env 3) ["r"; "w.zip"]%string 16 = Raise e
      ∧ ((16 * 1024 * 1024 ≤ 2 ^ 40)%Z → e = OSError 5)
      ∧ try_warm 1 ["r"; "w.zip"]%string
          {| warmed_total := 0; warmed := 0; progressed := 0 |} faulty_env 3
        = (Ok st', [EvWarmFile ["r"; "w.zip"]%string;
                    EvLog (LError 1 ["r"; "w.zip"]%string e)])
      ∧ warmed_total st' = 0%Z ∧ warmed st' = 0%Z ∧ progressed st' = (0 + 1)%Z.
Proof.
  apply (warm_file_io_error_counts_nothing 1 ["r"; "w.zip"]%string
           {| warmed_total := 0; warmed := 0; progressed := 0 |} faulty_env 3
           3%Z {| data := [Byte.x50; Byte.x4b; Byte.x03]; fault := Some 1%nat;
                  buffer_max := 2 ^ 40 |} 1%nat).
  - reflexivity.
  - reflexivity.
  - reflexivity.
  - simpl. lia.
Defined.

(** ** The priority sorter, further *)

Lemma stat_all_or_first fs (files : list Path) :
  (∀ p, p ∈ files → ∃ size, st_size fs p = Ok size)
  ∨ ∃ before p after e,
      files = before ++ p :: after
      ∧ Forall (fun q => ∃ size, st_size fs q = Ok size) before
      ∧ st_size fs p = Raise e.
Proof.
  induction files as [|p rest IH].
  { left. intros p Hp. inversion Hp. }
  destruct (st_size fs p) as [size|e] eqn:Hp.
  - destruct IH as [Hall|(before & q & after & e & -> & Hb & Hq)].
    + left. intros q Hq. apply elem_of_cons in Hq as [->|Hq]; eauto.
    + right. exists (p :: before), q, after, e. split; [done|].
      split; [|done]. constructor; eauto.
  - right. exists [], p, rest, e. split; [done|]. split; [constructor|done].
Qed.

Lemma sort_keys_raise fs before p after e :
  Forall (fun q => ∃ size, st_size fs q = Ok size) before →
  st_size fs p = Raise e →
  sort_keys fs (before ++ p :: after) = Raise e.
Proof.
  intros Hb Hp. induction Hb as [|q before [size Hq] _ IH]; simpl.
  - unfold sort_key. by rewrite Hp.
  - unfold sort_key at 1. rewrite Hq. simpl. by rewrite IH.
Qed.

(** X4: the sort is all or nothing.  It returns the ranked list when [stat]
    answers for every file, and otherwise raises the exception of the first
    file, in the order of the list, whose [stat] fails; no partial order is
    produced. *)
Theorem files_sort_all_or_first_failure (fs : FS) (files : list Path) :
  match files_sort fs files with
  | Ok ranked =>
    ∃ sz, (∀ p, p ∈ files → st_size fs p = Ok (sz p)) ∧ ranked = rank sz files
  | Raise e =>
    ∃ before p after,
      files = before ++ p :: after
      ∧ Forall (fun q => ∃ size, st_size fs q = Ok size) before
      ∧ st_size fs p = Raise e
  end.
Proof.
  destruct (stat_all_or_first fs files) as [Hall|(before & p & after & e & -> & Hb & Hp)].
  - set (sz := fun p => match st_size fs p with Ok size => size | Raise _ => 0%Z end).
    assert (Hsz : ∀ p, p ∈ files → st_size fs p = Ok (sz p)).
    { intros p Hp. unfold sz. by destruct (Hall p Hp) as [size ->]. }
    rewrite (files_sort_ok fs files sz Hsz). by exists sz.
  - unfold files_sort. rewrite (sort_keys_raise fs before p after e Hb Hp). simpl.
    by exists before, p, after.
Qed.

(** ** The session worker, further *)

(** *** Reading a concatenated trace, further *)

Lemma done_sum_app tr1 tr2 : done_sum (tr1 ++ tr2) = (done_sum tr1 + done_sum tr2)%Z.
Proof.
  induction tr1 as [|[| | | | |[]] tr1 IH]; simpl; try done. rewrite IH. lia.
Qed.

Lemma warmed_lines_app tr1 tr2 :
  warmed_lines (tr1 ++ tr2) = (warmed_lines tr1 + warmed_lines tr2)%Z.
Proof.
  induction tr1 as [|[| | | | |[]] tr1 IH]; simpl; try done. rewrite IH. lia.
Qed.

Lemma error_lines_app tr1 tr2 :
  error_lines (tr1 ++ tr2) = (error_lines tr1 + error_lines tr2)%Z.
Proof.
  induction tr1 as [|[| | | | |[]] tr1 IH]; simpl; try done. rewrite IH. lia.
Qed.

Lemma enumerations_app tr1 tr2 :
  enumerations (tr1 ++ tr2) = enumerations tr1 + enumerations tr2.
Proof.
  induction tr1 as [|[] tr1 IH]; simpl; try done. by rewrite IH.
Qed.

Lemma started_app tr1 tr2 : started (tr1 ++ tr2) = started tr1 + started tr2.
Proof.
  induction tr1 as [|[| | | | |[]] tr1 IH]; simpl; try done. by rewrite IH.
Qed.

Lemma loop_event_readers tr :
  Forall loop_event tr →
  done_sum tr = 0%Z ∧ enumerations tr = 0 ∧ started tr = 0
  ∧ Forall (fun ev => ¬ is_summary ev) tr.
Proof.
  induction 1 as [|[| | | | |[]] tr Hq _ (IH1 & IH2 & IH3 & IH4)]; simpl in *;
    try done; repeat split; try done; constructor; simpl; tauto.
Qed.

Lemma iter_files_elem fs root patterns p :
  p ∈ iter_files fs root patterns →
  has_skip_part p = false ∧ is_file fs p = Ok true.
Proof.
  unfold iter_files. rewrite iter_patterns_flat.
  destruct (iter_matches fs (all_matches fs root patterns) ∅) as [out seen'] eqn:H.
  apply iter_matches_inv in H as (_ & Hall & _). simpl. intros Hp.
  rewrite Forall_forall in Hall.
  destruct (Hall p Hp) as (Hs & k & [Hf _] & _). done.
Qed.

Lemma iter_files_NoDup fs root patterns : NoDup (iter_files fs root patterns).
Proof.
  unfold iter_files. rewrite iter_patterns_flat.
  destruct (iter_matches fs (all_matches fs root patterns) ∅) as [out seen'] eqn:H.
  apply iter_matches_inv in H as (_ & _ & Hnd). simpl.
  by apply NoDup_fmap_1 in Hnd.
Qed.

Section session_further.
Context (budget : Z) (dry : bool) (E : Env).

(** *** The events of the loops *)

Lemma file_loop_events files i n st c :
  Forall loop_event (file_loop budget dry i n files st E c).2.
Proof.
  revert i st c. induction files as [|fpath rest IH]; intros i st c; [constructor|].
  rewrite file_loop_cons.
  destruct (stop_flag E c); [by repeat constructor|].
  destruct (st_size (fs_at E (c + 1)) fpath) as [size|e]; [|by repeat constructor].
  destruct dry.
  { specialize (IH (S i) st (c + 3)).
    destruct (file_loop budget true (S i) n rest st E (c + 3)) as [r evs].
    by repeat constructor. }
  destruct (budget <=? warmed_total st)%Z; [by repeat constructor|].
  destruct (warm_file (fs_at E (c + 2)) fpath 16) as [rb|e];
    match goal with |- context [file_loop ?b ?d ?i ?n ?r ?s ?E ?c] =>
      specialize (IH i s c); destruct (file_loop b d i n r s E c) end;
    by repeat constructor.
Qed.

(** *** The files that are opened *)

Lemma file_loop_opened files i n st c :
  opened (file_loop budget dry i n files st E c).2 `sublist_of` files.
Proof.
  revert i st c. induction files as [|fpath rest IH]; intros i st c; [done|].
  rewrite file_loop_cons.
  destruct (stop_flag E c); [apply sublist_nil_l|].
  destruct (st_size (fs_at E (c + 1)) fpath) as [size|e]; [|apply sublist_nil_l].
  destruct dry.
  { specialize (IH (S i) st (c + 3)).
    destruct (file_loop budget true (S i) n rest st E (c + 3)) as [r evs].
    simpl in *. by apply sublist_cons. }
  destruct (budget <=? warmed_total st)%Z; [apply sublist_nil_l|].
  destruct (warm_file (fs_at E (c + 2)) fpath 16) as [rb|e];
    match goal with |- context [file_loop ?b ?d ?i ?n ?r ?s ?E ?c] =>
      specialize (IH i s c); destruct (file_loop b d i n r s E c) end;
    simpl in *; by apply sublist_skip.
Qed.

Lemma warm_target_opened t st c :
  match files_sort (fs_at E (c + 2)) (iter_files (fs_at E (c + 1)) t DEFAULT_PATTERNS) with
  | Ok ranked => opened (warm_target budget dry t st E c).2 `sublist_of` ranked
  | Raise _ => opened (warm_target budget dry t st E c).2 = []
  end.
Proof.
  rewrite warm_target_unfold. cbv zeta.
  destruct (files_sort _ _) as [files|e]; [|done].
  pose proof (file_loop_opened files 1 (length files) (reset_warmed st) (c + 3)) as H.
  destruct (file_loop budget dry 1 (length files) files (reset_warmed st) E (c + 3))
    as [[st'|e] evs]; simpl in *; [|done].
  rewrite opened_app. simpl. by rewrite app_nil_r.
Qed.

Lemma warm_target_opened_enumerated t st c :
  opened (warm_target budget dry t st E c).2
    ⊆ iter_files (fs_at E (c + 1)) t DEFAULT_PATTERNS.
Proof.
  pose proof (warm_target_opened t st c) as H.
  destruct (files_sort _ _) as [ranked|e] eqn:Hs.
  - apply files_sort_perm in Hs. intros p Hp. rewrite <- Hs.
    by apply (elem_of_sublist _ _ _ Hp).
  - rewrite H. set_solver.
Qed.

Lemma target_loop_opened targets st c :
  Forall (fun p => ∃ t c', t ∈ targets ∧ c ≤ c'
                           ∧ p ∈ iter_files (fs_at E c') t DEFAULT_PATTERNS)
    (opened (target_loop budget dry targets st E c).2).
Proof.
  revert st c. induction targets as [|t rest IH]; intros st c; [constructor|].
  rewrite target_loop_cons.
  destruct (stop_flag E c); [constructor|].
  pose proof (warm_target_opened_enumerated t st (c + 1)) as H.
  assert (Hrest : ∀ st' c', c ≤ c' →
    Forall (fun p => ∃ t0 c0, t0 ∈ t :: rest ∧ c ≤ c0
                              ∧ p ∈ iter_files (fs_at E c0) t0 DEFAULT_PATTERNS)
      (opened (target_loop budget dry rest st' E c').2)).
  { intros st' c' Hc. eapply Forall_impl; [apply IH|].
    intros p (t0 & c0 & Hin & Hc0 & Hp). exists t0, c0.
    split; [by right|]. split; [lia|done]. }
  assert (Hhead : Forall (fun p => ∃ t0 c0, t0 ∈ t :: rest ∧ c ≤ c0
                              ∧ p ∈ iter_files (fs_at E c0) t0 DEFAULT_PATTERNS)
      (opened (warm_target budget dry t st E (c + 1)).2)).
  { apply Forall_forall. intros p Hp. exists t, (c + 1 + 1).
    split; [left|]. split; [lia|by apply H]. }
  destruct (warm_target budget dry t st E (c + 1)) as [[st'|e] evs]; simpl in *; [|done].
  specialize (Hrest st' (c + 1 + length evs) ltac:(lia)).
  destruct (target_loop budget dry rest st' E (c + 1 + length evs)) as [r evs'].
  simpl in *. rewrite opened_app. by apply Forall_app.
Qed.

(** *** The counters *)

Lemma file_loop_accounts files i n st c st' :
  (file_loop budget dry i n files st E c).1 = Ok st' →
  warmed_total st' = (warmed_total st + bytes_warmed (file_loop budget dry i n files st E c).2)%Z
  ∧ warmed st' = (warmed st + bytes_warmed (file_loop budget dry i n files st E c).2)%Z
  ∧ progressed st'
    = (progressed st + 2 * warmed_lines (file_loop budget dry i n files st E c).2
       + error_lines (file_loop budget dry i n files st E c).2)%Z.
Proof.
  revert i st c. induction files as [|fpath rest IH]; intros i st c.
  { simpl. intros [= <-]. lia. }
  rewrite file_loop_cons.
  destruct (stop_flag E c); [simpl; intros [= <-]; lia|].
  destruct (st_size (fs_at E (c + 1)) fpath) as [size|e]; [|done].
  destruct dry.
  { specialize (IH (S i) st (c + 3)).
    destruct (file_loop budget true (S i) n rest st E (c + 3)) as [r evs].
    simpl in *. done. }
  destruct (budget <=? warmed_total st)%Z; [simpl; intros [= <-]; lia|].
  destruct (warm_file (fs_at E (c + 2)) fpath 16) as [rb|e];
    match goal with |- context [file_loop ?b ?d ?i ?n ?r ?s ?E ?c] =>
      specialize (IH i s c); destruct (file_loop b d i n r s E c) end;
    simpl in *; intros Hr; destruct (IH Hr) as (H1 & H2 & H3); lia.
Qed.

Lemma warm_target_accounts t st c st' :
  (warm_target budget dry t st E c).1 = Ok st' →
  warmed_total st' = (warmed_total st + bytes_warmed (warm_target budget dry t st E c).2)%Z
  ∧ done_sum (warm_target budget dry t st E c).2
    = bytes_warmed (warm_target budget dry t st E c).2
  ∧ progressed st'
    = (progressed st + 2 * warmed_lines (warm_target budget dry t st E c).2
       + error_lines (warm_target budget dry t st E c).2)%Z.
Proof.
  rewrite warm_target_unfold. cbv zeta.
  destruct (files_sort _ _) as [files|e]; [|done].
  pose proof (file_loop_accounts files 1 (length files) (reset_warmed st) (c + 3)) as H.
  pose proof (file_loop_events files 1 (length files) (reset_warmed st) (c + 3)) as Hev.
  destruct (file_loop budget dry 1 (length files) files (reset_warmed st) E (c + 3))
    as [[st1|e] evs]; simpl in *; [|done].
  intros [= <-]. destruct (H st1 eq_refl) as (H1 & H2 & H3).
  apply loop_event_readers in Hev as (Hd & _).
  rewrite bytes_warmed_app, done_sum_app, warmed_lines_app, error_lines_app.
  simpl. lia.
Qed.

Lemma target_loop_accounts targets st c st' :
  (target_loop budget dry targets st E c).1 = Ok st' →
  warmed_total st'
  = (warmed_total st + bytes_warmed (target_loop budget dry targets st E c).2)%Z
  ∧ done_sum (target_loop budget dry targets st E c).2
    = bytes_warmed (target_loop budget dry targets st E c).2
  ∧ progressed st'
    = (progressed st + 2 * warmed_lines (target_loop budget dry targets st E c).2
       + error_lines (target_loop budget dry targets st E c).2)%Z.
Proof.
  revert st c. induction targets as [|t rest IH]; intros st c.
  { simpl. intros [= <-]. lia. }
  rewrite target_loop_cons.
  destruct (stop_flag E c); [simpl; intros [= <-]; lia|].
  pose proof (warm_target_accounts t st (c + 1)) as H.
  destruct (warm_target budget dry t st E (c + 1)) as [[st1|e] evs]; simpl in *; [|done].
  destruct (H st1 eq_refl) as (H1 & H2 & H3).
  specialize (IH st1 (c + 1 + length evs)).
  destruct (target_loop budget dry rest st1 E (c + 1 + length evs)) as [r evs'].
  simpl in *. intros Hr. destruct (IH Hr) as (I1 & I2 & I3).
  rewrite bytes_warmed_app, done_sum_app, warmed_lines_app, error_lines_app. lia.
Qed.

(** *** Enumerations and summary lines *)

Lemma count_files_enumerations targets total_files c :
  enumerations (count_files targets total_files E c).2 = length targets
  ∧ started (count_files targets total_files E c).2 = 0
  ∧ opened (count_files targets total_files E c).2 = []
  ∧ Forall (fun ev => ¬ failed_stat ev) (count_files targets total_files E c).2
  ∧ Forall (fun ev => ¬ is_summary ev) (count_files targets total_files E c).2.
Proof.
  revert total_files c. induction targets as [|t rest IH]; intros k c.
  { simpl. repeat split; constructor. }
  cbn [count_files]. unfold mbind at 1 2 3 4 5, M_bind at 1 2 3 4 5, enumerate. cbn [length].
  specialize (IH (k + length (iter_files (fs_at E c) t DEFAULT_PATTERNS)) (c + 1)).
  destruct (count_files rest _ E (c + 1)) as [[k'|e] evs]; simpl in *;
    destruct IH as (I1 & I2 & I3 & I4 & I5); repeat split; try done;
    try (by rewrite I1); constructor; simpl; tauto.
Qed.

Lemma warm_target_enumerations t st c :
  enumerations (warm_target budget dry t st E c).2 = 1
  ∧ started (warm_target budget dry t st E c).2 = 1
  ∧ Forall (fun ev => ¬ is_summary ev) (warm_target budget dry t st E c).2.
Proof.
  rewrite warm_target_unfold. cbv zeta.
  destruct (files_sort _ _) as [files|e].
  2: { simpl. repeat split; try done. repeat constructor; simpl; tauto. }
  pose proof (file_loop_events files 1 (length files) (reset_warmed st) (c + 3)) as Hev.
  destruct (file_loop budget dry 1 (length files) files (reset_warmed st) E (c + 3))
    as [[st1|e] evs]; simpl in *;
    apply loop_event_readers in Hev as (_ & He & Hs & Hsum);
    rewrite ?enumerations_app, ?started_app, He, Hs; simpl;
    (split; [done|]); (split; [done|]);
    repeat (constructor; [simpl; tauto|]); [|done].
  apply Forall_app. split; [done|]. repeat constructor; simpl; tauto.
Qed.

Lemma target_loop_enumerations targets st c :
  enumerations (target_loop budget dry targets st E c).2
  = started (target_loop budget dry targets st E c).2
  ∧ Forall (fun ev => ¬ is_summary ev) (target_loop budget dry targets st E c).2.
Proof.
  revert st c. induction targets as [|t rest IH]; intros st c.
  { simpl. split; [done|constructor]. }
  rewrite target_loop_cons.
  destruct (stop_flag E c); [simpl; split; [done|repeat constructor; simpl; tauto]|].
  destruct (warm_target_enumerations t st (c + 1)) as (H1 & H2 & H3).
  destruct (warm_target budget dry t st E (c + 1)) as [[st1|e] evs]; simpl in *.
  2: { split; [lia|]. constructor; [simpl; tauto|done]. }
  specialize (IH st1 (c + 1 + length evs)).
  destruct (target_loop budget dry rest st1 E (c + 1 + length evs)) as [r evs'].
  simpl in *. destruct IH as [I1 I2].
  rewrite enumerations_app, started_app. split; [lia|].
  constructor; [simpl; tauto|]. by apply Forall_app.
Qed.

(** *** Failed size queries *)

Lemma stops_at_failed_stat_app {A} (r : result A) evs1 evs2 :
  Forall (fun ev => ¬ failed_stat ev) evs1 →
  stops_at_failed_stat (r, evs2) → stops_at_failed_stat (r, evs1 ++ evs2).
Proof.
  unfold stops_at_failed_stat. simpl. intros H1. destruct r as [a|e].
  - intros H2. by apply Forall_app.
  - intros (tr & ev & -> & Htr & Hev). exists (evs1 ++ tr), ev.
    split; [by rewrite app_assoc|]. split; [by apply Forall_app|done].
Qed.

Lemma file_loop_stops files i n st c :
  stops_at_failed_stat (file_loop budget dry i n files st E c).
Proof.
  revert i st c. induction files as [|fpath rest IH]; intros i st c.
  { constructor. }
  rewrite file_loop_cons.
  destruct (stop_flag E c); [repeat constructor; simpl; tauto|].
  destruct (st_size (fs_at E (c + 1)) fpath) as [size|e].
  2: { exists [EvFlag false], (EvStat fpath (Raise e)). split; [done|].
       split; [repeat constructor; simpl; tauto|]. right. by exists fpath. }
  destruct dry.
  { specialize (IH (S i) st (c + 3)).
    destruct (file_loop budget true (S i) n rest st E (c + 3)) as [r evs].
    apply (stops_at_failed_stat_app r [_; _; _]); [|done].
    repeat constructor; simpl; tauto. }
  destruct (budget <=? warmed_total st)%Z; [repeat constructor; simpl; tauto|].
  destruct (warm_file (fs_at E (c + 2)) fpath 16) as [rb|e];
    match goal with |- context [file_loop ?b ?d ?i ?n ?r ?s ?E ?c] =>
      specialize (IH i s c); destruct (file_loop b d i n r s E c) as [r' evs] end;
    (apply (stops_at_failed_stat_app r' [_; _; _; _]); [|done]);
    repeat constructor; simpl; tauto.
Qed.

Lemma warm_target_stops t st c :
  stops_at_failed_stat (warm_target budget dry t st E c).
Proof.
  rewrite warm_target_unfold. cbv zeta.
  destruct (files_sort _ _) as [files|e].
  2: { eexists [_; _], _. split; [done|].
       split; [repeat constructor; simpl; tauto|]. left. by eexists. }
  pose proof (file_loop_stops files 1 (length files) (reset_warmed st) (c + 3)) as H.
  destruct (file_loop budget dry 1 (length files) files (reset_warmed st) E (c + 3))
    as [[st1|e] evs].
  - apply (stops_at_failed_stat_app (Ok st1) [_; _; _]);
      [repeat constructor; simpl; tauto|].
    unfold stops_at_failed_stat in *. simpl in *.
    apply Forall_app. split; [done|]. repeat constructor; simpl; tauto.
  - apply (stops_at_failed_stat_app (Raise e) [_; _; _]); [|done].
    repeat constructor; simpl; tauto.
Qed.

Lemma target_loop_stops targets st c :
  stops_at_failed_stat (target_loop budget dry targets st E c).
Proof.
  revert st c. induction targets as [|t rest IH]; intros st c.
  { constructor. }
  rewrite target_loop_cons.
  destruct (stop_flag E c); [repeat constructor; simpl; tauto|].
  pose proof (warm_target_stops t st (c + 1)) as H.
  destruct (warm_target budget dry t st E (c + 1)) as [[st1|e] evs].
  - specialize (IH st1 (c + 1 + length evs)).
    destruct (target_loop budget dry rest st1 E (c + 1 + length evs)) as [r evs'].
    apply (stops_at_failed_stat_app r (_ :: evs)); [|done].
    constructor; [simpl; tauto|done].
  - apply (stops_at_failed_stat_app (Raise e) [_]); [|done].
    repeat constructor; simpl; tauto.
Qed.
End session_further.

Lemma dry_event_lines tr :
  Forall dry_event tr → warmed_lines tr = 0%Z ∧ error_lines tr = 0%Z.
Proof. induction 1 as [|[| | | | |[]] tr Hq _ IH]; simpl in *; done. Qed.

Lemma target_loop_started_le budget dry E targets st c :
  started (target_loop budget dry targets st E c).2 ≤ length targets.
Proof.
  revert st c. induction targets as [|t rest IH]; intros st c; [done|].
  rewrite target_loop_cons.
  destruct (stop_flag E c); [simpl; lia|].
  destruct (warm_target_enumerations budget dry E t st (c + 1)) as (_ & H & _).
  destruct (warm_target budget dry t st E (c + 1)) as [[st1|e] evs]; simpl in *; [|lia].
  specialize (IH st1 (c + 1 + length evs)).
  destruct (target_loop budget dry rest st1 E (c + 1 + length evs)) as [r evs'].
  simpl in *. rewrite started_app. lia.
Qed.

(** X5: the session only opens what an enumeration of a selected target
    yielded during the session: a path that [is_file()] accepted then and that
    has no part in [SKIP_DIRNAMES]. *)
Theorem worker_opens_only_enumerated_files
    (budget : Z) (dry : bool) (targets : list Path) (E : Env) (c : nat) :
  Forall (fun p =>
            has_skip_part p = false
            ∧ ∃ t c', t ∈ targets ∧ c ≤ c'
                      ∧ p ∈ iter_files (fs_at E c') t DEFAULT_PATTERNS
                      ∧ is_file (fs_at E c') p = Ok true)
    (opened (worker budget dry targets E c).2).
Proof.
  destruct (worker_unfold budget dry E targets c) as (k & evs0 & Hc & _ & ->).
  destruct (count_files_enumerations E targets 0 c) as (_ & _ & Ho & _).
  rewrite Hc in Ho. simpl in Ho.
  pose proof (target_loop_opened budget dry E targets
    {| warmed_total := 0; warmed := 0; progressed := 0 |} (c + length evs0)) as H.
  assert (H' : Forall (fun p =>
            has_skip_part p = false
            ∧ ∃ t c', t ∈ targets ∧ c ≤ c'
                      ∧ p ∈ iter_files (fs_at E c') t DEFAULT_PATTERNS
                      ∧ is_file (fs_at E c') p = Ok true)
    (opened (target_loop budget dry targets
       {| warmed_total := 0; warmed := 0; progressed := 0 |} E (c + length evs0)).2)).
  { eapply Forall_impl; [exact H|]. intros p (t & c' & Ht & Hc' & Hp).
    destruct (iter_files_elem _ _ _ _ Hp) as [Hs Hf].
    split; [done|]. exists t, c'. repeat split; [done|lia|done|done]. }
  destruct (target_loop _ _ _ _ _ _) as [[st|e] evs]; simpl in *.
  - rewrite !opened_app, Ho. simpl. by rewrite app_nil_r.
  - by rewrite opened_app, Ho.
Qed.

(** X6: within one target no file is opened twice, and the files are
    opened in the order of the ranked list; when the sort raises none is
    opened. *)
Theorem warm_target_opens_in_rank_order
    (budget : Z) (dry : bool) (t : Path) (st : locals) (E : Env) (c : nat) :
  NoDup (opened (warm_target budget dry t st E c).2)
  ∧ match files_sort (fs_at E (c + 2))
            (iter_files (fs_at E (c + 1)) t DEFAULT_PATTERNS) with
    | Ok ranked => opened (warm_target budget dry t st E c).2 `sublist_of` ranked
    | Raise _ => opened (warm_target budget dry t st E c).2 = []
    end.
Proof.
  pose proof (warm_target_opened budget dry E t st c) as H.
  split; [|done].
  destruct (files_sort _ _) as [ranked|e] eqn:Hs.
  - apply files_sort_perm in Hs.
    eapply sublist_NoDup; [|exact H]. rewrite Hs. apply iter_files_NoDup.
  - rewrite H. constructor.
Qed.

(** X7: when the session returns, the total of the summary line is the sum
    of the bytes of the "warmed" lines and also the sum of the totals of the
    "Done" lines of the targets, and it is not negative. *)
Theorem worker_totals_add_up
    (budget : Z) (dry : bool) (targets : list Path) (E : Env) (c : nat) :
  (worker budget dry targets E c).1 = Ok () →
  ∃ tr total,
    (worker budget dry targets E c).2 = tr ++ [EvLog (LAllDone total)]
    ∧ total = bytes_warmed tr
    ∧ total = done_sum tr
    ∧ (0 ≤ total)%Z.
Proof.
  destruct (worker_tracks budget dry E targets c) as (Hk & _ & _).
  revert Hk.
  destruct (worker_unfold budget dry E targets c) as (k & evs0 & Hc & Hen & ->).
  pose proof (target_loop_accounts budget dry E targets
    {| warmed_total := 0; warmed := 0; progressed := 0 |} (c + length evs0)) as H.
  assert (H0 : bytes_warmed evs0 = 0%Z ∧ done_sum evs0 = 0%Z).
  { clear -Hen. induction Hen as [|ev evs (t & files & ->) _ IH]; [done|]. exact IH. }
  destruct H0 as [Hb0 Hd0].
  destruct (target_loop _ _ _ _ _ _) as [[st|e] evs]; simpl in *; [|done].
  destruct (H st eq_refl) as (H1 & H2 & _). intros Hk _.
  exists (evs0 ++ evs), (warmed_total st).
  split; [by rewrite app_assoc|].
  rewrite bytes_warmed_app, done_sum_app, Hb0, Hd0, H2.
  split; [lia|]. split; [lia|].
  apply budget_kept_nonneg in Hk.
  rewrite !bytes_warmed_app, Hb0 in Hk. simpl in Hk. lia.
Qed.

Lemma worker_totals_add_up_witness :
  ∃ tr total,
    (worker 4 false [["r"%string]] scenario_env 0).2 = tr ++ [EvLog (LAllDone total)]
    ∧ total = bytes_warmed tr
    ∧ total = done_sum tr
    ∧ (0 ≤ total)%Z.
Proof.
  apply (worker_totals_add_up 4 false [["r"%string]] scenario_env 0).
  vm_compute. reflexivity.
Defined.

(** X8: [progressed] is advanced twice for a file that was warmed, once in
    the [try] and once in the [finally], and once for a file whose warm
    raised; it stays at its value in a dry run. *)
Theorem progressed_counts_warmed_files_twice
    (budget : Z) (dry : bool) (targets : list Path) (st st' : locals)
    (E : Env) (c : nat) :
  (target_loop budget dry targets st E c).1 = Ok st' →
  progressed st'
  = (progressed st + 2 * warmed_lines (target_loop budget dry targets st E c).2
     + error_lines (target_loop budget dry targets st E c).2)%Z
  ∧ (dry = true → progressed st' = progressed st).
Proof.
  intros Hr. destruct (target_loop_accounts budget dry E targets st c st' Hr)
    as (_ & _ & Hp).
  split; [done|]. intros ->.
  destruct (dry_event_lines _ (target_loop_dry_events budget E targets st c)) as [Hw He].
  lia.
Qed.

Lemma progressed_counts_warmed_files_twice_witness :
  progressed {| warmed_total := 17; warmed := 17; progressed := 8 |}
  = (progressed {| warmed_total := 0; warmed := 0; progressed := 0 |}
     + 2 * warmed_lines (target_loop 100 false [["r"%string]]
                           {| warmed_total := 0; warmed := 0; progressed := 0 |}
                           scenario_env 1%nat).2
     + error_lines (target_loop 100 false [["r"%string]]
                      {| warmed_total := 0; warmed := 0; progressed := 0 |}
                      scenario_env 1%nat).2)%Z
  ∧ (false = true →
     progressed {| warmed_total := 17; warmed := 17; progressed := 8 |}
     = progressed {| warmed_total := 0; warmed := 0; progressed := 0 |}).
Proof.
  apply (progressed_counts_warmed_files_twice 100 false [["r"%string]]
           {| warmed_total := 0; warmed := 0; progressed := 0 |}
           {| warmed_total := 17; warmed := 17; progressed := 8 |} scenario_env 1).
  vm_compute. reflexivity.
Defined.

Lemma worker_stops budget dry E targets c :
  stops_at_failed_stat (worker budget dry targets E c)
  ∧ match (worker budget dry targets E c).1 with
    | Ok _ =>
      ∃ tr total, (worker budget dry targets E c).2 = tr ++ [EvLog (LAllDone total)]
                  ∧ Forall (fun ev => ¬ is_summary ev) tr
    | Raise _ => Forall (fun ev => ¬ is_summary ev) (worker budget dry targets E c).2
    end.
Proof.
  destruct (worker_unfold budget dry E targets c) as (k & evs0 & Hc & _ & ->).
  destruct (count_files_enumerations E targets 0 c) as (_ & _ & _ & Hf & Hs).
  rewrite Hc in Hf, Hs. simpl in Hf, Hs.
  pose proof (target_loop_stops budget dry E targets
    {| warmed_total := 0; warmed := 0; progressed := 0 |} (c + length evs0)) as H.
  destruct (target_loop_enumerations budget dry E targets
    {| warmed_total := 0; warmed := 0; progressed := 0 |} (c + length evs0)) as [_ Hn].
  destruct (target_loop _ _ _ _ _ _) as [[st|e] evs]; simpl in *.
  - split.
    + unfold stops_at_failed_stat in *. simpl in *.
      apply Forall_app. split; [done|]. apply Forall_app. split; [done|].
      repeat constructor. simpl. tauto.
    + exists (evs0 ++ evs), (warmed_total st). split; [by rewrite app_assoc|].
      by apply Forall_app.
  - split; [by apply (stops_at_failed_stat_app (Raise e))|by apply Forall_app].
Qed.

(** X9: a size query that fails outside the [try] ends the session.  A
    failed size query, in the sort key or at the head of the loop body, is the
    last event of the run: the worker raises the exception of that query and
    logs no summary line.  A run that returns holds no failed size query and
    ends with its only summary line.  (The walk of a directory is taken to
    succeed, as everywhere in [FS]; what else can end a session is not
    stated.) *)
Theorem failed_stat_ends_session
    (budget : Z) (dry : bool) (targets : list Path) (E : Env) (c : nat) :
  (∀ tr1 ev tr2,
     (worker budget dry targets E c).2 = tr1 ++ ev :: tr2 →
     failed_stat ev →
     tr2 = []
     ∧ (∃ e, (worker budget dry targets E c).1 = Raise e ∧ failed_with e ev)
     ∧ Forall (fun ev' => ¬ failed_stat ev') tr1
     ∧ Forall (fun ev' => ¬ is_summary ev') (worker budget dry targets E c).2)
  ∧ (∀ u, (worker budget dry targets E c).1 = Ok u →
       Forall (fun ev => ¬ failed_stat ev) (worker budget dry targets E c).2
       ∧ ∃ tr total,
           (worker budget dry targets E c).2 = tr ++ [EvLog (LAllDone total)]
           ∧ Forall (fun ev => ¬ is_summary ev) tr).
Proof.
  destruct (worker_stops budget dry E targets c) as [Hstop Hsum].
  unfold stops_at_failed_stat in Hstop.
  destruct ((worker budget dry targets E c).1) as [u|e]; split.
  - intros tr1 ev tr2 Htr Hev. rewrite Htr in Hstop.
    apply Forall_app in Hstop as [_ Hstop]. apply Forall_cons in Hstop as [Hn _]. done.
  - intros _ _. done.
  - intros tr1 ev tr2 Htr Hev.
    destruct Hstop as (tr & ev' & Heq & Hclean & Hwith).
    rewrite Htr in Heq.
    destruct tr2 as [|x tr2 _] using rev_ind.
    + apply app_inj_tail in Heq as [-> ->]. split; [done|]. split; [by exists e|].
      by split.
    + rewrite app_comm_cons, app_assoc in Heq. apply app_inj_tail in Heq as [<- _].
      apply Forall_app in Hclean as [_ Hclean].
      apply Forall_cons in Hclean as [Hn _]. done.
  - intros u Hu. done.
Qed.

Lemma failed_stat_ends_session_witness :
  drop 7 (worker 100 false [["r"%string]] vanishing_env 0).2 = []
  ∧ (∃ e, (worker 100 false [["r"%string]] vanishing_env 0).1 = Raise e
          ∧ failed_with e (EvStat ["r"; "mods"; "big.JAR"]%string
                             (Raise FileNotFoundError)))
  ∧ Forall (fun ev' => ¬ failed_stat ev')
      (take 6 (worker 100 false [["r"%string]] vanishing_env 0).2)
  ∧ Forall (fun ev' => ¬ is_summary ev')
      (worker 100 false [["r"%string]] vanishing_env 0).2.
Proof.
  apply (proj1 (failed_stat_ends_session 100 false [["r"%string]] vanishing_env 0)
           (take 6 (worker 100 false [["r"%string]] vanishing_env 0).2)
           (EvStat ["r"; "mods"; "big.JAR"]%string (Raise FileNotFoundError))
           (drop 7 (worker 100 false [["r"%string]] vanishing_env 0).2)).
  - vm_compute. reflexivity.
  - exact I.
Defined.

(** X10: the lists of the first loop are not used again.  The first loop
    enumerates every target, and the second loop enumerates again every target
    it starts. *)
Theorem worker_enumerates_started_targets_twice
    (budget : Z) (dry : bool) (targets : list Path) (E : Env) (c : nat) :
  enumerations (worker budget dry targets E c).2
  = length targets + started (worker budget dry targets E c).2
  ∧ started (worker budget dry targets E c).2 ≤ length targets.
Proof.
  destruct (worker_unfold budget dry E targets c) as (k & evs0 & Hc & _ & ->).
  destruct (count_files_enumerations E targets 0 c) as (He & Hs & _).
  rewrite Hc in He, Hs. simpl in He, Hs.
  destruct (target_loop_enumerations budget dry E targets
    {| warmed_total := 0; warmed := 0; progressed := 0 |} (c + length evs0)) as [Hn _].
  pose proof (target_loop_started_le budget dry E targets
    {| warmed_total := 0; warmed := 0; progressed := 0 |} (c + length evs0)) as Hle.
  destruct (target_loop _ _ _ _ _ _) as [[st|e] evs]; simpl in *;
    rewrite ?enumerations_app, ?started_app, He, Hs; simpl; lia.
Qed.

(** ** The discovery of the roots *)

Lemma existing_dir_passes h fs c c' :
  existing_dir h fs c = Ok (Some c') ↔ passes h fs c c'.
Proof.
  unfold existing_dir, passes.
  destruct (expanduser h c) as [c1|e]; simpl.
  2: { split; [done|]. by intros [? _]. }
  destruct (path_exists fs c1) as [[|]|e] eqn:He; simpl.
  2,3: split; [done|]; intros ([= <-] & ? & _); congruence.
  destruct (is_dir fs c1) as [[|]|e] eqn:Hd; simpl.
  2,3: split; [done|]; intros ([= <-] & _ & ?); congruence.
  split.
  - intros [= <-]. done.
  - by intros ([= <-] & _).
Qed.

Lemma elem_of_expand_loop h fs cs c' :
  c' ∈ expand_loop h fs cs ↔ ∃ c, c ∈ cs ∧ passes h fs c c'.
Proof.
  induction cs as [|c cs IH]; simpl.
  { split; [intros H; inversion H|intros (? & H & _); inversion H]. }
  assert (Hskip : (∀ c1, ¬ passes h fs c c1) →
                  (c' ∈ expand_loop h fs cs ↔ ∃ c0, c0 ∈ c :: cs ∧ passes h fs c0 c')).
  { intros Hn. rewrite IH. split.
    - intros (c0 & Hin & Hp). exists c0. split; [by right|done].
    - intros (c0 & Hin & Hp). apply elem_of_cons in Hin as [->|Hin]; [|eauto].
      by destruct (Hn c'). }
  destruct (existing_dir h fs c) as [[c1|]|e] eqn:Hc.
  - apply existing_dir_passes in Hc. rewrite elem_of_cons, IH. split.
    + intros [->|(c0 & Hin & Hp)]; [exists c|exists c0]; split; try done;
        [left|by right].
    + intros (c0 & Hin & Hp). apply elem_of_cons in Hin as [->|Hin]; [left|right; eauto].
      destruct Hc as [Hc _], Hp as [Hp _]. congruence.
  - apply Hskip. intros c1 Hp. apply existing_dir_passes in Hp. congruence.
  - apply Hskip. intros c1 Hp. apply existing_dir_passes in Hp. congruence.
Qed.

(** The invariant of the second loop. *)
Lemma uniq_loop_spec fs out seen :
  match uniq_loop fs out seen with
  | Ok uniq =>
    NoDup uniq
    ∧ (∀ rp, rp ∈ uniq ↔ (rp ∉ seen) ∧ ∃ p, p ∈ out ∧ resolve fs p = Ok rp)
    ∧ ∃ resolved, mapM (fun p => match resolve fs p with Ok rp => Some rp | Raise _ => None end)
                    out = Some resolved
                  ∧ uniq `sublist_of` resolved
  | Raise e => ∃ p, p ∈ out ∧ resolve fs p = Raise e
  end.
Proof.
  revert seen. induction out as [|p out IH]; intros seen; simpl.
  { split; [constructor|]. split.
    - intros rp. split; [intros H; inversion H|intros (_ & ? & H & _); inversion H].
    - by exists []. }
  destruct (resolve fs p) as [rp|e] eqn:Hp; simpl.
  2: { exists p. split; [left|done]. }
  case_bool_decide as Hin.
  - specialize (IH seen). destruct (uniq_loop fs out seen) as [uniq|e].
    + destruct IH as (Hnd & Hel & resolved & Hm & Hsub). split; [done|]. split.
      * intros rp'. rewrite Hel. split.
        -- intros (Hn & q & Hq & Hr). split; [done|]. exists q. split; [by right|done].
        -- intros (Hn & q & Hq & Hr). split; [done|].
           apply elem_of_cons in Hq as [->|Hq]; [|eauto]. congruence.
      * exists (rp :: resolved). split; [by rewrite Hm|]. by apply sublist_cons.
    + destruct IH as (q & Hq & Hr). exists q. split; [by right|done].
  - specialize (IH ({[rp]} ∪ seen)).
    destruct (uniq_loop fs out ({[rp]} ∪ seen)) as [uniq|e]; simpl.
    + destruct IH as (Hnd & Hel & resolved & Hm & Hsub). split; [|split].
      * constructor; [|done]. rewrite Hel. set_solver.
      * intros rp'. rewrite elem_of_cons, Hel. split.
        -- intros [->|(Hn & q & Hq & Hr)].
           ++ split; [done|]. exists p. split; [left|done].
           ++ split; [set_solver|]. exists q. split; [by right|done].
        -- intros (Hn & q & Hq & Hr).
           destruct (decide (rp' = rp)) as [->|Hne]; [by left|right].
           split; [set_solver|].
           apply elem_of_cons in Hq as [->|Hq]; [congruence|eauto].
      * exists (rp :: resolved). split; [by rewrite Hm|]. by apply sublist_skip.
    + destruct IH as (q & Hq & Hr). exists q. split; [by right|done].
Qed.

(** X11: the roots that are returned, for whatever order the set of
    candidates is iterated in.  A candidate whose tests raise is skipped.  When
    every [resolve()] answers, the result holds no path twice and holds exactly
    the resolved paths of the candidates that exist and are directories, in the
    order in which they were met.  A [resolve()] that raises is not caught:
    the function raises its exception. *)
Theorem probable_instance_dirs_returns_resolved_existing
    (h : Host) (fs : FS) (cs : list Path) :
  cs ≡ₚ candidates h →
  match probable_instance_dirs h fs cs with
  | Ok uniq =>
    NoDup uniq
    ∧ (∀ rp, rp ∈ uniq ↔
         ∃ c c', c ∈ candidates h ∧ passes h fs c c' ∧ resolve fs c' = Ok rp)
    ∧ ∃ resolved,
        mapM (fun p => match resolve fs p with Ok rp => Some rp | Raise _ => None end)
          (expand_loop h fs cs) = Some resolved
        ∧ uniq `sublist_of` resolved
  | Raise e =>
    ∃ c c', c ∈ candidates h ∧ passes h fs c c' ∧ resolve fs c' = Raise e
  end.
Proof.
  intros Hperm. unfold probable_instance_dirs.
  pose proof (uniq_loop_spec fs (expand_loop h fs cs) ∅) as H.
  destruct (uniq_loop fs (expand_loop h fs cs) ∅) as [uniq|e].
  - destruct H as (Hnd & Hel & Hres). split; [done|]. split; [|done].
    intros rp. rewrite Hel. split.
    + intros (_ & c' & Hc' & Hr). apply elem_of_expand_loop in Hc' as (c & Hc & Hp).
      exists c, c'. by rewrite <- Hperm.
    + intros (c & c' & Hc & Hp & Hr). split; [set_solver|].
      exists c'. split; [|done]. apply elem_of_expand_loop. exists c.
      by rewrite Hperm.
  - destruct H as (c' & Hc' & Hr). apply elem_of_expand_loop in Hc' as (c & Hc & Hp).
    exists c, c'. by rewrite <- Hperm.
Qed.

Lemma probable_instance_dirs_returns_resolved_existing_witness :
  match probable_instance_dirs linux_host linux_fs (reverse (candidates linux_host)) with
  | Ok uniq =>
    NoDup uniq
    ∧ (∀ rp, rp ∈ uniq ↔
         ∃ c c', c ∈ candidates linux_host ∧ passes linux_host linux_fs c c'
                 ∧ resolve linux_fs c' = Ok rp)
    ∧ ∃ resolved,
        mapM (fun p => match resolve linux_fs p with Ok rp => Some rp | Raise _ => None end)
          (expand_loop linux_host linux_fs (reverse (candidates linux_host)))
        = Some resolved
        ∧ uniq `sublist_of` resolved
  | Raise e =>
    ∃ c c', c ∈ candidates linux_host ∧ passes linux_host linux_fs c c'
            ∧ resolve linux_fs c' = Raise e
  end.
Proof.
  apply (probable_instance_dirs_returns_resolved_existing linux_host linux_fs
           (reverse (candidates linux_host))).
  apply reverse_Permutation.
Defined.

Example probable_instance_dirs_linux :
  probable_instance_dirs linux_host linux_fs (reverse (candidates linux_host))
  = Ok [ ["/"; "home"; "u"; ".local"; "share"; "PrismLauncher"; "instances"];
         ["/"; "home"; "u"; ".minecraft"] ]%string.
Proof. vm_compute. reflexivity. Qed.

Lemma app_tail_ne {A} (base : list A) (s1 s2 : list A) :
  s1 ≠ s2 → base ++ s1 ≠ base ++ s2.
Proof. intros Hne Heq. by apply app_inv_head in Heq. Qed.

(** Two paths differ when their tails differ: the same base with different
    segments, or segments that differ in the last or the last but one. *)
Ltac distinct_paths :=
  repeat (constructor; [rewrite ?elem_of_cons, elem_of_nil|]); [..|constructor];
  intros H; repeat destruct H as [H|H]; try done; revert H;
  first
    [ apply app_tail_ne; discriminate
    | let Heq := fresh "Heq" in
      intros Heq; apply (f_equal reverse) in Heq; rewrite !reverse_app in Heq;
      unfold reverse in Heq; simpl in Heq; discriminate Heq ].

(** X12: the calls of [add] never add a path twice, so the set holds six
    candidates on Windows and five on the other platforms, wherever the home
    directory is and whatever [USERPROFILE] and [APPDATA] are set to.  The
    candidates also differ when the case of their parts is ignored, which is
    how the paths of Windows are compared. *)
Theorem candidates_are_distinct (h : Host) :
  NoDup (candidates h)
  ∧ NoDup (fold_case <$> candidates h)
  ∧ length (candidates h) = (if startswith (platform h) "win" then 6 else 5).
Proof.
  assert (Hfold : NoDup (fold_case <$> candidates h)
                  ∧ length (candidates h)
                    = (if startswith (platform h) "win" then 6 else 5)).
  2: { destruct Hfold as [Hnd Hlen]. split; [|done]. by apply NoDup_fmap_1 in Hnd. }
  unfold candidates.
  destruct (startswith (platform h) "win"); [|destruct (String.eqb _ _)].
  - split; [|done].
    generalize (environ_get h "USERPROFILE" (home h)).
    generalize (environ_get h "APPDATA" (home h ++ ["AppData"%string; "Roaming"%string])).
    intros a u. rewrite !fmap_cons, fmap_nil. unfold fold_case. rewrite !fmap_app.
    generalize (lower <$> a) (lower <$> u). intros a' u'. vm_compute fmap.
    distinct_paths.
  - split; [|done]. cbv zeta. rewrite <- !app_assoc.
    rewrite !fmap_cons, fmap_nil. unfold fold_case. rewrite !fmap_app.
    generalize (lower <$> home h). intros a'. vm_compute fmap.
    distinct_paths.
  - split; [|done]. cbv zeta. rewrite <- !app_assoc.
    rewrite !fmap_cons, fmap_nil. unfold fold_case. rewrite !fmap_app.
    generalize (lower <$> home h). intros a'. vm_compute fmap.
    distinct_paths.
Qed.

(** ** The list of instances in the window *)

Lemma list_instances_elem fl fs root c :
  c ∈ list_instances fl fs root →
  is_instance_dir fs c ∧ ∃ children, iterdir fs root = Ok children ∧ c ∈ children.
Proof.
  unfold list_instances. destruct (iterdir fs root) as [children|e]; [|inversion 1].
  destruct (instances_loop_spec fs (sorted (path_lt fl) children) [])
    as (visited & rest & Hcs & _ & -> & _).
  simpl. rewrite list_elem_of_filter. intros [Hi Hv]. split; [done|].
  exists children. split; [done|].
  rewrite <- (sorted_perm (path_lt fl) children), Hcs. set_solver.
Qed.

Section window_props.
Context (fl : Flavour).

Lemma fill_loop_spec i names w :
  instances_list (fill_loop i names w) = instances_list w ++ names.*1
  ∧ ∀ j, _instance_map (fill_loop i names w) !! j
         = if decide (i ≤ j < i + length names) then names.*2 !! (j - i)
           else _instance_map w !! j.
Proof.
  revert i w. induction names as [|[n path] names IH]; intros i w; simpl.
  { split; [by rewrite app_nil_r|]. intros j. case_decide; [lia|done]. }
  destruct (IH (S i) {| instances_list := instances_list w ++ [n];
                        _instance_map := <[i := path]> (_instance_map w) |})
    as [Hrows Hmap].
  split.
  - rewrite Hrows. simpl. by rewrite <- app_assoc.
  - intros j. rewrite Hmap. simpl.
    destruct (decide (j = i)) as [->|Hne].
    + rewrite decide_False by lia. rewrite decide_True by lia.
      rewrite lookup_insert_eq. by rewrite Nat.sub_diag.
    + rewrite lookup_insert_ne by done.
      case_decide; case_decide; try lia; [|done].
      by replace (j - i) with (S (j - S i)) by lia.
Qed.

Lemma refresh_instances_ok fs root w cands :
  shown_candidates fl fs root = Ok cands →
  instances_list (_refresh_instances fl fs (Some root) w).1 = row_name fl <$> cands
  ∧ (∀ i, _instance_map (_refresh_instances fl fs (Some root) w).1 !! i = cands !! i)
  ∧ (_refresh_instances fl fs (Some root) w).2 = Ok [LFound (length cands) root].
Proof.
  intros Hc. unfold _refresh_instances. rewrite Hc. simpl.
  destruct (fill_loop_spec 0 ((fun c => (row_name fl c, c)) <$> cands)
              {| instances_list := []; _instance_map := ∅ |}) as [Hrows Hmap].
  split; [|split].
  - rewrite Hrows. simpl. rewrite <- list_fmap_compose. done.
  - intros i. rewrite Hmap. simpl. rewrite length_fmap, <- list_fmap_compose.
    rewrite Nat.sub_0_r, list_fmap_id.
    case_decide as Hi; [done|]. rewrite lookup_empty.
    symmetry. apply lookup_ge_None. lia.
  - by rewrite length_fmap.
Qed.

Lemma shown_candidates_elem fs root cands t :
  shown_candidates fl fs root = Ok cands → t ∈ cands →
  (t = root ∧ Exists (fun sub => path_exists fs (root ++ [sub]) = Ok true) MARKERS)
  ∨ t ∈ list_instances fl fs root.
Proof.
  unfold shown_candidates.
  destruct (any_exists fs root MARKERS) as [[|]|e] eqn:Ha; simpl; try done.
  - intros [= <-]. rewrite elem_of_cons. intros [->|Ht]; [left|by right].
    split; [done|]. by apply any_exists_true.
  - intros [= <-]. by right.
Qed.
End window_props.

(** X13: the list box and the dict agree after [_refresh_instances],
    however it ends.  Every row has an entry in [_instance_map].  When the
    root is tested without an exception, row [i] shows the text of candidate
    [i], the dict maps [i] to that candidate and holds no other key, and the
    number of candidates is logged.  When no root is selected or the test of
    the root raises, the list box is left empty and the dict as it was. *)
Theorem refresh_instances_maps_every_row
    (fl : Flavour) (fs : FS) (sel : option Path) (w : window) :
  (∀ i, i < length (instances_list (_refresh_instances fl fs sel w).1) →
        is_Some (_instance_map (_refresh_instances fl fs sel w).1 !! i))
  ∧ match sel with
    | None =>
      _refresh_instances fl fs sel w
      = ({| instances_list := []; _instance_map := _instance_map w |}, Ok [])
    | Some root =>
      match shown_candidates fl fs root with
      | Ok cands =>
        instances_list (_refresh_instances fl fs sel w).1 = row_name fl <$> cands
        ∧ (∀ i, _instance_map (_refresh_instances fl fs sel w).1 !! i = cands !! i)
        ∧ (_refresh_instances fl fs sel w).2 = Ok [LFound (length cands) root]
      | Raise e =>
        _refresh_instances fl fs sel w
        = ({| instances_list := []; _instance_map := _instance_map w |}, Raise e)
      end
    end.
Proof.
  destruct sel as [root|].
  2: { split; [|done]. simpl. intros i Hi. lia. }
  destruct (shown_candidates fl fs root) as [cands|e] eqn:Hc.
  - destruct (refresh_instances_ok fl fs root w cands Hc) as (Hrows & Hmap & Hlog).
    split; [|done]. intros i. rewrite Hrows, Hmap, length_fmap.
    apply lookup_lt_is_Some_2.
  - unfold _refresh_instances. rewrite Hc. split; [|done]. simpl. intros i Hi. lia.
Qed.

Lemma selected_targets_lookup (w : window) (cands : list Path) (sel_indices : list nat) :
  (∀ i, _instance_map w !! i = cands !! i) →
  Forall (fun i => i < length cands) sel_indices →
  ∃ targets,
    selected_targets w sel_indices = Some targets
    ∧ Forall2 (fun i t => cands !! i = Some t) sel_indices targets.
Proof.
  intros Hmap Hsel. unfold selected_targets.
  induction Hsel as [|i rest Hi _ (targets & Hm & Hall)].
  { exists []. split; [done|constructor]. }
  destruct (lookup_lt_is_Some_2 cands i Hi) as [t Ht].
  exists (t :: targets). split; [|by constructor].
  simpl. rewrite Hmap, Ht. simpl. by rewrite Hm.
Qed.

(** X14: what [_warm_selected] warms.  On a window that
    [_refresh_instances] has filled, the lookups for the indices of selected
    rows do not raise; there is one target for each selected row, the row
    shows the text of its target, and every target is the root, which then
    holds an instance marker, or a child of the root that is a directory and
    holds an instance marker. *)
Theorem selected_targets_are_shown_instances
    (fl : Flavour) (fs : FS) (root : Path) (w : window) (sel_indices : list nat) :
  Forall (fun i => i < length (instances_list (_refresh_instances fl fs (Some root) w).1))
         sel_indices →
  ∃ targets,
    selected_targets (_refresh_instances fl fs (Some root) w).1 sel_indices = Some targets
    ∧ length targets = length sel_indices
    ∧ Forall2 (fun i t =>
                 instances_list (_refresh_instances fl fs (Some root) w).1 !! i
                 = Some (row_name fl t)) sel_indices targets
    ∧ Forall (fun t =>
                (t = root
                 ∧ Exists (fun sub => path_exists fs (root ++ [sub]) = Ok true) MARKERS)
                ∨ (is_instance_dir fs t
                   ∧ ∃ children, iterdir fs root = Ok children ∧ t ∈ children))
             targets.
Proof.
  intros Hsel.
  destruct (shown_candidates fl fs root) as [cands|e] eqn:Hc.
  2: { unfold _refresh_instances in *. rewrite Hc in *. simpl in *.
       destruct sel_indices as [|i rest]; [by exists []; repeat split; constructor|].
       apply Forall_cons in Hsel as [Hi _]. lia. }
  destruct (refresh_instances_ok fl fs root w cands Hc) as (Hrows & Hmap & _).
  rewrite Hrows, length_fmap in Hsel.
  destruct (selected_targets_lookup _ cands sel_indices Hmap Hsel) as (targets & Hm & Hall).
  exists targets. split; [done|]. split; [by apply Forall2_length in Hall|].
  rewrite Hrows. split.
  - eapply Forall2_impl; [exact Hall|]. intros i t Ht. simpl in Ht.
    by rewrite list_lookup_fmap, Ht.
  - apply Forall_forall. intros t Ht.
    apply list_elem_of_lookup_1 in Ht as [k Hk].
    destruct (Forall2_lookup_r _ _ _ k t Hall Hk) as (i & _ & Hi).
    apply list_elem_of_lookup_2 in Hi.
    destruct (shown_candidates_elem fl fs root cands t Hc Hi) as [H|H]; [by left|right].
    by apply (list_instances_elem fl).
Qed.

Lemma selected_targets_are_shown_instances_witness :
  ∃ targets,
    selected_targets
      (_refresh_instances posix launcher_fs (Some ["root"%string])
         {| instances_list := []; _instance_map := ∅ |}).1 [0; 1] = Some targets
    ∧ length targets = length [0; 1]
    ∧ Forall2 (fun i t =>
                 instances_list
                   (_refresh_instances posix launcher_fs (Some ["root"%string])
                      {| instances_list := []; _instance_map := ∅ |}).1 !! i
                 = Some (row_name posix t)) [0; 1] targets
    ∧ Forall (fun t =>
                (t = ["root"%string]
                 ∧ Exists (fun sub => path_exists launcher_fs (["root"%string] ++ [sub])
                                      = Ok true) MARKERS)
                ∨ (is_instance_dir launcher_fs t
                   ∧ ∃ children, iterdir launcher_fs ["root"%string] = Ok children
                                 ∧ t ∈ children))
             targets.
Proof.
  apply (selected_targets_are_shown_instances posix launcher_fs ["root"%string]
           {| instances_list := []; _instance_map := ∅ |} [0; 1]).
  repeat constructor.
Defined.

(** ** The launch after a session *)

Lemma replace_instance_cons new ch s' :
  replace_instance new (String ch s') =
  if String.prefix "{instance}" (String ch s')
  then (new ++ replace_instance new (string_drop 10 (String ch s')))%string
  else String ch (replace_instance new s').
Proof.
  simp replace_instance.
  destruct (inspect (String.prefix "{instance}" (String ch s'))) as [[|] Heq];
    simp replace_instance; by rewrite Heq.
Qed.

Lemma string_app_assoc (a b c : string) : ((a ++ b) ++ c = a ++ (b ++ c))%string.
Proof.
  induction a as [|ch a IH]; [done|].
  change (String ch ((a ++ b) ++ c) = String ch (a ++ (b ++ c)))%string.
  by rewrite IH.
Qed.

Lemma list_ascii_of_string_app (a b : string) :
  list_ascii_of_string (a ++ b)%string = list_ascii_of_string a ++ list_ascii_of_string b.
Proof.
  induction a as [|ch a IH]; [done|].
  change (ch :: list_ascii_of_string (a ++ b)%string
          = ch :: (list_ascii_of_string a ++ list_ascii_of_string b)).
  by rewrite IH.
Qed.

Lemma prefix_cons_ne c1 s1 c2 s2 :
  c1 ≠ c2 → String.prefix (String c1 s1) (String c2 s2) = false.
Proof. intros Hne. cbn [String.prefix]. by destruct (ascii_dec c1 c2). Qed.

(** A text without a brace holds no placeholder. *)
Lemma replace_instance_no_brace new s :
  "{"%char ∉ list_ascii_of_string s → replace_instance new s = s.
Proof.
  induction s as [|ch s IH]; intros Hn; [by simp replace_instance|].
  cbn [list_ascii_of_string] in Hn. apply not_elem_of_cons in Hn as [Hne Hn].
  rewrite replace_instance_cons, prefix_cons_ne by done.
  by rewrite IH.
Qed.

(** The first placeholder is replaced, and the search goes on behind it:
    the inserted text is not searched. *)
Lemma replace_instance_first new a b :
  "{"%char ∉ list_ascii_of_string a →
  replace_instance new (a ++ "{instance}" ++ b)%string
  = (a ++ new ++ replace_instance new b)%string.
Proof.
  induction a as [|ch a IH]; intros Hn.
  - change (EmptyString ++ "{instance}" ++ b)%string
      with (String "{" ("instance}" ++ b)%string).
    rewrite replace_instance_cons.
    replace (String.prefix "{instance}" (String "{" ("instance}" ++ b)%string))
      with true by (by destruct b; vm_compute).
    reflexivity.
  - change (String ch a ++ "{instance}" ++ b)%string
      with (String ch (a ++ "{instance}" ++ b)%string).
    cbn [list_ascii_of_string] in Hn. apply not_elem_of_cons in Hn as [Hne Hn].
    rewrite replace_instance_cons, prefix_cons_ne by done.
    by rewrite IH.
Qed.

(** X15: the command of a launch with the template of [_detect_prism].
    When the path of the executable holds no brace, the command is the quoted
    executable, [--launch] and the quoted name of the first target, whatever
    other targets were selected; the name is inserted as it is, and it is empty
    for a target that is only an anchor.  The command is logged and given to
    [Popen], whose exception is logged and not raised. *)
Theorem maybe_launch_prism_command
    (fl : Flavour) (l : Launcher) (exe : string) (t : Path) (rest : list Path) :
  launch_after l = true →
  cmd_tpl l = prism_template exe →
  "{"%char ∉ list_ascii_of_string exe →
  _maybe_launch fl l (t :: rest)
  = Some (launch_events l (prism_command exe (name_of fl t))).
Proof.
  intros Ha Ht Hn. unfold _maybe_launch. rewrite Ha, Ht. simpl negb. cbv iota.
  assert (Hne : String.eqb (prism_template exe) EmptyString = false) by done.
  rewrite Hne.
  assert (Hcmd : replace_instance (name_of fl t) (prism_template exe)
                 = prism_command exe (name_of fl t)).
  { assert (Htpl : prism_template exe
                   = ((dquote ++ exe ++ dquote ++ " --launch " ++ dquote)
                      ++ "{instance}" ++ dquote)%string).
    { unfold prism_template. by rewrite !string_app_assoc. }
    assert (Hq : replace_instance (name_of fl t) dquote = dquote).
    { apply replace_instance_no_brace. unfold dquote.
      cbn [list_ascii_of_string]. rewrite elem_of_cons, elem_of_nil. by intros [|]. }
    rewrite Htpl, replace_instance_first, Hq;
      [unfold prism_command; by rewrite !string_app_assoc|].
    rewrite !list_ascii_of_string_app. unfold dquote. cbn [list_ascii_of_string].
    rewrite !elem_of_app, !elem_of_cons, !elem_of_nil.
    intros H. decompose [or] H; first [done | congruence]. }
  assert (Hname : (if bool_decide (length (t :: rest) = 1)
                   then name_of fl <$> head (t :: rest)
                   else name_of fl <$> head (t :: rest)) = Some (name_of fl t)).
  { by case_bool_decide. }
  rewrite Hname. simpl. by rewrite Hcmd.
Qed.

Lemma maybe_launch_prism_command_witness :
  _maybe_launch posix prism_launcher [ ["/"]; ["root"; "c"] ]%string
  = Some (launch_events prism_launcher
            (prism_command "/usr/bin/prismlauncher" (name_of posix ["/"%string]))).
Proof.
  apply (maybe_launch_prism_command posix prism_launcher "/usr/bin/prismlauncher"
           ["/"%string] [ ["root"; "c"]%string ]).
  - reflexivity.
  - reflexivity.
  - vm_compute. intros H. repeat (apply elem_of_cons in H as [H|H]; [discriminate H|]).
    by apply elem_of_nil in H.
Defined.

(** The name of a target that is only an anchor is empty, and its command
    launches the instance of that name. *)
Example maybe_launch_anchor_target :
  name_of posix ["/"%string] = EmptyString
  ∧ name_of posix ["/"; "games"; "pack"]%string = "pack"%string
  ∧ _maybe_launch posix
      {| launch_after := true; cmd_tpl := "run [{instance}]";
         launch_platform := "linux"; popen := fun _ => Ok () |} [ ["/"%string] ]
    = Some [EvLaunchLog (LLaunching "run []");
            EvPopen "run []" false (Ok ())].
Proof. repeat split; vm_compute; reflexivity. Qed.

(** ** The worker thread *)

Lemma maybe_launch_cons fl l t rest :
  ∃ levs, _maybe_launch fl l (t :: rest) = Some levs
          ∧ (launch_after l = true → String.eqb (cmd_tpl l) EmptyString = false →
             levs = launch_events l (replace_instance (name_of fl t) (cmd_tpl l))).
Proof.
  unfold _maybe_launch.
  destruct (launch_after l); simpl negb; cbv iota.
  2: { exists []. by split. }
  destruct (String.eqb (cmd_tpl l) EmptyString).
  { eexists. by split. }
  assert (Hname : (if bool_decide (length (t :: rest) = 1)
                   then name_of fl <$> head (t :: rest)
                   else name_of fl <$> head (t :: rest)) = Some (name_of fl t)).
  { by case_bool_decide. }
  rewrite Hname. simpl. eexists. by split.
Qed.

(** X16: the launcher is started after every session that returns, and
    only then.  With the check box set and a template, the thread of a session
    that returns has the events of the session, which end with the summary
    line, then the progress bar set to its maximum, then the events of the
    launch, with the command made from the name of the first target, logged
    and given to [Popen] once, then the buttons, and it ends normally also when
    [Popen] raises.  The thread of a session that raises has the events of the
    session and then the buttons, and dies of the exception of the session. *)
Theorem worker_thread_launches_after_returned_session
    (budget : Z) (dry : bool) (fl : Flavour) (l : Launcher) (t : Path) (rest : list Path)
    (E : Env) (c : nat) :
  launch_after l = true →
  String.eqb (cmd_tpl l) EmptyString = false →
  match (worker budget dry (t :: rest) E c).1 with
  | Ok _ =>
    ∃ tr,
      (worker budget dry (t :: rest) E c).2 = tr ++ [EvLog (LAllDone (bytes_warmed tr))]
      ∧ worker_thread budget dry fl l (t :: rest) E c
        = (None,
           (ThSession <$> tr)
           ++ [ThSession (EvLog (LAllDone (bytes_warmed tr))); ThProgressFull]
           ++ (ThLaunch <$> launch_events l
                              (replace_instance (name_of fl t) (cmd_tpl l)))
           ++ [ThButtons])
  | Raise e =>
    worker_thread budget dry fl l (t :: rest) E c
    = (Some (SessionError e),
       (ThSession <$> (worker budget dry (t :: rest) E c).2) ++ [ThButtons])
  end.
Proof.
  intros Ha Hne. unfold worker_thread.
  destruct (maybe_launch_cons fl l t rest) as (levs & -> & Hlevs).
  rewrite (Hlevs Ha Hne).
  destruct (worker_tracks budget dry E (t :: rest) c) as (_ & _ & Hsum).
  destruct (worker budget dry (t :: rest) E c) as [[u|e] evs]; simpl in *; [|done].
  destruct (Hsum u eq_refl) as (tr & ->). exists tr. split; [done|].
  by rewrite fmap_app, <- app_assoc.
Qed.

Lemma worker_thread_launches_after_returned_session_witness :
  match (worker 4 false ["r"%string :: []] scenario_env 0).1 with
  | Ok _ =>
    ∃ tr,
      (worker 4 false ["r"%string :: []] scenario_env 0).2
      = tr ++ [EvLog (LAllDone (bytes_warmed tr))]
      ∧ worker_thread 4 false posix prism_launcher ["r"%string :: []] scenario_env 0
        = (None,
           (ThSession <$> tr)
           ++ [ThSession (EvLog (LAllDone (bytes_warmed tr))); ThProgressFull]
           ++ (ThLaunch <$> launch_events prism_launcher
                              (replace_instance (name_of posix ["r"%string])
                                 (cmd_tpl prism_launcher)))
           ++ [ThButtons])
  | Raise e =>
    worker_thread 4 false posix prism_launcher ["r"%string :: []] scenario_env 0
    = (Some (SessionError e),
       (ThSession <$> (worker 4 false ["r"%string :: []] scenario_env 0).2)
       ++ [ThButtons])
  end.
Proof.
  apply (worker_thread_launches_after_returned_session 4 false posix prism_launcher
           ["r"%string] [] scenario_env 0).
  - reflexivity.
  - reflexivity.
Defined.

(** X17: Stop does not cancel the launch.  When the flag is set before
    the second loop looks at its first target, the session consists of the
    enumerations of the first loop, the read of the flag and a summary of zero
    bytes: no target is started and no file is opened.  The thread then sets
    the progress bar, starts the launcher as after a complete session and puts
    the buttons back. *)
Theorem stop_before_first_target_still_launches
    (budget : Z) (dry : bool) (fl : Flavour) (l : Launcher) (t : Path) (rest : list Path)
    (E : Env) (c : nat) :
  launch_after l = true →
  String.eqb (cmd_tpl l) EmptyString = false →
  stop_flag E (c + length (t :: rest)) = true →
  ∃ evs0,
    Forall (fun ev => ∃ t' files, ev = EvEnumerate t' files) evs0
    ∧ length evs0 = length (t :: rest)
    ∧ worker budget dry (t :: rest) E c
      = (Ok (), evs0 ++ [EvFlag true; EvLog (LAllDone 0)])
    ∧ worker_thread budget dry fl l (t :: rest) E c
      = (None,
         (ThSession <$> evs0)
         ++ [ThSession (EvFlag true); ThSession (EvLog (LAllDone 0)); ThProgressFull]
         ++ (ThLaunch <$> launch_events l (replace_instance (name_of fl t) (cmd_tpl l)))
         ++ [ThButtons]).
Proof.
  intros Ha Hne Hstop.
  assert (Hrun : ∃ evs0,
    Forall (fun ev => ∃ t' files, ev = EvEnumerate t' files) evs0
    ∧ length evs0 = length (t :: rest)
    ∧ worker budget dry (t :: rest) E c
      = (Ok (), evs0 ++ [EvFlag true; EvLog (LAllDone 0)])).
  { destruct (worker_unfold budget dry E (t :: rest) c) as (k & evs0 & Hc & Hen & ->).
    pose proof (count_files_length E (t :: rest) 0 c) as Hlen.
    rewrite Hc in Hlen. simpl in Hlen.
    rewrite target_loop_cons, Hlen. simpl in Hstop. rewrite Hstop.
    exists evs0. by repeat split. }
  destruct Hrun as (evs0 & Hen & Hlen & Hw).
  exists evs0. split; [done|]. split; [done|]. split; [done|].
  unfold worker_thread.
  destruct (maybe_launch_cons fl l t rest) as (levs & -> & Hlevs).
  rewrite (Hlevs Ha Hne), Hw. simpl.
  by rewrite fmap_app, <- app_assoc.
Qed.

Lemma stop_before_first_target_still_launches_witness :
  ∃ evs0,
    Forall (fun ev => ∃ t' files, ev = EvEnumerate t' files) evs0
    ∧ length evs0 = length ["r"%string :: []]
    ∧ worker 100 false ["r"%string :: []]
        {| stop_flag := fun _ => true; fs_at := fun _ => scenario_fs |} 0
      = (Ok (), evs0 ++ [EvFlag true; EvLog (LAllDone 0)])
    ∧ worker_thread 100 false posix prism_launcher ["r"%string :: []]
        {| stop_flag := fun _ => true; fs_at := fun _ => scenario_fs |} 0
      = (None,
         (ThSession <$> evs0)
         ++ [ThSession (EvFlag true); ThSession (EvLog (LAllDone 0)); ThProgressFull]
         ++ (ThLaunch <$> launch_events prism_launcher
                            (replace_instance (name_of posix ["r"%string])
                               (cmd_tpl prism_launcher)))
         ++ [ThButtons]).
Proof.
  apply (stop_before_first_target_still_launches 100 false posix prism_launcher
           ["r"%string] []
           {| stop_flag := fun _ => true; fs_at := fun _ => scenario_fs |} 0).
  - reflexivity.
  - reflexivity.
  - reflexivity.
Defined.



(** ** The size shown in the log *)

Lemma human_loop_step n0 i :
  human_loop n0 i =
  if (1024 * 1024 ^ Z.of_nat i <=? n0)%Z && (i <? length UNITS - 1)
  then human_loop n0 (S i) else i.
Proof.
  simp human_loop.
  destruct (inspect ((1024 * 1024 ^ Z.of_nat i <=? n0)%Z && (i <? length UNITS - 1)))
    as [[|] Heq]; simp human_loop; by rewrite Heq.
Qed.

Lemma human_loop_spec n0 k i :
  i + k = 5 →
  i ≤ human_loop n0 i ≤ 5
  ∧ (human_loop n0 i = 5 ∨ (n0 < 1024 * 1024 ^ Z.of_nat (human_loop n0 i))%Z)
  ∧ (i < human_loop n0 i → (1024 ^ Z.of_nat (human_loop n0 i) ≤ n0)%Z).
Proof.
  revert i. induction k as [|k IH]; intros i Hi; rewrite human_loop_step.
  - assert (i = 5) as -> by lia. simpl. rewrite andb_false_r. repeat split; auto; lia.
  - destruct (Z.leb_spec (1024 * 1024 ^ Z.of_nat i) n0) as [Hle|Hlt]; simpl.
    + assert (Hlt5 : (i <? 5) = true) by (apply Nat.ltb_lt; lia).
      rewrite Hlt5. destruct (IH (S i) ltac:(lia)) as (Hb & Hu & Hl).
      split; [lia|]. split; [done|]. intros _.
      destruct (decide (human_loop n0 (S i) = S i)) as [->|Hne]; [|apply Hl; lia].
      rewrite Nat2Z.inj_succ, Z.pow_succ_r by lia. done.
    + repeat split; auto; lia.
Qed.

Lemma round_half_even_near a b :
  (0 ≤ a)%Z → (0 < b)%Z →
  (0 ≤ round_half_even a b)%Z
  ∧ (2 * Z.abs (a - round_half_even a b * b) ≤ b)%Z.
Proof.
  intros Ha Hb. unfold round_half_even.
  pose proof (Z.div_mod a b ltac:(lia)) as Hdm.
  pose proof (Z.mod_pos_bound a b Hb) as Hr.
  pose proof (Z.div_pos a b Ha Hb) as Hq.
  destruct (Z.ltb_spec (2 * (a mod b)) b); [split; nia|].
  destruct (Z.ltb_spec b (2 * (a mod b))); [split; nia|].
  destruct (Z.even (a / b)); split; nia.
Qed.

(** X19: what [human] shows for a size.  The unit is the largest one that
    the size reaches, [PB] at most; the number has one decimal and is the
    number of tenths of that unit nearest to the size, so it differs from the
    size by at most a twentieth of the unit; a size below 1024 is shown as it
    is, in bytes. *)
Theorem human_shows_nearest_tenth (n : Z) :
  (0 ≤ n < 2 ^ 53)%Z →
  human_loop n 0 < length UNITS
  ∧ ((human_loop n 0 = 0 ∧ (n < 1024)%Z)
     ∨ ((1024 ^ Z.of_nat (human_loop n 0) ≤ n)%Z
        ∧ (human_loop n 0 = 5 ∨ (n < 1024 * 1024 ^ Z.of_nat (human_loop n 0))%Z)))
  ∧ (∃ tenths,
       (0 ≤ tenths)%Z
       ∧ human n = (decimal (tenths / 10) ++ "." ++ decimal (tenths mod 10)
                    ++ " " ++ nth (human_loop n 0) UNITS EmptyString)%string
       ∧ (2 * Z.abs (10 * n - tenths * 1024 ^ Z.of_nat (human_loop n 0))
          ≤ 1024 ^ Z.of_nat (human_loop n 0))%Z)
  ∧ ((n < 1024)%Z → human n = (decimal n ++ ".0 B")%string).
Proof.
  intros [Hn0 Hn53].
  destruct (human_loop_spec n 5 0 eq_refl) as (Hb & Hu & Hl).
  split; [simpl; lia|]. split; [|split].
  - destruct (decide (human_loop n 0 = 0)) as [H0|Hne].
    + destruct Hu as [Hu|Hu]; [lia|]. left. split; [done|]. rewrite H0 in Hu. simpl in Hu. lia.
    + right. split; [apply Hl; lia|done].
  - assert (Hpow : (0 < 1024 ^ Z.of_nat (human_loop n 0))%Z) by (apply Z.pow_pos_nonneg; lia).
    destruct (round_half_even_near (10 * n) (1024 ^ Z.of_nat (human_loop n 0))
                ltac:(lia) Hpow) as [Ht Hnear].
    exists (round_half_even (10 * n) (1024 ^ Z.of_nat (human_loop n 0))).
    split; [done|]. split; [|done].
    unfold human, format_1f. cbv zeta.
    destruct (Z.ltb_spec n 0); [lia|]. rewrite Z.abs_eq by lia.
    change (EmptyString ++ ?x)%string with x. by rewrite !string_app_assoc.
  - intros Hlt.
    assert (H0 : human_loop n 0 = 0).
    { rewrite human_loop_step. destruct (Z.leb_spec (1024 * 1024 ^ Z.of_nat 0) n); [|done].
      simpl in *. lia. }
    unfold human, format_1f. cbv zeta. rewrite H0.
    destruct (Z.ltb_spec n 0); [lia|]. rewrite Z.abs_eq by lia.
    assert (Hr : round_half_even (10 * n) (1024 ^ Z.of_nat 0) = (10 * n)%Z).
    { unfold round_half_even. change (1024 ^ Z.of_nat 0)%Z with 1%Z.
      rewrite Z.mod_1_r, Z.div_1_r. done. }
    rewrite Hr. replace (10 * n / 10)%Z with n by (rewrite Z.mul_comm, Z.div_mul; lia).
    replace (10 * n mod 10)%Z with 0%Z.
    2: { symmetry. rewrite Z.mul_comm. apply Z.mod_mul. lia. }
    change (decimal 0) with "0"%string.
    change (EmptyString ++ ?x)%string with x. by rewrite !string_app_assoc.
Qed.

Lemma human_shows_nearest_tenth_witness :
  human_loop 1536 0 < length UNITS
  ∧ ((human_loop 1536 0 = 0 ∧ (1536 < 1024)%Z)
     ∨ ((1024 ^ Z.of_nat (human_loop 1536 0) ≤ 1536)%Z
        ∧ (human_loop 1536 0 = 5 ∨ (1536 < 1024 * 1024 ^ Z.of_nat (human_loop 1536 0))%Z)))
  ∧ (∃ tenths,
       (0 ≤ tenths)%Z
       ∧ human 1536 = (decimal (tenths / 10) ++ "." ++ decimal (tenths mod 10)
                       ++ " " ++ nth (human_loop 1536 0) UNITS EmptyString)%string
       ∧ (2 * Z.abs (10 * 1536 - tenths * 1024 ^ Z.of_nat (human_loop 1536 0))
          ≤ 1024 ^ Z.of_nat (human_loop 1536 0))%Z)
  ∧ ((1536 < 1024)%Z → human 1536 = (decimal 1536 ++ ".0 B")%string).
Proof.
  apply (human_shows_nearest_tenth 1536). lia.
Defined.

Example human_examples :
  human 0 = "0.0 B"%string ∧ human 1023 = "1023.0 B"%string
  ∧ human 1536 = "1.5 KB"%string ∧ human 1280 = "1.2 KB"%string
  ∧ human 1048575 = "1024.0 KB"%string
  ∧ human (5 * 1024 ^ 3) = "5.0 GB"%string.
Proof. vm_compute. done. Qed.

(** ** The session worker: the limit and the numbering of the lines *)

Lemma limit_reached_app budget w tr1 tr2 :
  limit_reached budget w (tr1 ++ tr2)
  ↔ limit_reached budget w tr1 ∧ limit_reached budget (w + bytes_warmed tr1) tr2.
Proof.
  revert w. induction tr1 as [|[| | | | |[]] tr1 IH]; intros w; simpl;
    rewrite ?Z.add_0_r, ?IH, ?Z.add_assoc; tauto.
Qed.

Lemma limit_reached_hit budget w tr1 tr2 :
  limit_reached budget w (tr1 ++ EvLog LHitLimit :: tr2) →
  (budget ≤ w + bytes_warmed tr1)%Z.
Proof. rewrite limit_reached_app. simpl. tauto. Qed.

Lemma indexed_lines_app tr1 tr2 :
  indexed_lines (tr1 ++ tr2) = indexed_lines tr1 ++ indexed_lines tr2.
Proof.
  induction tr1 as [|[| | | | |[]] tr1 IH]; simpl; try done; by rewrite IH.
Qed.

Lemma completed_indexed_lines tr : completed tr = length (indexed_lines tr).
Proof.
  unfold completed. induction tr as [|[| | | | |[]] tr IH]; simpl; try done;
    rewrite ?filter_cons_True, ?filter_cons_False by (simpl; tauto); simpl;
    by rewrite ?IH.
Qed.

Section limit_and_lines.
Context (budget : Z) (dry : bool) (E : Env).

Lemma file_loop_limit files i n st c :
  limit_reached budget (warmed_total st) (file_loop budget dry i n files st E c).2.
Proof.
  revert i st c. induction files as [|fpath rest IH]; intros i st c; [done|].
  rewrite file_loop_cons.
  destruct (stop_flag E c); [done|].
  destruct (st_size (fs_at E (c + 1)) fpath) as [size|e]; [|done].
  destruct dry.
  { specialize (IH (S i) st (c + 3)).
    destruct (file_loop budget true (S i) n rest st E (c + 3)) as [r evs]. done. }
  destruct (Z.leb_spec budget (warmed_total st)); [done|].
  destruct (warm_file (fs_at E (c + 2)) fpath 16) as [rb|e];
    match goal with |- context [file_loop ?b ?d ?i ?n ?r ?s ?E ?c] =>
      specialize (IH i s c); destruct (file_loop b d i n r s E c) end; done.
Qed.

Lemma warm_target_limit t st c :
  limit_reached budget (warmed_total st) (warm_target budget dry t st E c).2.
Proof.
  rewrite warm_target_unfold. cbv zeta.
  destruct (files_sort _ _) as [files|e]; [|done].
  pose proof (file_loop_limit files 1 (length files) (reset_warmed st) (c + 3)) as H.
  destruct (file_loop budget dry 1 (length files) files (reset_warmed st) E (c + 3))
    as [[st'|e] evs]; simpl in *; [|done].
  by apply limit_reached_app.
Qed.

Lemma target_loop_limit targets st c :
  limit_reached budget (warmed_total st) (target_loop budget dry targets st E c).2.
Proof.
  revert st c. induction targets as [|t rest IH]; intros st c; [done|].
  rewrite target_loop_cons.
  destruct (stop_flag E c); [done|].
  pose proof (warm_target_limit t st (c + 1)) as H.
  pose proof (warm_target_accounts budget dry E t st (c + 1)) as Ha.
  destruct (warm_target budget dry t st E (c + 1)) as [[st'|e] evs]; simpl in *; [|done].
  destruct (Ha st' eq_refl) as (Hw & _).
  specialize (IH st' (c + 1 + length evs)).
  destruct (target_loop budget dry rest st' E (c + 1 + length evs)) as [r evs'].
  simpl in *. apply limit_reached_app. split; [done|]. by rewrite <- Hw.
Qed.

Lemma file_loop_lines files i n st c :
  ∃ k, k ≤ length files
       ∧ indexed_lines (file_loop budget dry i n files st E c).2
         = zip (seq i k) (take k files)
       ∧ Forall (fun pl => pl.1.1.2 = n) (planned (file_loop budget dry i n files st E c).2).
Proof.
  revert i st c. induction files as [|fpath rest IH]; intros i st c.
  { exists 0. split; [done|]. split; [done|constructor]. }
  rewrite file_loop_cons.
  assert (Hstop : ∃ k, k ≤ length (fpath :: rest)
                       ∧ [] = zip (seq i k) (take k (fpath :: rest))).
  { exists 0. split; [simpl; lia|done]. }
  destruct (stop_flag E c).
  { destruct Hstop as (k & ? & ?). exists k. split; [done|]. split; [done|constructor]. }
  destruct (st_size (fs_at E (c + 1)) fpath) as [size|e].
  2: { destruct Hstop as (k & ? & ?). exists k. split; [done|]. split; [done|constructor]. }
  destruct dry.
  { destruct (IH (S i) st (c + 3)) as (k & Hk & Hl & Hp).
    destruct (file_loop budget true (S i) n rest st E (c + 3)) as [r evs].
    exists (S k). simpl in *. split; [lia|]. split; [by rewrite Hl|by constructor]. }
  destruct (budget <=? warmed_total st)%Z.
  { destruct Hstop as (k & ? & ?). exists k. split; [done|]. split; [done|constructor]. }
  destruct (warm_file (fs_at E (c + 2)) fpath 16) as [rb|e];
    match goal with |- context [file_loop ?b ?d ?i ?n ?r ?s ?E ?c] =>
      destruct (IH i s c) as (k & Hk & Hl & Hp);
      destruct (file_loop b d i n r s E c) end;
    exists (S k); simpl in *; (split; [lia|]); (split; [by rewrite Hl|done]).
Qed.
End limit_and_lines.

(** X20: the limit is one for the whole session.  The limit line is only
    logged outside a dry run and when the bytes warmed so far have reached the
    budget, and after the first limit line no file is opened any more, in this
    target or in a later one. *)
Theorem limit_line_ends_reading
    (budget : Z) (dry : bool) (targets : list Path) (E : Env) (c : nat)
    (tr1 tr2 : list event) :
  (worker budget dry targets E c).2 = tr1 ++ EvLog LHitLimit :: tr2 →
  dry = false
  ∧ (budget ≤ bytes_warmed tr1)%Z
  ∧ opened tr2 = [].
Proof.
  intros Htr.
  assert (Hdry : dry = false).
  { destruct dry; [|done].
    pose proof (worker_dry_events budget E targets c) as Hd.
    rewrite Htr in Hd. apply Forall_app in Hd as [_ Hd].
    by apply Forall_cons in Hd as [Hd _]. }
  split; [done|].
  destruct (worker_tracks budget dry E targets c) as (Hk & _ & _).
  assert (Hl : limit_reached budget 0 (worker budget dry targets E c).2).
  { destruct (worker_unfold budget dry E targets c) as (k & evs0 & _ & Hen & ->).
    assert (H0 : limit_reached budget 0 evs0 ∧ bytes_warmed evs0 = 0%Z).
    { clear -Hen. induction Hen as [|ev evs (t & files & ->) _ IH]; [done|]. exact IH. }
    destruct H0 as [Hl0 Hb0].
    pose proof (target_loop_limit budget dry E targets
      {| warmed_total := 0; warmed := 0; progressed := 0 |} (c + length evs0)) as H.
    destruct (target_loop _ _ _ _ _ _) as [[st|e] evs]; simpl in *.
    - apply limit_reached_app. rewrite Hb0. split; [done|].
      apply limit_reached_app. by split.
    - apply limit_reached_app. rewrite Hb0. by split. }
  rewrite Htr in Hk, Hl. apply limit_reached_hit in Hl.
  split; [lia|].
  apply budget_kept_app in Hk as [_ Hk]. simpl in Hk.
  apply (budget_kept_no_open _ _ _ Hk). lia.
Qed.

Lemma limit_line_ends_reading_witness :
  false = false
  ∧ (4 ≤ bytes_warmed (take 11 (worker 4 false [["r"%string]] scenario_env 0%nat).2))%Z
  ∧ opened (drop 12 (worker 4 false [["r"%string]] scenario_env 0).2) = [].
Proof.
  apply (limit_line_ends_reading 4 false [["r"%string]] scenario_env 0
           (take 11 (worker 4 false [["r"%string]] scenario_env 0).2)
           (drop 12 (worker 4 false [["r"%string]] scenario_env 0).2)).
  vm_compute. reflexivity.
Defined.

(** X21: the lines of a target follow the ranks.  The files of the ranked
    list are worked through from the first on without a gap: the [k] files the
    loop completes each get one "warmed", "error" or "plan" line, the line of
    the file of rank [i] carries the index [i], and every "plan" line shows the
    length of the ranked list. *)
Theorem warm_target_lines_follow_ranks
    (budget : Z) (dry : bool) (t : Path) (st : locals) (E : Env) (c : nat)
    (ranked : list Path) :
  files_sort (fs_at E (c + 2)) (iter_files (fs_at E (c + 1)) t DEFAULT_PATTERNS)
  = Ok ranked →
  ∃ k, k ≤ length ranked
       ∧ completed (warm_target budget dry t st E c).2 = k
       ∧ indexed_lines (warm_target budget dry t st E c).2
         = zip (seq 1 k) (take k ranked)
       ∧ Forall (fun pl => pl.1.1.2 = length ranked)
           (planned (warm_target budget dry t st E c).2).
Proof.
  intros Hs. rewrite warm_target_unfold. cbv zeta. rewrite Hs.
  destruct (file_loop_lines budget dry E ranked 1 (length ranked) (reset_warmed st) (c + 3))
    as (k & Hk & Hl & Hp).
  assert (Hlen : length (zip (seq 1 k) (take k ranked)) = k).
  { rewrite length_zip, length_seq, length_take. lia. }
  exists k. split; [done|].
  destruct (file_loop budget dry 1 (length ranked) ranked (reset_warmed st) E (c + 3))
    as [[st'|e] evs]; simpl in *.
  - rewrite completed_indexed_lines. simpl.
    rewrite indexed_lines_app, planned_app. simpl. rewrite !app_nil_r, Hl.
    by repeat split.
  - rewrite completed_indexed_lines. simpl. rewrite Hl. by repeat split.
Qed.

Lemma warm_target_lines_follow_ranks_witness :
  ∃ k, k ≤ length [ ["r"; "mods"; "big.JAR"]; ["r"; "mods"; "A.jar"];
                    ["r"; "config"; "b.toml"]; ["r"; "art"; "c.png"] ]%string
       ∧ completed (warm_target 4 false ["r"%string]
                      {| warmed_total := 0; warmed := 0; progressed := 0 |}
                      scenario_env 2).2 = k
       ∧ indexed_lines (warm_target 4 false ["r"%string]
                          {| warmed_total := 0; warmed := 0; progressed := 0 |}
                          scenario_env 2).2
         = zip (seq 1 k)
             (take k [ ["r"; "mods"; "big.JAR"]; ["r"; "mods"; "A.jar"];
                       ["r"; "config"; "b.toml"]; ["r"; "art"; "c.png"] ]%string)
       ∧ Forall (fun pl => pl.1.1.2
                           = length [ ["r"; "mods"; "big.JAR"]; ["r"; "mods"; "A.jar"];
                                      ["r"; "config"; "b.toml"]; ["r"; "art"; "c.png"] ]%string)
           (planned (warm_target 4 false ["r"%string]
                       {| warmed_total := 0; warmed := 0; progressed := 0 |}
                       scenario_env 2).2).
Proof.
  apply (warm_target_lines_follow_ranks 4 false ["r"%string]
           {| warmed_total := 0; warmed := 0; progressed := 0 |} scenario_env 2
           [ ["r"; "mods"; "big.JAR"]; ["r"; "mods"; "A.jar"];
             ["r"; "config"; "b.toml"]; ["r"; "art"; "c.png"] ]%string).
  vm_compute. reflexivity.
Defined.
